(** * Static recipe analyzer and ingestion layer: a shallow embedding

    Embedding of [src/extractor]: [utils.py] (URL normalizer, classifier,
    literal scanner), [recipe_parser.py] (constant folder, module and class
    walkers, endpoint extractors, [parse_recipe_file]), [db.py] and
    [fetch_news.py] (the two deduplicating inserts) and [rss_fallback.py]
    ([parse_feed]).

    Python [str] values are modelled as [string]: sequences of characters
    whose code points are below 256, with Python's own whitespace and
    lower-casing tables restricted to that range.  Python exceptions are
    modelled by the [result] type.  The limits of the interpreter's
    resources (recursion depth, memory) are outside the model: the
    functions here recurse as deep as their input is, so no theorem below
    states that the folder or a walker returns on every input. *)

From Stdlib Require Import Bool List Arith NArith ZArith Lia.
From Stdlib Require Import Ascii String PrimFloat.
From Stdlib.Strings Require Byte.
Import ListNotations.
Set Warnings "-register-all,-inexact-float".
Local Open Scope list_scope.
Local Open Scope string_scope.

(** ** Python string primitives used by the sources *)

Module PyStr.

(** Code point of a character. *)
Definition ord (c : ascii) : N := N_of_ascii c.

Definition between (lo hi : N) (c : ascii) : bool :=
  ((lo <=? ord c) && (ord c <=? hi))%N.

(** [str.isspace] on one character, for code points below 256:
    TAB..CR, FS..US, SPACE, NEL and NBSP. *)
Definition isspace (c : ascii) : bool :=
  between 9 13 c || between 28 32 c || (ord c =? 133)%N || (ord c =? 160)%N.

(** Membership of a character in a set given as a string, as used by
    [str.strip(chars)] and [str.rstrip(chars)]. *)
Fixpoint char_in (chars : string) (c : ascii) : bool :=
  match chars with
  | EmptyString => false
  | String d rest => Ascii.eqb c d || char_in rest c
  end.

(** [str.lower] on one character: A-Z and the Latin-1 capitals
    (U+00C0..U+00DE without U+00D7) move up by 32. *)
Definition lower_char (c : ascii) : ascii :=
  if between 65 90 c || (between 192 222 c && negb (ord c =? 215)%N)
  then ascii_of_N (ord c + 32) else c.

Fixpoint lower (s : string) : string :=
  match s with
  | EmptyString => EmptyString
  | String c rest => String (lower_char c) (lower rest)
  end.

Definition is_empty (s : string) : bool :=
  match s with EmptyString => true | _ => false end.

(** [s.lstrip] for a character class [p]. *)
Fixpoint lstrip_by (p : ascii -> bool) (s : string) : string :=
  match s with
  | EmptyString => EmptyString
  | String c rest => if p c then lstrip_by p rest else s
  end.

(** [s.rstrip] for a character class [p]. *)
Fixpoint rstrip_by (p : ascii -> bool) (s : string) : string :=
  match s with
  | EmptyString => EmptyString
  | String c rest =>
      match rstrip_by p rest with
      | EmptyString => if p c then EmptyString else String c EmptyString
      | kept => String c kept
      end
  end.

Definition strip_by (p : ascii -> bool) (s : string) : string :=
  rstrip_by p (lstrip_by p s).

(** [s.strip()], [s.strip(chars)], [s.rstrip(chars)]. *)
Definition strip (s : string) : string := strip_by isspace s.
Definition strip_chars (chars s : string) : string := strip_by (char_in chars) s.
Definition rstrip_chars (chars s : string) : string := rstrip_by (char_in chars) s.

(** [s.startswith(p)]. *)
Fixpoint startswith (p s : string) : bool :=
  match p with
  | EmptyString => true
  | String a p' =>
      match s with
      | EmptyString => false
      | String b s' => Ascii.eqb a b && startswith p' s'
      end
  end.

(** [s[n:]]. *)
Fixpoint slice_from (n : nat) (s : string) : string :=
  match n with
  | O => s
  | S k => match s with EmptyString => EmptyString | String _ rest => slice_from k rest end
  end.

(** [needle in hay]. *)
Fixpoint contains (needle hay : string) : bool :=
  startswith needle hay ||
  match hay with
  | EmptyString => false
  | String _ rest => contains needle rest
  end.

(** Every character of [s] is in the class [p]. *)
Fixpoint all_chars (p : ascii -> bool) (s : string) : bool :=
  match s with
  | EmptyString => true
  | String c rest => p c && all_chars p rest
  end.

(** The first, resp. last, character of [s] (if any) is outside [p]. *)
Definition head_outside (p : ascii -> bool) (s : string) : Prop :=
  forall c rest, s = String c rest -> p c = false.

Definition last_outside (p : ascii -> bool) (s : string) : Prop :=
  forall front c, s = front ++ String c EmptyString -> p c = false.

(** [needle] occurs in [hay] as a contiguous substring. *)
Definition Occurs (needle hay : string) : Prop :=
  exists pre post, hay = pre ++ needle ++ post.

End PyStr.

(** ** utils.py *)

(** The double quote character, and the two character sets of
    [normalize_url]: the quotes removed by its second [strip] (single and
    double quote) and the trailing characters removed by its [rstrip]
    (closing round, square and angle bracket, period, comma, semicolon,
    double quote, single quote, space). *)
Definition dquote : ascii := "034"%char.
Definition quote_chars : string := String "'" (String dquote EmptyString).
Definition trailing_chars : string := ")]>.,;" ++ String dquote "' ".

Definition normalize_url (raw : string) : option string :=
  let raw := PyStr.strip_chars quote_chars (PyStr.strip raw) in
  if PyStr.is_empty raw then None
  else
    let raw := PyStr.rstrip_chars trailing_chars raw in
    let raw :=
      if PyStr.startswith "feed://" raw
      then "http://" ++ PyStr.slice_from (String.length "feed://") raw
      else raw in
    Some raw.

Definition feed_markers : list string := ["/rss"; ".rss"; "/atom"; ".atom"; ".xml"].

Definition str_is (expected : string) (s : option string) : bool :=
  match s with Some x => String.eqb x expected | None => false end.

(** [attr_name and "feed" in attr_name.lower()]: a missing or empty name is
    falsy. *)
Definition attr_names_feed (attr_name : option string) : bool :=
  match attr_name with
  | Some a => negb (PyStr.is_empty a) && PyStr.contains "feed" (PyStr.lower a)
  | None => false
  end.

Definition classify_url (url : string) (source attr_name : option string) : string :=
  let u := PyStr.lower url in
  if str_is "feeds" source || attr_names_feed attr_name then "feed"
  else if existsb (fun x => PyStr.contains x u) feed_markers then "feed"
  else if PyStr.contains "/api/" u || PyStr.contains ".json" u || PyStr.contains "api." u
  then "api"
  else "html".

(** Characters that end a URL match: the complement of the regular
    expression class: whitespace, both quotes and the angle brackets. *)
Definition url_char (c : ascii) : bool :=
  negb (PyStr.isspace c || PyStr.char_in (String "'" (String dquote "<>")) c).

Fixpoint take_while (p : ascii -> bool) (s : string) : string :=
  match s with
  | EmptyString => EmptyString
  | String c rest => if p c then String c (take_while p rest) else EmptyString
  end.

(** One alternative of the pattern at the start of [s]: the literal
    [scheme] followed by one or more URL characters, taken greedily. *)
Definition match_scheme (scheme s : string) : option string :=
  if PyStr.startswith scheme s then
    match take_while url_char (PyStr.slice_from (String.length scheme) s) with
    | EmptyString => None
    | body => Some (scheme ++ body)
    end
  else None.

Definition first_some {A} (x y : option A) : option A :=
  match x with Some _ => x | None => y end.

(** The whole pattern at the start of [s], alternatives in the order the
    regex engine tries them. *)
Definition match_url (s : string) : option string :=
  first_some (match_scheme "https://" s)
    (first_some (match_scheme "http://" s) (match_scheme "feed://" s)).

(** [pattern.findall]: leftmost non-overlapping matches.  [skip] counts the
    characters of the current match still to be stepped over. *)
Fixpoint findall_urls (skip : nat) (s : string) : list string :=
  match s with
  | EmptyString => []
  | String _ rest =>
      match skip with
      | S k => findall_urls k rest
      | O =>
          match match_url s with
          | Some m => m :: findall_urls (String.length m - 1) rest
          | None => findall_urls 0 rest
          end
      end
  end.

Definition find_urls_in_text (text : string) : list string := findall_urls 0 text.

(** ** Python values, exceptions and the syntax tree *)

Inductive value :=
| VNone
| VBool (b : bool)
| VInt (n : Z)
| VFloat (x : PrimFloat.float)
| VComplex (re im : PrimFloat.float)
| VEllipsis
| VStr (s : string)
| VBytes (b : list Byte.byte)
| VList (items : list value)
| VTuple (items : list value).

Inductive pyexn :=
| TypeError
| ParseError (msg : string)
| ValueError
| MemoryError
| RecursionError.

Inductive result (A : Type) :=
| Ok (a : A)
| Raise (e : pyexn).
Arguments Ok {A} a.
Arguments Raise {A} e.

Definition bind {A B} (r : result A) (k : A -> result B) : result B :=
  match r with
  | Ok a => k a
  | Raise e => Raise e
  end.

Notation "x <- r ;; k" := (bind r (fun x => k))
  (at level 61, r at next level, right associativity).

Section MapM.
Context {A B : Type} (f : A -> result B).

(** A list comprehension over a call that may raise: elements are
    evaluated left to right and the first exception escapes. *)
Fixpoint mapM (l : list A) : result (list B) :=
  match l with
  | [] => Ok []
  | a :: rest => b <- f a ;; bs <- mapM rest ;; Ok (b :: bs)
  end.
End MapM.

(** A [dict] with string keys: insertion-ordered, one entry per key. *)
Definition dict := list (string * value).

Fixpoint dict_get (d : dict) (k : string) : option value :=
  match d with
  | [] => None
  | (k', v) :: rest => if String.eqb k' k then Some v else dict_get rest k
  end.

(** [d[k] = v]: an existing key keeps its position. *)
Fixpoint dict_set (d : dict) (k : string) (v : value) : dict :=
  match d with
  | [] => [(k, v)]
  | (k', v') :: rest =>
      if String.eqb k' k then (k', v) :: rest else (k', v') :: dict_set rest k v
  end.

(** [a | b]. *)
Definition dict_union (a b : dict) : dict :=
  fold_left (fun acc kv => dict_set acc (fst kv) (snd kv)) b a.

(** [d.get(k)]: a missing key gives [None]. *)
Definition get (d : dict) (k : string) : value :=
  match dict_get d k with Some v => v | None => VNone end.

(** The payload of an [ast.Constant] node produced by the parser. *)
Inductive constant :=
| CNone
| CBool (b : bool)
| CInt (n : Z)
| CFloat (x : PrimFloat.float)
| CComplex (re im : PrimFloat.float)
| CEllipsis
| CStr (s : string)
| CBytes (b : list Byte.byte).

Definition constant_value (c : constant) : value :=
  match c with
  | CNone => VNone
  | CBool b => VBool b
  | CInt n => VInt n
  | CFloat x => VFloat x
  | CComplex re im => VComplex re im
  | CEllipsis => VEllipsis
  | CStr s => VStr s
  | CBytes b => VBytes b
  end.

Inductive operator := Add | Sub | Mult | Div | Mod | OtherOp.

(** Expression nodes: the kinds [_eval_node] and [_is_recipe_base] inspect,
    and [OtherExpr] for every other kind. *)
Inductive expr :=
| Constant (value : constant)
| Name (id : string)
| Tuple (elts : list expr)
| List (elts : list expr)
| BinOp (left : expr) (op : operator) (right : expr)
| JoinedStr (values : list expr)
| FormattedValue (value : expr)
| Attribute (value : expr) (attr : string)
| Call (func : expr) (args : list expr) (keywords : list (option string * expr))
| OtherExpr.

Inductive stmt :=
| Assign (targets : list expr) (value : expr)
| AnnAssign (target : expr) (value : option expr)
| AugAssign (target : expr) (op : operator) (value : expr)
| ClassDef (name : string) (bases : list expr) (body : list stmt)
| OtherStmt.

(** [ast.Module]: its body. *)
Definition module := list stmt.

(** The outcome of [ast.parse]: a tree, a [SyntaxError] with its text, or
    another exception: the parser raises [ValueError] on a text with a NUL
    character (before Python 3.12) and [MemoryError] or [RecursionError] on
    deeply nested text. *)
Inductive parse_outcome :=
| Parsed (tree : module)
| SyntaxError (text : string)
| ParserRaises (e : pyexn).

(** Builtins and library calls of the sources that are not part of the
    repository.  [repr_other] is the text of [str(v)] for a value that is
    not a [str]; [int_max_str_digits] is [sys.get_int_max_str_digits()], the
    largest number of decimal digits of an [int] that [str] converts (4300
    by default since Python 3.11, 0 when there is no limit);
    [str_format base args kwargs] is [base.format( *args, **kwargs)], [None]
    when it raises; [decode_utf8] is [b.decode] with the utf-8 codec and the
    replace handler; [unescape] is [html.unescape]; [ast_parse] is
    [ast.parse]. *)
Record builtins := {
  repr_other : value -> string;
  int_max_str_digits : Z;
  str_format : string -> list value -> dict -> option string;
  decode_utf8 : list Byte.byte -> string;
  unescape : string -> string;
  ast_parse : string -> parse_outcome
}.

(** ** recipe_parser.py: the constant folder *)

Definition is_none (v : value) : bool :=
  match v with VNone => true | _ => false end.

(** [isinstance(v, (str, bytes))]. *)
Definition is_str_or_bytes (v : value) : bool :=
  match v with VStr _ | VBytes _ => true | _ => false end.

(** Python's [left + right] where each operand is a [str] or a [bytes]:
    two of the same kind concatenate, one of each raises [TypeError]. *)
Definition add_text (left right : value) : result value :=
  match left, right with
  | VStr a, VStr b => Ok (VStr (a ++ b))
  | VBytes a, VBytes b => Ok (VBytes (a ++ b)%list)
  | _, _ => Raise TypeError
  end.

Section Loops.
Context (fold : expr -> result value) (to_str : value -> result string).

(** The loop of the [JoinedStr] case: it returns [None] at the first part
    that folds to [None], without folding the later parts. *)
Fixpoint join_values (values : list expr) (parts : list string) : result value :=
  match values with
  | [] => Ok (VStr (String.concat EmptyString parts))
  | v :: rest =>
      val <- fold v ;;
      if is_none val then Ok VNone
      else part <- to_str val ;; join_values rest (parts ++ [part])%list
  end.

(** The dict comprehension over [node.keywords]: keywords without a name
    are skipped, not folded. *)
Fixpoint collect_keywords (keywords : list (option string * expr)) (acc : dict)
  : result dict :=
  match keywords with
  | [] => Ok acc
  | (Some arg, v) :: rest =>
      if PyStr.is_empty arg then collect_keywords rest acc
      else val <- fold v ;; collect_keywords rest (dict_set acc arg val)
  | (None, _) :: rest => collect_keywords rest acc
  end.
End Loops.

Section Folder.
Variable B : builtins.

(** The text of [str(v)], when the call returns. *)
Definition py_str (v : value) : string :=
  match v with
  | VStr s => s
  | _ => repr_other B v
  end.

(** The [int] has more decimal digits than [str] converts. *)
Definition int_too_long (n : Z) : bool :=
  (0 <? int_max_str_digits B)%Z && (10 ^ int_max_str_digits B <=? Z.abs n)%Z.

(** [str(v)] raises: the conversion meets an [int] beyond the digit limit,
    in [v] itself or in an item of a list or tuple, whose text is made of
    the texts of its items. *)
Fixpoint str_raises (v : value) : bool :=
  match v with
  | VInt n => int_too_long n
  | VList items | VTuple items => existsb str_raises items
  | _ => false
  end.

(** The call [str(v)]: [ValueError] or the text. *)
Definition str_call (v : value) : result string :=
  if str_raises v then Raise ValueError else Ok (py_str v).

(** [_eval_node].  [None] is the value [VNone].  The [ast.Str] and
    [ast.Bytes] tests only ever hold of [ast.Constant] nodes, which the
    first test has already answered. *)
Fixpoint _eval_node (node : expr) (constants : dict) {struct node} : result value :=
  match node with
  | Constant c => Ok (constant_value c)
  | Name id => Ok (get constants id)
  | Tuple elts =>
      items <- mapM (fun elt => _eval_node elt constants) elts ;;
      if existsb is_none items then Ok VNone else Ok (VTuple items)
  | List elts =>
      items <- mapM (fun elt => _eval_node elt constants) elts ;;
      if existsb is_none items then Ok VNone else Ok (VList items)
  | BinOp l Add r =>
      left <- _eval_node l constants ;;
      right <- _eval_node r constants ;;
      if is_str_or_bytes left && is_str_or_bytes right then add_text left right
      else
        match left, right with
        | VList a, VList b => Ok (VList (a ++ b)%list)
        | _, _ => Ok VNone
        end
  | BinOp _ _ _ => Ok VNone
  | JoinedStr values =>
      join_values (fun v => _eval_node v constants) str_call values []
  | FormattedValue v => _eval_node v constants
  | Call (Attribute base_node attr) args keywords =>
      if String.eqb attr "format" then
        base <- _eval_node base_node constants ;;
        match base with
        | VStr fmt =>
            args <- mapM (fun a => _eval_node a constants) args ;;
            kwargs <- collect_keywords (fun v => _eval_node v constants) keywords [] ;;
            if existsb is_none args || existsb (fun kv => is_none (snd kv)) kwargs
            then Ok VNone
            else
              match str_format B fmt args kwargs with
              | Some s => Ok (VStr s)
              | None => Ok VNone
              end
        | _ => Ok VNone
        end
      else Ok VNone
  | Call _ _ _ => Ok VNone
  | Attribute _ _ => Ok VNone
  | OtherExpr => Ok VNone
  end.

End Folder.

(** ** recipe_parser.py: records, walkers and endpoint extractors *)

Record EndpointHit := {
  url : string;
  url_type : string;
  source : string;
  context : option string;
  feed_title : option string;
  raw_url : option value;
  confidence : PrimFloat.float
}.

Record RecipeMetadata := {
  recipe_uid : string;
  title : option string;
  author : option string;
  description : option string;
  language : option string;
  publication_type : option string;
  needs_subscription : option string;
  class_name : option string
}.

Definition recipe_base_names : list string :=
  ["BasicNewsRecipe"; "AutomaticNewsRecipe"; "CustomIndexRecipe"; "CalibrePeriodical"].

Definition name_in (names : list string) (x : string) : bool :=
  existsb (String.eqb x) names.

Definition _is_recipe_base (base : expr) : bool :=
  match base with
  | Name id => name_in recipe_base_names id
  | Attribute _ attr => name_in recipe_base_names attr
  | _ => false
  end.

(** [isinstance(val, (str, bytes, int, float, list, tuple))]; [bool] is a
    subclass of [int]. *)
Definition is_plain_value (val : value) : bool :=
  match val with
  | VStr _ | VBytes _ | VInt _ | VBool _ | VFloat _ | VList _ | VTuple _ => true
  | VNone | VComplex _ _ | VEllipsis => false
  end.

Definition _find_recipe_class (tree : module) : option stmt :=
  find (fun node =>
          match node with
          | ClassDef _ bases _ => existsb _is_recipe_base bases
          | _ => false
          end) tree.

Definition node_name (node : stmt) : option string :=
  match node with ClassDef name _ _ => Some name | _ => None end.

Definition node_body (node : stmt) : list stmt :=
  match node with ClassDef _ _ body => body | _ => [] end.

(** [if url:] on the result of [normalize_url]: [None] and the empty
    string are both falsy. *)
Definition truthy (u : option string) : option string :=
  match u with
  | Some s => if PyStr.is_empty s then None else Some s
  | None => None
  end.

(** The hits a loop appends, one optional hit per element, in order. *)
Definition collect_hits {A} (f : A -> option EndpointHit) (l : list A) : list EndpointHit :=
  flat_map (fun x => match f x with Some h => [h] | None => [] end) l.

Section Parser.
Variable B : builtins.

Definition decode_if_bytes (v : value) : value :=
  match v with
  | VBytes b => VStr (decode_utf8 B b)
  | _ => v
  end.

(** One iteration of the loop of [_collect_module_constants]. *)
Definition module_item (constants : dict) (node : stmt) : result dict :=
  match node with
  | Assign [Name id] value =>
      val <- _eval_node B value constants ;;
      Ok (if is_plain_value val then dict_set constants id val else constants)
  | _ => Ok constants
  end.

(** A [for] loop whose body may raise, threading the dictionary it
    mutates. *)
Fixpoint run_items (step : dict -> stmt -> result dict) (body : list stmt)
         (acc : dict) : result dict :=
  match body with
  | [] => Ok acc
  | item :: rest => acc' <- step acc item ;; run_items step rest acc'
  end.

Definition _collect_module_constants (tree : module) : result dict :=
  run_items module_item tree [].

(** One iteration of the loop of [_extract_class_assignments]. *)
Definition class_item (constants assigns : dict) (item : stmt) : result dict :=
  match item with
  | Assign [Name id] value =>
      val <- _eval_node B value (dict_union constants assigns) ;;
      Ok (if is_none val then assigns else dict_set assigns id val)
  | AnnAssign (Name id) value =>
      val <- match value with
             | Some v => _eval_node B v (dict_union constants assigns)
             | None => Ok VNone
             end ;;
      Ok (if is_none val then assigns else dict_set assigns id val)
  | AugAssign (Name id) Add value =>
      let current := get assigns id in
      extra <- _eval_node B value (dict_union constants assigns) ;;
      match current, extra with
      | VList a, VList b => Ok (dict_set assigns id (VList (a ++ b)%list))
      | _, _ => Ok assigns
      end
  | _ => Ok assigns
  end.

Definition _extract_class_assignments (node : stmt) (constants : dict) : result dict :=
  run_items (class_item constants) (node_body node) [].

(** The first branch of the loop of [_feeds_to_endpoints]: [entry] is a
    bare URL whose text is [text]. *)
Definition bare_feed_hit (entry : value) (text : string) : option EndpointHit :=
  match truthy (normalize_url text) with
  | Some u =>
      Some {| url := u; url_type := classify_url u (Some "feeds") None;
              source := "feeds"; context := None; feed_title := None;
              raw_url := Some entry; confidence := 0.95%float |}
  | None => None
  end.

(** The second branch: [entry] is a sequence starting with [t] and [u].
    The title goes through [str], which may raise; the URL is a [str] by
    then. *)
Definition titled_feed_hit (t u : value) : result (option EndpointHit) :=
  let u := decode_if_bytes u in
  let t := decode_if_bytes t in
  let url_n := match u with VStr s => normalize_url s | _ => None end in
  match truthy url_n with
  | Some n =>
      title <- (if is_none t then Ok None
                else text <- str_call B t ;; Ok (Some text)) ;;
      Ok (Some {| url := n; url_type := classify_url n (Some "feeds") None;
                  source := "feeds"; context := None; feed_title := title;
                  raw_url := Some (VStr (py_str B u)); confidence := 0.98%float |})
  | None => Ok None
  end.

(** The body of the loop of [_feeds_to_endpoints] for one entry. *)
Definition feed_entry_hit (entry : value) : result (option EndpointHit) :=
  match entry with
  | VStr s => Ok (bare_feed_hit entry s)
  | VBytes b => Ok (bare_feed_hit entry (decode_utf8 B b))
  | VList (t :: u :: _) | VTuple (t :: u :: _) => titled_feed_hit t u
  | _ => Ok None
  end.

(** The entries of a [feeds] value that the loop visits. *)
Definition feed_entries (feeds : value) : list value :=
  match feeds with
  | VList entries | VTuple entries => entries
  | _ => []
  end.

Definition _feeds_to_endpoints (feeds : value) : result (list EndpointHit) :=
  found <- mapM feed_entry_hit (feed_entries feeds) ;;
  Ok (collect_hits (fun hit => hit) found).

(** The body of the loop of [_attr_url_hits] for one item. *)
Definition attr_hit (item : string * value) : option EndpointHit :=
  let (name, v) := item in
  if PyStr.contains "url" (PyStr.lower name) && is_str_or_bytes v then
    let text := match v with VBytes b => decode_utf8 B b | _ => py_str B v end in
    match truthy (normalize_url text) with
    | Some u =>
        Some {| url := u; url_type := classify_url u (Some "attr") (Some name);
                source := "attr"; context := Some name; feed_title := None;
                raw_url := Some (VStr (py_str B v)); confidence := 0.8%float |}
    | None => None
    end
  else None.

Definition _attr_url_hits (assigns : dict) : list EndpointHit :=
  collect_hits attr_hit assigns.

(** The body of the first loop of [parse_recipe_file]. *)
Definition literal_hit (found : string) : option EndpointHit :=
  match truthy (normalize_url found) with
  | Some u =>
      Some {| url := u; url_type := classify_url u (Some "literal") None;
              source := "literal"; context := None; feed_title := None;
              raw_url := Some (VStr found); confidence := 0.6%float |}
  | None => None
  end.

Definition _as_str (v : value) : result (option string) :=
  match v with
  | VNone => Ok None
  | VBytes b => Ok (Some (decode_utf8 B b))
  | _ => text <- str_call B v ;; Ok (Some text)
  end.

Definition null_metadata : RecipeMetadata :=
  {| recipe_uid := EmptyString; title := None; author := None; description := None;
     language := None; publication_type := None; needs_subscription := None;
     class_name := None |}.

(** [parse_recipe_file], as a function of the text read from [path]. *)
Definition parse_recipe_file (text : string)
  : result (RecipeMetadata * list EndpointHit * option string) :=
  let raw := unescape B text in
  let url_hits := collect_hits literal_hit (find_urls_in_text raw) in
  match ast_parse B raw with
  | SyntaxError exc => Ok (null_metadata, url_hits, Some ("SyntaxError: " ++ exc))
  | ParserRaises e => Raise e
  | Parsed tree =>
      constants <- _collect_module_constants tree ;;
      let class_node := _find_recipe_class tree in
      assigns <- match class_node with
                 | Some node => _extract_class_assignments node constants
                 | None => Ok []
                 end ;;
      title <- _as_str (get assigns "title") ;;
      author <- _as_str (get assigns "__author__") ;;
      description <- _as_str (get assigns "description") ;;
      language <- _as_str (get assigns "language") ;;
      publication_type <- _as_str (get assigns "publication_type") ;;
      needs_subscription <- _as_str (get assigns "needs_subscription") ;;
      let meta :=
        {| recipe_uid := EmptyString;
           title := title;
           author := author;
           description := description;
           language := language;
           publication_type := publication_type;
           needs_subscription := needs_subscription;
           class_name := match class_node with
                         | Some node => node_name node
                         | None => None
                         end |} in
      feeds_hits <- _feeds_to_endpoints (get assigns "feeds") ;;
      Ok (meta, (url_hits ++ feeds_hits ++ _attr_url_hits assigns)%list, None)
  end.

End Parser.

(** ** db.py and fetch_news.py: the two deduplicating inserts

    A table is the list of its rows in insertion order.  A UNIQUE
    constraint is enforced the way SQLite does: two rows collide when every
    constrained column is equal and not NULL; a NULL never equals anything,
    another NULL included. *)

(** Equality of two nullable TEXT values as Python values: [None == None]. *)
Definition same_text (a b : option string) : bool :=
  match a, b with
  | Some x, Some y => String.eqb x y
  | None, None => true
  | _, _ => false
  end.

(** Equality of two nullable TEXT columns inside a UNIQUE constraint. *)
Definition unique_eq (a b : option string) : bool :=
  match a, b with
  | Some x, Some y => String.eqb x y
  | _, _ => false
  end.

(** A row of [recipe_endpoints]. *)
Record link_row := {
  l_recipe_id : Z;
  l_endpoint_id : Z;
  l_context : option string;
  l_feed_title : option string;
  l_source : string;
  l_confidence : PrimFloat.float;
  l_raw_url : option string;
  l_first_seen : string;
  l_last_seen : string
}.

(** UNIQUE(recipe_id, endpoint_id, context, feed_title, source). *)
Definition link_conflict (new old : link_row) : bool :=
  Z.eqb (l_recipe_id new) (l_recipe_id old)
  && Z.eqb (l_endpoint_id new) (l_endpoint_id old)
  && unique_eq (l_context new) (l_context old)
  && unique_eq (l_feed_title new) (l_feed_title old)
  && String.eqb (l_source new) (l_source old).

Definition set_last_seen (ts : string) (r : link_row) : link_row :=
  {| l_recipe_id := l_recipe_id r; l_endpoint_id := l_endpoint_id r;
     l_context := l_context r; l_feed_title := l_feed_title r;
     l_source := l_source r; l_confidence := l_confidence r;
     l_raw_url := l_raw_url r; l_first_seen := l_first_seen r;
     l_last_seen := ts |}.

(** INSERT ... ON CONFLICT(...) DO UPDATE SET last_seen=excluded.last_seen:
    the colliding row, if there is one, gets the new [last_seen]; otherwise
    the new row is appended. *)
Fixpoint insert_or_touch (table : list link_row) (new : link_row) : list link_row :=
  match table with
  | [] => [new]
  | old :: rest =>
      if link_conflict new old then set_last_seen (l_last_seen new) old :: rest
      else old :: insert_or_touch rest new
  end.

(** [link_recipe_endpoint]; [conn] is the [recipe_endpoints] table of the
    connection and [ts] the reading of [now_utc_iso()]. *)
Definition link_recipe_endpoint (ts : string) (conn : list link_row)
    (recipe_id endpoint_id : Z) (source : string) (context feed_title : option string)
    (raw_url : option string) (confidence : PrimFloat.float) : list link_row :=
  insert_or_touch conn
    {| l_recipe_id := recipe_id; l_endpoint_id := endpoint_id; l_context := context;
       l_feed_title := feed_title; l_source := source; l_confidence := confidence;
       l_raw_url := raw_url; l_first_seen := ts; l_last_seen := ts |}.

(** The rows stored under a composite key, compared as values (a NULL
    column against a NULL key component counts as the same key). *)
Definition has_key (recipe_id endpoint_id : Z) (context feed_title : option string)
    (source : string) (r : link_row) : bool :=
  Z.eqb (l_recipe_id r) recipe_id && Z.eqb (l_endpoint_id r) endpoint_id
  && same_text (l_context r) context
  && same_text (l_feed_title r) feed_title
  && String.eqb (l_source r) source.

(** The payload both fetch modes hand to [_insert_article]: the fourteen
    columns other than [id].  [recipe_uid] and [fingerprint] are always
    strings there; the other columns may be [None]. *)
Record article_payload := {
  p_recipe_uid : string;
  p_recipe_title : option string;
  p_feed_title : option string;
  p_article_title : option string;
  p_article_url : option string;
  p_article_guid : option string;
  p_author : option string;
  p_summary : option string;
  p_published : option string;
  p_fetched_at : option string;
  p_content_html : option string;
  p_content_text : option string;
  p_content_hash : option string;
  p_fingerprint : string
}.

(** A row of [articles]: the INTEGER PRIMARY KEY and the stored columns. *)
Record article_row := {
  a_id : Z;
  a_fields : article_payload
}.

Definition fingerprint_of (r : article_row) : string := p_fingerprint (a_fields r).

(** The key SQLite gives a row inserted without an [id]: one more than
    the largest in the table. *)
Definition next_id (table : list article_row) : Z :=
  fold_right Z.max 0%Z (map a_id table) + 1.

Definition has_fingerprint (f : string) (r : article_row) : bool :=
  String.eqb (fingerprint_of r) f.

(** [_insert_article]: INSERT OR IGNORE.  The row is dropped when it would
    violate the UNIQUE constraint on [fingerprint]. *)
Definition _insert_article (conn : list article_row) (payload : article_payload)
  : list article_row :=
  if existsb (has_fingerprint (p_fingerprint payload)) conn then conn
  else (conn ++ [{| a_id := next_id conn; a_fields := payload |}])%list.

(** ** rss_fallback.py *)

(** An [xml.etree.ElementTree.Element]: tag, attributes, text, children. *)
Inductive Element :=
| Elem (tag : string) (attrib : list (string * string)) (text : option string)
       (children : list Element).

Definition tag_of (e : Element) : string := match e with Elem t _ _ _ => t end.
Definition attrib_of (e : Element) : list (string * string) :=
  match e with Elem _ a _ _ => a end.
Definition text_of (e : Element) : option string := match e with Elem _ _ x _ => x end.
Definition children_of (e : Element) : list Element :=
  match e with Elem _ _ _ c => c end.

(** What [ET.fromstring] does with a payload: a root element, or a
    [ParseError] with its message. *)
Inductive xml_outcome :=
| XmlRoot (root : Element)
| XmlError (msg : string).

(** The text after the first closing brace, if there is one:
    [tag.split(brace, 1)[1]]. *)
Fixpoint after_brace (tag : string) : option string :=
  match tag with
  | EmptyString => None
  | String c rest => if Ascii.eqb c "}" then Some rest else after_brace rest
  end.

Definition _strip_ns (tag : string) : string :=
  match after_brace tag with
  | Some local => local
  | None => tag
  end.

(** Truthiness of an optional string: [None] and the empty string are
    falsy. *)
Definition nonempty (s : option string) : bool :=
  match s with
  | Some x => negb (PyStr.is_empty x)
  | None => false
  end.

Fixpoint find_child_text_in (children : list Element) (name : string) : option string :=
  match children with
  | [] => None
  | child :: rest =>
      if String.eqb (_strip_ns (tag_of child)) name && nonempty (text_of child)
      then option_map PyStr.strip (text_of child)
      else find_child_text_in rest name
  end.

Definition _find_child_text (node : Element) (name : string) : option string :=
  find_child_text_in (children_of node) name.

Definition _find_child (node : Element) (name : string) : option Element :=
  find (fun child => String.eqb (_strip_ns (tag_of child)) name) (children_of node).

(** [node.findall(name)] for a plain tag name: the direct children with
    exactly that tag. *)
Definition findall (node : Element) (name : string) : list Element :=
  filter (fun child => String.eqb (tag_of child) name) (children_of node).

(** [attrib.get(key)]. *)
Fixpoint attr_get (attrib : list (string * string)) (key : string) : option string :=
  match attrib with
  | [] => None
  | (k, v) :: rest => if String.eqb k key then Some v else attr_get rest key
  end.

(** [a or b] on optional strings. *)
Definition or_else (a b : option string) : option string :=
  if nonempty a then a else b.

Record feed_entry := {
  e_title : option string;
  e_link : option string;
  e_guid : option string;
  e_published : option string;
  e_summary : option string;
  e_content : option string
}.

(** The loop that looks for the [encoded] child of an RSS item. *)
Fixpoint encoded_content (children : list Element) : option string :=
  match children with
  | [] => None
  | child :: rest =>
      if String.eqb (_strip_ns (tag_of child)) "encoded" && nonempty (text_of child)
      then text_of child
      else encoded_content rest
  end.

Definition rss_entry (item : Element) : feed_entry :=
  {| e_title := _find_child_text item "title";
     e_link := _find_child_text item "link";
     e_guid := _find_child_text item "guid";
     e_published := _find_child_text item "pubDate";
     e_summary := _find_child_text item "description";
     e_content := encoded_content (children_of item) |}.

(** The loop over the [link] children of an Atom entry, [link] being the
    value found so far. *)
Fixpoint atom_link (links : list Element) (link : option string) : option string :=
  match links with
  | [] => link
  | link_el :: rest =>
      let rel := match attr_get (attrib_of link_el) "rel" with
                 | Some r => r
                 | None => "alternate"
                 end in
      if String.eqb rel "alternate" then attr_get (attrib_of link_el) "href"
      else atom_link rest
             (match link with
              | None => attr_get (attrib_of link_el) "href"
              | Some _ => link
              end)
  end.

Definition atom_entry (item : Element) : feed_entry :=
  {| e_title := _find_child_text item "title";
     e_link := atom_link (findall item "link") None;
     e_guid := _find_child_text item "id";
     e_published := or_else (_find_child_text item "published")
                            (_find_child_text item "updated");
     e_summary := _find_child_text item "summary";
     e_content := _find_child_text item "content" |}.

(** The body of [parse_feed] once [ET.fromstring] has returned [root]. *)
Definition feed_of_root (root : Element) : option string * list feed_entry :=
  let root_tag := _strip_ns (tag_of root) in
  if String.eqb root_tag "rss" then
    match _find_child root "channel" with
    | None => (None, [])
    | Some channel =>
        (_find_child_text channel "title", map rss_entry (findall channel "item"))
    end
  else if String.eqb root_tag "feed" then
    (_find_child_text root "title", map atom_entry (findall root "entry"))
  else (None, []).

(** [parse_feed], as a function of what [ET.fromstring] does with
    [xml_bytes]: the payload is used nowhere else, and the call is not
    inside a [try]. *)
Definition parse_feed (parsed : xml_outcome)
  : result (option string * list feed_entry) :=
  match parsed with
  | XmlError msg => Raise (ParseError msg)
  | XmlRoot root => Ok (feed_of_root root)
  end.

(** ** Instances used by the closed examples *)

(** Builtins whose parser rejects every text. *)
Definition rejecting_builtins : builtins :=
  {| repr_other := fun _ => "<object>";
     int_max_str_digits := 4300;
     str_format := fun _ _ _ => None;
     decode_utf8 := string_of_list_byte;
     unescape := fun s => s;
     ast_parse := fun _ => SyntaxError "invalid syntax" |}.

(** Builtins whose parser returns [tree] for every text. *)
Definition builtins_parsing (tree : module) : builtins :=
  {| repr_other := repr_other rejecting_builtins;
     int_max_str_digits := int_max_str_digits rejecting_builtins;
     str_format := str_format rejecting_builtins;
     decode_utf8 := decode_utf8 rejecting_builtins;
     unescape := unescape rejecting_builtins;
     ast_parse := fun _ => Parsed tree |}.

(** The NUL character and a text that holds one after a URL. *)
Definition nul_char : ascii := "000"%char.

Definition nul_text : string := "u = 'http://ex.com/a.rss'" ++ String nul_char EmptyString.

(** Builtins whose parser does with a text that holds a NUL character what
    the parser of Python 3.11 does, and rejects every other text. *)
Definition nul_builtins : builtins :=
  {| repr_other := repr_other rejecting_builtins;
     int_max_str_digits := int_max_str_digits rejecting_builtins;
     str_format := str_format rejecting_builtins;
     decode_utf8 := decode_utf8 rejecting_builtins;
     unescape := unescape rejecting_builtins;
     ast_parse := fun text =>
       if PyStr.contains (String nul_char EmptyString) text
       then ParserRaises ValueError
       else SyntaxError "invalid syntax" |}.

(** The tree of a recipe class with a title and a feeds list:
    [class Example(BasicNewsRecipe)] with [title] set to Example and
    [feeds] to the one pair (Tech, http://ex.com/tech.rss). *)
Definition example_tree : module :=
  [ClassDef "Example" [Name "BasicNewsRecipe"]
     [Assign [Name "title"] (Constant (CStr "Example"));
      Assign [Name "feeds"]
        (List [Tuple [Constant (CStr "Tech");
                      Constant (CStr "http://ex.com/tech.rss")]])]].

(** A recipe class whose title is an [int] of 4301 digits, as a
    hexadecimal literal can spell one. *)
Definition huge_title_tree : module :=
  [ClassDef "Example" [Name "BasicNewsRecipe"]
     [Assign [Name "title"] (Constant (CInt (10 ^ 4300)))]].

Definition url_schemes : list string := ["https://"; "http://"; "feed://"].

(** What a match of the pattern looks like: a scheme followed by one or
    more characters none of which is whitespace, a quote or an angle
    bracket. *)
Definition url_shaped (m : string) : Prop :=
  exists scheme body,
    In scheme url_schemes /\ m = scheme ++ body
    /\ body <> EmptyString /\ PyStr.all_chars url_char body = true.

(** What every emitted hit satisfies: a non-empty [url] that is an output
    of the normalizer, and one of the three types. *)
Definition well_formed_hit (h : EndpointHit) : Prop :=
  url h <> EmptyString
  /\ (url_type h = "feed" \/ url_type h = "api" \/ url_type h = "html")
  /\ exists raw, normalize_url raw = Some (url h).

(** An article payload fetched at [fetched_at]; the other columns are
    fixed. *)
Definition example_article (fetched_at : string) : article_payload :=
  {| p_recipe_uid := "builtin:example"; p_recipe_title := Some "Example";
     p_feed_title := Some "Tech"; p_article_title := Some "Hello";
     p_article_url := Some "http://ex.com/hello"; p_article_guid := None;
     p_author := None; p_summary := None; p_published := None;
     p_fetched_at := Some fetched_at; p_content_html := Some EmptyString;
     p_content_text := Some EmptyString; p_content_hash := None;
     p_fingerprint := "2cf24dba5fb0a30e" |}.

(** ** utils.py: [html_to_text] *)

(** The last character of a string, if any. *)
Fixpoint last_char (s : string) : option ascii :=
  match s with
  | EmptyString => None
  | String c rest =>
      match last_char rest with
      | None => Some c
      | found => found
      end
  end.

(** [text.split()]: the maximal runs of characters that are not
    whitespace, in order; [word] is the run being read. *)
Fixpoint split_from (text word : string) : list string :=
  match text with
  | EmptyString => if PyStr.is_empty word then [] else [word]
  | String c rest =>
      if PyStr.isspace c then
        if PyStr.is_empty word then split_from rest EmptyString
        else word :: split_from rest EmptyString
      else split_from rest (word ++ String c EmptyString)
  end.

Definition split (text : string) : list string := split_from text EmptyString.

(** [html_to_text]; [get_text] is what [_HTMLTextExtractor] collects from
    the markup through the library's [HTMLParser]: the concatenation of
    its data events. *)
Definition html_to_text (get_text : string -> string) (html_src : string) : string :=
  String.concat " " (split (get_text html_src)).

(** A word of [split]: not empty and free of whitespace. *)
Definition is_word (w : string) : Prop :=
  w <> EmptyString /\ PyStr.all_chars (fun c => negb (PyStr.isspace c)) w = true.

Definition not_space (c : ascii) : bool := negb (PyStr.isspace c).

(** ** Predicates on trees and environments used by the theorems *)

(** A byte-string literal occurs in the expression. *)
Fixpoint has_bytes (e : expr) : bool :=
  match e with
  | Constant (CBytes _) => true
  | Constant _ | Name _ | OtherExpr => false
  | Tuple elts | List elts | JoinedStr elts => existsb has_bytes elts
  | BinOp l _ r => has_bytes l || has_bytes r
  | FormattedValue v | Attribute v _ => has_bytes v
  | Call func args keywords =>
      has_bytes func || existsb has_bytes args
      || existsb (fun kw => has_bytes (snd kw)) keywords
  end.

(** A byte-string literal occurs in an expression that the walkers may
    fold: the right-hand side of an assignment, also inside a class. *)
Fixpoint stmt_has_bytes (s : stmt) : bool :=
  match s with
  | Assign _ value => has_bytes value
  | AnnAssign _ (Some value) => has_bytes value
  | AnnAssign _ None => false
  | AugAssign _ _ value => has_bytes value
  | ClassDef _ _ body => existsb stmt_has_bytes body
  | OtherStmt => false
  end.

Definition is_bytes (v : value) : bool :=
  match v with VBytes _ => true | _ => false end.

(** No name of the environment is bound to a byte-string. *)
Definition env_no_bytes (d : dict) : bool :=
  forallb (fun kv => negb (is_bytes (snd kv))) d.

(** The test [_find_recipe_class] makes on a top-level statement. *)
Definition is_recipe_class (node : stmt) : bool :=
  match node with
  | ClassDef _ bases _ => existsb _is_recipe_base bases
  | _ => false
  end.

(** The names a body assigns with a plain, annotated or augmented
    assignment to a single name. *)
Definition assigned_name (s : stmt) : option string :=
  match s with
  | Assign [Name id] _ => Some id
  | AnnAssign (Name id) _ => Some id
  | AugAssign (Name id) _ _ => Some id
  | _ => None
  end.

(** ** db.py: [upsert_endpoint], [upsert_recipe], [record_run] *)

Section Upsert.
Context {row : Type} (same_key : row -> bool) (update : row -> row) (fresh : row).

(** INSERT ... ON CONFLICT(key) DO UPDATE: the row holding the key is
    updated in place, or the fresh row is appended. *)
Fixpoint upsert_row (table : list row) : list row :=
  match table with
  | [] => [fresh]
  | r :: rest => if same_key r then update r :: rest else r :: upsert_row rest
  end.
End Upsert.

(** What [urlsplit] returns, as far as [upsert_endpoint] reads it. *)
Record url_parts := {
  scheme : string;
  netloc : string;
  path : string;
  query : string
}.

(** A row of [endpoints]. *)
Record endpoint_row := {
  ep_id : Z;
  ep_url : string;
  ep_url_type : string;
  ep_scheme : string;
  ep_domain : string;
  ep_path : string;
  ep_query : string
}.

Definition set_url_type (url_type : string) (r : endpoint_row) : endpoint_row :=
  {| ep_id := ep_id r; ep_url := ep_url r; ep_url_type := url_type;
     ep_scheme := ep_scheme r; ep_domain := ep_domain r; ep_path := ep_path r;
     ep_query := ep_query r |}.

(** The key a table gives to a row inserted without [id]. *)
Definition fresh_id (ids : list Z) : Z := fold_right Z.max 0%Z ids + 1.

(** SELECT id ... WHERE key = ?, [fetchone], [int(row[0])]: subscripting
    the [None] of an empty result raises [TypeError]. *)
Definition select_id {row : Type} (same_key : row -> bool) (id_of : row -> Z)
    (table : list row) : result Z :=
  match find same_key table with
  | Some r => Ok (id_of r)
  | None => Raise TypeError
  end.

(** [upsert_endpoint]; [conn] is the [endpoints] table, [urlsplit] the
    library function, which gives [None] where it raises [ValueError] (as
    it does on a host with an unclosed bracket): that is before anything is
    written. *)
Definition upsert_endpoint (urlsplit : string -> option url_parts)
    (conn : list endpoint_row) (url url_type : string) : list endpoint_row * result Z :=
  match urlsplit url with
  | None => (conn, Raise ValueError)
  | Some parts =>
      let has_url := fun r => String.eqb (ep_url r) url in
      let conn' :=
        upsert_row has_url (set_url_type url_type)
          {| ep_id := fresh_id (map ep_id conn); ep_url := url; ep_url_type := url_type;
             ep_scheme := scheme parts; ep_domain := netloc parts; ep_path := path parts;
             ep_query := query parts |} conn in
      (conn', select_id has_url ep_id conn')
  end.

(** The payload [extract_sources.main] hands to [upsert_recipe]: the
    thirteen columns other than [id]. *)
Record recipe_payload := {
  r_recipe_uid : string;
  r_title : option string;
  r_author : option string;
  r_description : option string;
  r_language : option string;
  r_publication_type : option string;
  r_needs_subscription : option string;
  r_class_name : option string;
  r_file_path : option string;
  r_file_sha256 : option string;
  r_parse_status : option string;
  r_parse_error : option string;
  r_last_parsed : option string
}.

(** A row of [recipes]. *)
Record recipe_row := {
  rec_id : Z;
  rec_fields : recipe_payload
}.

(** [upsert_recipe] for that payload: on a conflict on [recipe_uid] every
    other column of the payload replaces the stored one. *)
Definition upsert_recipe (conn : list recipe_row) (payload : recipe_payload)
  : list recipe_row * result Z :=
  let has_uid := fun r => String.eqb (r_recipe_uid (rec_fields r)) (r_recipe_uid payload) in
  let conn' :=
    upsert_row has_uid (fun r => {| rec_id := rec_id r; rec_fields := payload |})
      {| rec_id := fresh_id (map rec_id conn); rec_fields := payload |} conn in
  (conn', select_id has_uid rec_id conn').

(** ** extract_sources.py: storing the hits of one recipe *)

(** The two tables of [sources.db] that the loop over the hits writes. *)
Record sources_db := {
  db_endpoints : list endpoint_row;
  db_links : list link_row
}.

(** The [raw_url] of a hit as the column stores it: the extractors set it
    to a string or, for a bare feeds entry, possibly a byte-string, which is
    kept here as the string of its bytes. *)
Definition raw_url_column (raw : option value) : option string :=
  match raw with
  | Some (VStr s) => Some s
  | Some (VBytes b) => Some (string_of_list_byte b)
  | _ => None
  end.

Section StoreHits.
Variable urlsplit : string -> option url_parts.
(** [now n] is the n-th reading of [now_utc_iso()]. *)
Variable now : nat -> string.
Variable recipe_id : Z.

(** The body of the loop over [hits] in [main]; the state is the database
    and the number of clock readings made so far. *)
Definition store_hit (st : sources_db * nat) (hit : EndpointHit)
  : result (sources_db * nat) :=
  let (db, tick) := st in
  match truthy (normalize_url (url hit)) with
  | None => Ok st
  | Some u =>
      let ty := if PyStr.is_empty (url_type hit)
                then classify_url u (Some (source hit)) None
                else url_type hit in
      let (eps, rid) := upsert_endpoint urlsplit (db_endpoints db) u ty in
      endpoint_id <- rid ;;
      Ok ({| db_endpoints := eps;
             db_links :=
               link_recipe_endpoint (now tick) (db_links db) recipe_id endpoint_id
                 (source hit) (context hit) (feed_title hit)
                 (raw_url_column (raw_url hit)) (confidence hit) |},
          S tick)
  end.

Fixpoint store_hits (st : sources_db * nat) (hits : list EndpointHit)
  : result (sources_db * nat) :=
  match hits with
  | [] => Ok st
  | hit :: rest => st' <- store_hit st hit ;; store_hits st' rest
  end.
End StoreHits.

(** Every link points to a stored endpoint. *)
Definition links_resolve (db : sources_db) : Prop :=
  forall l, In l (db_links db) ->
            exists e, In e (db_endpoints db) /\ ep_id e = l_endpoint_id l.

(** A recipe payload for the examples. *)
Definition example_recipe (parse_status : string) : recipe_payload :=
  {| r_recipe_uid := "builtin:example"; r_title := Some "Example"; r_author := None;
     r_description := None; r_language := Some "en"; r_publication_type := None;
     r_needs_subscription := None; r_class_name := Some "Example";
     r_file_path := Some "recipes/example.recipe"; r_file_sha256 := Some "2cf24dba";
     r_parse_status := Some parse_status; r_parse_error := None;
     r_last_parsed := Some "2026-01-01" |}.

(** A stand-in for [urlsplit] in the examples: it raises on a URL with an
    opening bracket and no closing one, as the library does on such a
    host; the parts it gives are right for the two URLs of the examples. *)
Definition bracket_urlsplit (u : string) : option url_parts :=
  if PyStr.contains "[" u && negb (PyStr.contains "]" u) then None
  else if String.eqb u "http://ex.com/a.rss"
       then Some {| scheme := "http"; netloc := "ex.com"; path := "/a.rss";
                    query := EmptyString |}
       else Some {| scheme := "http"; netloc := "[::1]"; path := "/feed.rss";
                    query := EmptyString |}.

(** ** fetch_news.py: fingerprints, the recipe filter and the RSS mode *)

(** [p or ""] for an optional string. *)
Definition or_empty (p : option string) : string :=
  match p with Some s => s | None => EmptyString end.

(** [_fingerprint]; [sha256_hex] is the hex digest [_hash_text] takes of
    the encoded text. *)
Definition _fingerprint (sha256_hex : string -> string) (parts : list (option string))
  : string :=
  sha256_hex (String.concat "|" (map or_empty parts)).

(** [s.split(sep)] for a one-character separator; [piece] is the piece
    being read. *)
Fixpoint split_on (sep : ascii) (s piece : string) : list string :=
  match s with
  | EmptyString => [piece]
  | String c rest =>
      if Ascii.eqb c sep then piece :: split_on sep rest EmptyString
      else split_on sep rest (piece ++ String c EmptyString)
  end.

(** [_parse_recipe_filter]; the set it returns is kept as a list without
    repetitions, whose order means nothing. *)
Definition _parse_recipe_filter (value : option string) : option (list string) :=
  match value with
  | None => None
  | Some v =>
      if PyStr.is_empty v then None
      else Some (nodup string_dec
                   (filter (fun x => negb (PyStr.is_empty x))
                      (map PyStr.strip (split_on "," v EmptyString))))
  end.

(** [recipe_filter and recipe_uid not in recipe_filter]: the test under
    which both modes skip a recipe. *)
Definition skipped (recipe_filter : option (list string)) (recipe_uid : string) : bool :=
  match recipe_filter with
  | Some (first :: others) => negb (existsb (String.eqb recipe_uid) (first :: others))
  | _ => false
  end.

(** A row of [_load_feed_endpoints], as far as the RSS mode reads it. *)
Record feed_row := {
  fr_recipe_title : option string;
  fr_url : string;
  fr_feed_title : option string
}.

(** What fetching a feed URL and handing the bytes to [ET.fromstring]
    gives: a root or the parser's [ParseError], or any other exception
    raised on the way, with the name of its type and its text. *)
Inductive fetch_outcome :=
| Fetched (parsed : xml_outcome)
| FetchFailed (type_name msg : string).

(** A row of [runs]. *)
Record run_row := {
  run_id : Z;
  run_recipe_uid : string;
  run_started_at : string;
  run_finished_at : string;
  run_status : string;
  run_error : option string;
  run_article_count : Z
}.

(** [record_run]: a plain INSERT. *)
Definition record_run (conn : list run_row) (recipe_uid status started_at finished_at : string)
    (error : option string) (article_count : Z) : list run_row :=
  (conn ++ [{| run_id := fresh_id (map run_id conn); run_recipe_uid := recipe_uid;
               run_started_at := started_at; run_finished_at := finished_at;
               run_status := status; run_error := error;
               run_article_count := article_count |}])%list.

(** The text the [except] clauses record for an exception: the name of
    its type, a colon and its message (only a [ParseError] carries one
    here). *)
Definition exception_text (e : pyexn) : string :=
  match e with
  | ParseError msg => "ParseError: " ++ msg
  | TypeError => "TypeError: "
  | ValueError => "ValueError: "
  | MemoryError => "MemoryError: "
  | RecursionError => "RecursionError: "
  end.

(** [entry.get(content) or entry.get(summary) or] the empty string: the
    markup of an entry. *)
Definition entry_html (entry : feed_entry) : string :=
  or_empty (or_else (e_content entry) (e_summary entry)).

(** What the call of [html_to_text] in the entry loop raises, if anything:
    [html_error markup] is the text that the [except] clause records (type
    name and message) when the library's [HTMLParser] raises on [markup],
    as it does on some malformed declarations.  The call is only made on a
    markup that is not empty. *)
Definition entry_error (html_error : string -> option string) (entry : feed_entry)
  : option string :=
  if PyStr.is_empty (entry_html entry) then None else html_error (entry_html entry).

Section RssMode.
Variable sha256_hex : string -> string.
Variable get_text : string -> string.
Variable html_error : string -> option string.
Variable fetch : string -> fetch_outcome.
(** [now n] is the n-th reading of [now_utc_iso()]. *)
Variable now : nat -> string.
Variable max_articles : Z.

(** The payload the RSS mode builds for one entry. *)
Definition rss_article (recipe_uid : string) (feed : feed_row) (feed_title : option string)
    (entry : feed_entry) (fetched_at : string) : article_payload :=
  let html_src := or_empty (or_else (e_content entry) (e_summary entry)) in
  {| p_recipe_uid := recipe_uid;
     p_recipe_title := fr_recipe_title feed;
     p_feed_title := feed_title;
     p_article_title := e_title entry;
     p_article_url := e_link entry;
     p_article_guid := e_guid entry;
     p_author := None;
     p_summary := e_summary entry;
     p_published := e_published entry;
     p_fetched_at := Some fetched_at;
     p_content_html := Some html_src;
     p_content_text := Some (if PyStr.is_empty html_src then EmptyString
                             else html_to_text get_text html_src);
     p_content_hash := (if PyStr.is_empty html_src then None
                        else Some (sha256_hex html_src));
     p_fingerprint := _fingerprint sha256_hex
                        [Some recipe_uid; e_link entry; e_title entry; e_published entry] |}.

(** The state of a fetch pass over one recipe: the [articles] table, the
    number of clock readings so far, and [article_count]. *)
Definition pass_state := (list article_row * nat * Z)%type.

(** The loop over the entries of one feed, from index [idx] on: the state
    it reaches and, when an entry's markup made [html_to_text] raise, the
    text of that exception.  The articles inserted and counted before stay:
    nothing is rolled back. *)
Fixpoint store_entries (recipe_uid : string) (feed : feed_row) (feed_title : option string)
    (idx : nat) (entries : list feed_entry) (st : pass_state)
  : pass_state * option string :=
  match entries with
  | [] => (st, None)
  | entry :: rest =>
      if (max_articles <=? Z.of_nat idx)%Z then (st, None)
      else
        match entry_error html_error entry with
        | Some text => (st, Some text)
        | None =>
            let '(articles, tick, count) := st in
            store_entries recipe_uid feed feed_title (S idx) rest
              (_insert_article articles
                 (rss_article recipe_uid feed feed_title entry (now tick)),
               S tick, (count + 1)%Z)
        end
  end.

(** The body of the [try] for one feed: the state it leaves and the text
    of the exception that the [except] clause records, if one was raised. *)
Definition fetch_feed (recipe_uid : string) (feed : feed_row) (st : pass_state)
  : pass_state * option string :=
  match fetch (fr_url feed) with
  | FetchFailed type_name msg => (st, Some (type_name ++ ": " ++ msg))
  | Fetched parsed =>
      match parse_feed parsed with
      | Raise e => (st, Some (exception_text e))
      | Ok (parsed_title, entries) =>
          let feed_title := match parsed_title with
                            | None => fr_feed_title feed
                            | Some _ => parsed_title
                            end in
          store_entries recipe_uid feed feed_title 0 entries st
      end
  end.

(** The loop over the feeds of a recipe, with [status] and [error]. *)
Fixpoint fetch_feeds (recipe_uid : string) (feeds : list feed_row)
    (st : pass_state) (status : string) (error : option string)
  : pass_state * string * option string :=
  match feeds with
  | [] => (st, status, error)
  | feed :: rest =>
      match fetch_feed recipe_uid feed st with
      | (st', None) => fetch_feeds recipe_uid rest st' status error
      | (st', Some text) => fetch_feeds recipe_uid rest st' "error" (Some text)
      end
  end.

(** The news database and the clock. *)
Record news_db := {
  news_articles : list article_row;
  news_runs : list run_row;
  news_tick : nat
}.

(** The body of the loop of [_run_rss_mode] for one recipe that is not
    skipped. *)
Definition run_rss_recipe (db : news_db) (recipe_uid : string) (feeds : list feed_row)
  : news_db :=
  let started_at := now (news_tick db) in
  let '(articles, tick, count, status, error) :=
    fetch_feeds recipe_uid feeds (news_articles db, S (news_tick db), 0%Z) "ok" None in
  let finished_at := now tick in
  {| news_articles := articles;
     news_runs := record_run (news_runs db) recipe_uid status started_at finished_at
                    error count;
     news_tick := S tick |}.

(** [_run_rss_mode]; [feed_map] is what [_load_feed_endpoints] returned. *)
Fixpoint _run_rss_mode (db : news_db) (feed_map : list (string * list feed_row))
    (recipe_filter : option (list string)) : news_db :=
  match feed_map with
  | [] => db
  | (recipe_uid, feeds) :: rest =>
      if skipped recipe_filter recipe_uid then _run_rss_mode db rest recipe_filter
      else _run_rss_mode (run_rss_recipe db recipe_uid feeds) rest recipe_filter
  end.
End RssMode.

(** The [articles] table of a pass state. *)
Definition table_of (st : pass_state) : list article_row := fst (fst st).

(** The feed cannot be used: fetching it fails or its payload does not
    parse. *)
Definition feed_fails (fetch : string -> fetch_outcome) (feed : feed_row) : bool :=
  match fetch (fr_url feed) with
  | FetchFailed _ _ => true
  | Fetched (XmlError _) => true
  | Fetched (XmlRoot _) => false
  end.

(** The feed is fetched and parsed, and the entry loop is left by an
    exception: one of the entries it visits has a markup that makes
    [html_to_text] raise. *)
Definition feed_breaks (html_error : string -> option string)
    (fetch : string -> fetch_outcome) (max_articles : Z) (feed : feed_row) : bool :=
  match fetch (fr_url feed) with
  | Fetched (XmlRoot root) =>
      existsb (fun entry => match entry_error html_error entry with
                            | Some _ => true
                            | None => false
                            end)
        (firstn (Z.to_nat max_articles) (snd (feed_of_root root)))
  | _ => false
  end.

(** The URL of the hit, normalized once more as the store loop does, is
    one that [urlsplit] accepts (or the hit is passed over). *)
Definition url_accepted (urlsplit : string -> option url_parts) (hit : EndpointHit)
  : bool :=
  match truthy (normalize_url (url hit)) with
  | Some u => match urlsplit u with Some _ => true | None => false end
  | None => true
  end.

(** ** Predicates on elements used by the theorems *)

Definition not_brace (c : ascii) : bool := negb (Ascii.eqb c "}").

(** The test of the Atom link loop: the [rel] attribute is alternate, or
    missing. *)
Definition is_alternate (link_el : Element) : bool :=
  String.eqb (match attr_get (attrib_of link_el) "rel" with
              | Some r => r
              | None => "alternate"
              end) "alternate".

(** The tag is namespace-qualified: it starts with an opening brace. *)
Definition is_qualified (tag : string) : bool :=
  match tag with
  | String c _ => Ascii.eqb c "{"
  | EmptyString => false
  end.

(** Two entries of a feed whose links and titles differ and collide. *)
Definition colliding_entry_1 : feed_entry :=
  {| e_title := Some "news"; e_link := Some "http://ex.com/a|b"; e_guid := None;
     e_published := None; e_summary := None; e_content := None |}.

Definition colliding_entry_2 : feed_entry :=
  {| e_title := Some "b|news"; e_link := Some "http://ex.com/a"; e_guid := None;
     e_published := None; e_summary := None; e_content := None |}.

(** * Theorems *)

(** ** Facts about the string primitives *)

Module PyStrFacts.
Import PyStr.

Lemma append_empty_r (s : string) : s ++ EmptyString = s.
Proof. induction s as [|c s IH]; simpl; [reflexivity | now rewrite IH]. Qed.

Lemma append_assoc (a b c : string) : (a ++ b) ++ c = a ++ b ++ c.
Proof. induction a as [|x a IH]; simpl; [reflexivity | now rewrite IH]. Qed.

Lemma append_is_empty (a b : string) : a ++ b = EmptyString -> a = EmptyString /\ b = EmptyString.
Proof. destruct a; simpl; [auto | discriminate]. Qed.

Lemma all_chars_append p (a b : string) :
  all_chars p (a ++ b) = all_chars p a && all_chars p b.
Proof.
  induction a as [|c a IH]; simpl; [reflexivity|].
  now rewrite IH, andb_assoc.
Qed.

(** [lstrip]: the removed prefix lies in the class and what is left does
    not start in it. *)
Lemma lstrip_by_split p (s : string) :
  exists pre, s = pre ++ lstrip_by p s
              /\ all_chars p pre = true
              /\ head_outside p (lstrip_by p s).
Proof.
  induction s as [|c s (pre & Hs & Hpre & Hout)]; simpl.
  - exists EmptyString. repeat split. intros ? ? E. discriminate E.
  - destruct (p c) eqn:Hc.
    + exists (String c pre). simpl. rewrite Hc, Hpre. repeat split; trivial.
      now rewrite <- Hs.
    + exists EmptyString. repeat split. intros ? ? E. now inversion E; subst.
Qed.

Lemma rstrip_by_head p (s : string) c kept :
  rstrip_by p s = String c kept -> exists rest, s = String c rest.
Proof.
  destruct s as [|d s]; simpl; [discriminate|].
  destruct (rstrip_by p s); [destruct (p d)|]; intros E; inversion E; subst; eauto.
Qed.

Lemma last_outside_cons p c (s : string) :
  s <> EmptyString -> last_outside p s -> last_outside p (String c s).
Proof.
  intros Hne H front d E. destruct front as [|x front]; simpl in E.
  - inversion E; subst. now elim Hne.
  - inversion E; subst. eapply H. reflexivity.
Qed.

(** [rstrip]: the removed suffix lies in the class and what is left does
    not end in it. *)
Lemma rstrip_by_split p (s : string) :
  exists suf, s = rstrip_by p s ++ suf
              /\ all_chars p suf = true
              /\ last_outside p (rstrip_by p s).
Proof.
  induction s as [|c s (suf & Hs & Hsuf & Hout)]; simpl.
  - exists EmptyString. repeat split. intros [|? ?] ? E; discriminate E.
  - destruct (rstrip_by p s) as [|d kept] eqn:Hk.
    + simpl in Hs. subst suf. destruct (p c) eqn:Hc.
      * exists (String c s). simpl. rewrite Hc, Hsuf. repeat split.
        intros [|? ?] ? E; discriminate E.
      * exists s. repeat split; trivial.
        intros [|x front] e E; simpl in E; inversion E; subst; trivial.
        destruct front; discriminate.
    + exists suf. repeat split; trivial.
      * simpl. f_equal. exact Hs.
      * apply last_outside_cons; [discriminate | exact Hout].
Qed.

(** [strip]: both ends at once. *)
Lemma strip_by_split p (s : string) :
  exists pre suf, s = pre ++ strip_by p s ++ suf
                  /\ all_chars p pre = true /\ all_chars p suf = true
                  /\ head_outside p (strip_by p s)
                  /\ last_outside p (strip_by p s).
Proof.
  unfold strip_by.
  destruct (lstrip_by_split p s) as (pre & Hs & Hpre & Hhead).
  destruct (rstrip_by_split p (lstrip_by p s)) as (suf & Ht & Hsuf & Hlast).
  exists pre, suf. repeat split; trivial.
  - now rewrite <- Ht.
  - intros c rest E. apply rstrip_by_head in E as (rest' & E').
    eapply Hhead. exact E'.
Qed.

Lemma startswith_iff (p s : string) :
  startswith p s = true <-> exists rest, s = p ++ rest.
Proof.
  revert s. induction p as [|a p IH]; intros s; simpl.
  - split; eauto.
  - destruct s as [|b s].
    + split; [discriminate | intros (? & E); discriminate E].
    + rewrite andb_true_iff, IH. split.
      * intros (Hab & rest & ->). apply Ascii.eqb_eq in Hab. subst. eauto.
      * intros (rest & E). inversion E; subst. split; eauto. apply Ascii.eqb_refl.
Qed.

Lemma slice_from_append (p rest : string) :
  slice_from (String.length p) (p ++ rest) = rest.
Proof. induction p; simpl; trivial. Qed.

Lemma contains_unfold needle c (hay : string) :
  contains needle (String c hay) = startswith needle (String c hay) || contains needle hay.
Proof. reflexivity. Qed.

(** [in] decides occurrence as a substring. *)
Lemma contains_iff (needle hay : string) :
  contains needle hay = true <-> Occurs needle hay.
Proof.
  split.
  - induction hay as [|c hay IH].
    + simpl. rewrite orb_false_r. intros H. apply startswith_iff in H as (rest & E).
      exists EmptyString, rest. exact E.
    + rewrite contains_unfold, orb_true_iff. intros [H | H].
      * apply startswith_iff in H as (rest & E). exists EmptyString, rest. exact E.
      * destruct (IH H) as (pre & post & ->). exists (String c pre), post. reflexivity.
  - intros (pre & post & ->). induction pre as [|c pre IH].
    + simpl. assert (H : startswith needle (needle ++ post) = true)
        by (apply startswith_iff; eauto).
      destruct (needle ++ post); simpl; rewrite H; reflexivity.
    + simpl String.append. rewrite contains_unfold, IH. apply orb_true_r.
Qed.

Lemma contains_false_iff (needle hay : string) :
  contains needle hay = false <-> ~ Occurs needle hay.
Proof.
  rewrite <- contains_iff. destruct (contains needle hay); split; intros; congruence.
Qed.

Lemma lower_append (a b : string) : lower (a ++ b) = lower a ++ lower b.
Proof. induction a as [|c a IH]; simpl; [reflexivity | now rewrite IH]. Qed.

(** Lower-casing keeps an occurrence of a needle that is already lower
    case. *)
Lemma occurs_lower (needle hay : string) :
  lower needle = needle -> Occurs needle hay -> Occurs needle (lower hay).
Proof.
  intros Hn (pre & post & ->). exists (lower pre), (lower post).
  now rewrite !lower_append, Hn.
Qed.

Lemma is_empty_iff (s : string) : is_empty s = true <-> s = EmptyString.
Proof. destruct s; simpl; split; congruence. Qed.

End PyStrFacts.

(** ** utils.py: normalizer and classifier *)

Import PyStr PyStrFacts.

Lemma lower_feed_markers : forall m, In m feed_markers -> lower m = m.
Proof. intros m H. simpl in H. intuition (subst; reflexivity). Qed.

Lemma markers_hit_iff (u : string) :
  existsb (fun x => contains x u) feed_markers = true
  <-> exists m, In m feed_markers /\ Occurs m u.
Proof.
  rewrite existsb_exists. split; intros (m & Hin & H); exists m; split; trivial;
    now apply contains_iff.
Qed.

Lemma attr_names_feed_iff (attr_name : option string) :
  attr_names_feed attr_name = true
  <-> exists a, attr_name = Some a /\ Occurs "feed" (lower a).
Proof.
  unfold attr_names_feed. destruct attr_name as [a|].
  - rewrite andb_true_iff, contains_iff. split.
    + intros (_ & H). eauto.
    + intros (a' & E & H). inversion E; subst. split; trivial.
      destruct a'; trivial. destruct H as ([|? ?] & ? & E'); discriminate E'.
  - split; [discriminate | intros (? & E & _); discriminate E].
Qed.

Lemma str_is_iff expected (s : option string) :
  str_is expected s = true <-> s = Some expected.
Proof.
  destruct s as [x|]; simpl; [|split; discriminate].
  rewrite String.eqb_eq. split; congruence.
Qed.

(** C8. For every raw string [normalize_url] first trims whitespace and then
    the surrounding quote characters; when nothing is left it yields none;
    otherwise it strips the trailing closing brackets, periods, commas,
    semicolons, quotes and spaces and returns what remains, with a leading
    feed:// scheme rewritten to http:// and the remainder kept. The raw
    string splits accordingly into whitespace, quotes, the kept core, the
    stripped trailing characters, quotes and whitespace. In particular
    feed://x.com/rss becomes http://x.com/rss. *)
Theorem normalize_url_spec (raw : string) :
  (exists ws1 q1 core trail q2 ws2,
      raw = ws1 ++ (q1 ++ (core ++ trail) ++ q2) ++ ws2
      /\ all_chars isspace ws1 = true /\ all_chars isspace ws2 = true
      /\ head_outside isspace (q1 ++ (core ++ trail) ++ q2)
      /\ last_outside isspace (q1 ++ (core ++ trail) ++ q2)
      /\ all_chars (char_in quote_chars) q1 = true
      /\ all_chars (char_in quote_chars) q2 = true
      /\ head_outside (char_in quote_chars) (core ++ trail)
      /\ last_outside (char_in quote_chars) (core ++ trail)
      /\ all_chars (char_in trailing_chars) trail = true
      /\ last_outside (char_in trailing_chars) core
      /\ (core ++ trail = EmptyString -> normalize_url raw = None)
      /\ (core ++ trail <> EmptyString ->
          (forall rest, core = "feed://" ++ rest ->
                        normalize_url raw = Some ("http://" ++ rest))
          /\ ((forall rest, core <> "feed://" ++ rest) ->
              normalize_url raw = Some core)))
  /\ normalize_url "feed://x.com/rss" = Some "http://x.com/rss".
Proof.
  split; [|reflexivity].
  unfold normalize_url, strip, strip_chars, rstrip_chars.
  destruct (strip_by_split isspace raw) as (ws1 & ws2 & Hraw & Hws1 & Hws2 & Hh1 & Hl1).
  set (mid := strip_by isspace raw) in *.
  destruct (strip_by_split (char_in quote_chars) mid)
    as (q1 & q2 & Hmid & Hq1 & Hq2 & Hh2 & Hl2).
  set (t := strip_by (char_in quote_chars) mid) in *.
  destruct (rstrip_by_split (char_in trailing_chars) t) as (trail & Ht & Htrail & Hl3).
  set (core := rstrip_by (char_in trailing_chars) t) in *.
  exists ws1, q1, core, trail, q2, ws2.
  rewrite <- Ht, <- Hmid, <- Hraw.
  repeat (split; [assumption || reflexivity|]).
  split.
  - intros E. now rewrite E.
  - intros Hne. destruct t as [|c t']; [now elim Hne|]. simpl is_empty. cbv iota.
    split.
    + intros rest E. rewrite E.
      assert (H : startswith "feed://" ("feed://" ++ rest) = true)
        by (apply startswith_iff; eauto).
      rewrite H. now rewrite slice_from_append.
    + intros Hno. destruct (startswith "feed://" core) eqn:H; trivial.
      apply startswith_iff in H as (rest & E). now elim (Hno rest).
Qed.

(** C9. [classify_url] is a function of its three arguments and its rules
    apply first match first: source feeds, or an attribute name in which
    feed occurs (compared in lower case), gives feed whatever the URL looks
    like; otherwise a lower-cased URL in which /rss, .rss, /atom, .atom or
    .xml occurs gives feed; otherwise one in which /api/, .json or api.
    occurs gives api; otherwise html. The three sample URLs classify as
    feed, api and html. *)
Theorem classify_url_rules (u : string) (src attr_name : option string) :
  let rule1 := src = Some "feeds"
               \/ exists a, attr_name = Some a /\ Occurs "feed" (lower a) in
  let rule2 := exists m, In m feed_markers /\ Occurs m (lower u) in
  let rule3 := Occurs "/api/" (lower u) \/ Occurs ".json" (lower u)
               \/ Occurs "api." (lower u) in
  (rule1 -> classify_url u src attr_name = "feed")
  /\ ((exists a, attr_name = Some a /\ Occurs "feed" a) ->
      classify_url u src attr_name = "feed")
  /\ (~ rule1 -> rule2 -> classify_url u src attr_name = "feed")
  /\ (~ rule1 -> ~ rule2 -> rule3 -> classify_url u src attr_name = "api")
  /\ (~ rule1 -> ~ rule2 -> ~ rule3 -> classify_url u src attr_name = "html")
  /\ classify_url "https://example.com/feed.rss" None None = "feed"
  /\ classify_url "https://example.com/api/v2/items.json" None None = "api"
  /\ classify_url "https://example.com/index.html" None None = "html".
Proof.
  intros rule1 rule2 rule3.
  assert (H1 : str_is "feeds" src || attr_names_feed attr_name = true <-> rule1).
  { rewrite orb_true_iff, str_is_iff, attr_names_feed_iff. reflexivity. }
  assert (H2 : existsb (fun x => contains x (lower u)) feed_markers = true <-> rule2)
    by apply markers_hit_iff.
  assert (H3 : contains "/api/" (lower u) || contains ".json" (lower u)
               || contains "api." (lower u) = true <-> rule3).
  { rewrite !orb_true_iff, !contains_iff. unfold rule3. tauto. }
  unfold classify_url.
  destruct (str_is "feeds" src || attr_names_feed attr_name);
    destruct (existsb (fun x => contains x (lower u)) feed_markers);
    destruct (contains "/api/" (lower u) || contains ".json" (lower u)
              || contains "api." (lower u));
    repeat split; trivial; intros;
    try (exfalso; intuition congruence);
    try match goal with
        | H : exists a, _ /\ Occurs "feed" a |- _ =>
            destruct H as (a & Ha & Hocc);
            assert (rule1) by (right; exists a; split;
                               [exact Ha | apply occurs_lower; [reflexivity | exact Hocc]]);
            exfalso; intuition congruence
        end.
Qed.

(** ** recipe_parser.py: the constant folder *)

Lemma dict_get_set_same (d : dict) k v : dict_get (dict_set d k v) k = Some v.
Proof.
  induction d as [|[k' v'] d IH]; simpl.
  - now rewrite String.eqb_refl.
  - destruct (String.eqb k' k) eqn:E; simpl; rewrite E; trivial.
Qed.

Lemma get_set_same (d : dict) k v : get (dict_set d k v) k = v.
Proof. unfold get. now rewrite dict_get_set_same. Qed.

(** The folder on the samples of the specification: two strings and two
    lists concatenate, an undefined name and an unsupported call give
    [None]. *)
Example fold_samples (B : builtins) :
  _eval_node B (BinOp (Constant (CStr "a")) Add (Constant (CStr "b"))) [] = Ok (VStr "ab")
  /\ _eval_node B (BinOp (List [Constant (CStr "a")]) Add (List [Constant (CStr "b")])) []
     = Ok (VList [VStr "a"; VStr "b"])
  /\ _eval_node B (Name "undefined") [] = Ok VNone
  /\ _eval_node B (Call (Name "open") [Constant (CStr "f")] []) [] = Ok VNone.
Proof. repeat split. Qed.

(** What the addition case does with two folded operands: equal kinds of
    text or two lists concatenate, a string with a byte-string raises, and
    anything else is [None]. *)
Lemma eval_add_cases (B : builtins) l r constants vl vr :
  _eval_node B l constants = Ok vl ->
  _eval_node B r constants = Ok vr ->
  _eval_node B (BinOp l Add r) constants =
  match vl, vr with
  | VStr a, VStr b => Ok (VStr (a ++ b))
  | VBytes a, VBytes b => Ok (VBytes (a ++ b)%list)
  | VList a, VList b => Ok (VList (a ++ b)%list)
  | VStr _, VBytes _ | VBytes _, VStr _ => Raise TypeError
  | _, _ => Ok VNone
  end.
Proof.
  intros Hl Hr. simpl. rewrite Hl, Hr. simpl.
  destruct vl, vr; reflexivity.
Qed.

(** Induction on expressions with the hypotheses for the children held in
    lists. *)
Section ExprInd.
Variable P : expr -> Prop.
Hypothesis HConstant : forall c, P (Constant c).
Hypothesis HName : forall id, P (Name id).
Hypothesis HTuple : forall elts, Forall P elts -> P (Tuple elts).
Hypothesis HList : forall elts, Forall P elts -> P (List elts).
Hypothesis HBinOp : forall l op r, P l -> P r -> P (BinOp l op r).
Hypothesis HJoinedStr : forall values, Forall P values -> P (JoinedStr values).
Hypothesis HFormattedValue : forall v, P v -> P (FormattedValue v).
Hypothesis HAttribute : forall v attr, P v -> P (Attribute v attr).
Hypothesis HCall : forall func args keywords,
    P func -> Forall P args -> Forall (fun kw => P (snd kw)) keywords ->
    P (Call func args keywords).
Hypothesis HOther : P OtherExpr.

Fixpoint expr_children_ind (e : expr) : P e :=
  let all :=
    fix all (l : list expr) : Forall P l :=
      match l with
      | [] => Forall_nil P
      | x :: rest => @Forall_cons _ P x rest (expr_children_ind x) (all rest)
      end in
  match e with
  | Constant c => HConstant c
  | Name id => HName id
  | Tuple elts => HTuple elts (all elts)
  | List elts => HList elts (all elts)
  | BinOp l op r => HBinOp l op r (expr_children_ind l) (expr_children_ind r)
  | JoinedStr values => HJoinedStr values (all values)
  | FormattedValue v => HFormattedValue v (expr_children_ind v)
  | Attribute v attr => HAttribute v attr (expr_children_ind v)
  | Call func args keywords =>
      HCall func args keywords (expr_children_ind func) (all args)
        ((fix all_kw (l : list (option string * expr))
            : Forall (fun kw => P (snd kw)) l :=
            match l with
            | [] => Forall_nil _
            | kw :: rest =>
                @Forall_cons _ (fun kw => P (snd kw)) kw rest
                  (expr_children_ind (snd kw)) (all_kw rest)
            end) keywords)
  | OtherExpr => HOther
  end.
End ExprInd.

Lemma mapM_raise {A C} (f : A -> result C) (l : list A) e :
  mapM f l = Raise e -> exists x, In x l /\ f x = Raise e.
Proof.
  induction l as [|a l IH]; simpl; [discriminate|].
  destruct (f a) eqn:Ha; simpl.
  - destruct (mapM f l); simpl; [discriminate|].
    intros E. destruct (IH E) as (x & Hin & Hx). eauto.
  - intros E. inversion E; subst. eauto.
Qed.

Lemma join_values_raise fold to_str (values : list expr) parts e :
  join_values fold to_str values parts = Raise e ->
  (exists v, In v values /\ fold v = Raise e) \/ (exists val, to_str val = Raise e).
Proof.
  revert parts. induction values as [|v values IH]; intros parts; simpl; [discriminate|].
  destruct (fold v) as [val|e1] eqn:Hv; simpl.
  - destruct (is_none val); [discriminate|].
    destruct (to_str val) as [part|e2] eqn:Hs; simpl.
    + intros E. destruct (IH _ E) as [(x & Hin & Hx) | Hval]; eauto.
    + intros E. inversion E; subst. eauto.
  - intros E. inversion E; subst. eauto.
Qed.

Lemma collect_keywords_raise fold (keywords : list (option string * expr)) acc e :
  collect_keywords fold keywords acc = Raise e ->
  exists kw, In kw keywords /\ fold (snd kw) = Raise e.
Proof.
  revert acc. induction keywords as [|[[arg|] v] kws IH]; intros acc; simpl;
    [discriminate| |].
  - destruct (PyStr.is_empty arg).
    + intros E. destruct (IH _ E) as (x & Hin & Hx). eauto.
    + destruct (fold v) as [val|e1] eqn:Hv; simpl.
      * intros E. destruct (IH _ E) as (x & Hin & Hx). eauto.
      * intros E. inversion E; subst. exists (Some arg, v). auto.
  - intros E. destruct (IH _ E) as (x & Hin & Hx). eauto.
Qed.

(** C1. The folder is not total: the addition of a byte-string and a string
    passes the test on the operand types and the concatenation raises
    [TypeError], also from inside a list literal, whatever the environment. *)
Theorem eval_node_mixed_add_escapes (B : builtins) (constants : dict) :
  _eval_node B (BinOp (Constant (CBytes [Byte.x61])) Add (Constant (CStr "b"))) constants
  = Raise TypeError
  /\ _eval_node B
       (List [Constant (CStr "x");
              BinOp (Constant (CBytes [Byte.x61])) Add (Constant (CStr "b"))]) constants
     = Raise TypeError.
Proof. split; reflexivity. Qed.

(** C2. The addition of a string and a byte-string does not fold to [None]:
    it raises [TypeError]. *)
Theorem eval_node_str_plus_bytes_raises (B : builtins) (constants : dict) :
  _eval_node B (BinOp (Constant (CStr "a")) Add (Constant (CBytes [Byte.x62]))) constants
  = Raise TypeError.
Proof. reflexivity. Qed.

(** ** recipe_parser.py: the class attribute extractor *)

Lemma run_items_app step (xs ys : list stmt) (acc : dict) :
  run_items step (xs ++ ys)%list acc
  = (acc' <- run_items step xs acc ;; run_items step ys acc').
Proof.
  revert acc. induction xs as [|x xs IH]; intros acc; simpl; trivial.
  destruct (step acc x); simpl; trivial.
Qed.

(** The extractor runs [class_item] on the statements of the class body, in
    order, on the attributes collected so far. *)
Lemma extract_class_assignments_last (B : builtins) name bases body item constants :
  _extract_class_assignments B (ClassDef name bases (body ++ [item])%list) constants
  = (assigns <- _extract_class_assignments B (ClassDef name bases body) constants ;;
     class_item B constants assigns item).
Proof.
  unfold _extract_class_assignments. simpl node_body. rewrite run_items_app.
  destruct (run_items (class_item B constants) body []); simpl; trivial.
  destruct (class_item B constants a item); trivial.
Qed.

(** C7, as the code has it. An augmented += assignment to a name whose
    increment folds to a value is applied exactly when the stored value and
    the folded increment are both lists: their concatenation is then stored
    under the name. In every other such case, a name with no stored value
    and tuples included, the attributes are left as they were. *)
Theorem aug_assign_lists_only (B : builtins) (constants assigns : dict)
    (id : string) (increment : expr) (extra : value) :
  _eval_node B increment (dict_union constants assigns) = Ok extra ->
  (forall a b, get assigns id = VList a -> extra = VList b ->
     exists assigns',
       class_item B constants assigns (AugAssign (Name id) Add increment) = Ok assigns'
       /\ assigns' = dict_set assigns id (VList (a ++ b)%list)
       /\ get assigns' id = VList (a ++ b)%list)
  /\ ((forall a, get assigns id <> VList a) \/ (forall b, extra <> VList b) ->
      class_item B constants assigns (AugAssign (Name id) Add increment) = Ok assigns).
Proof.
  intros Hev. split.
  - intros a b Hcur ->. eexists. simpl. rewrite Hev. simpl. rewrite Hcur.
    repeat split. apply get_set_same.
  - intros Hno. simpl. rewrite Hev. simpl.
    destruct (get assigns id) eqn:Hcur; trivial.
    destruct extra; trivial.
    destruct Hno as [Hno | Hno]; [now elim (Hno items) | now elim (Hno items0)].
Qed.

Lemma aug_assign_lists_only_witness :
  _eval_node rejecting_builtins (List [Constant (CStr "b")])
    (dict_union [] [("feeds", VList [VStr "a"])]) = Ok (VList [VStr "b"])
  /\ class_item rejecting_builtins [] [("feeds", VList [VStr "a"])]
       (AugAssign (Name "feeds") Add (List [Constant (CStr "b")]))
     = Ok [("feeds", VList [VStr "a"; VStr "b"])].
Proof.
  split; [reflexivity|].
  destruct (aug_assign_lists_only rejecting_builtins [] [("feeds", VList [VStr "a"])]
              "feeds" (List [Constant (CStr "b")]) (VList [VStr "b"]) eq_refl)
    as [Happlied _].
  destruct (Happlied [VStr "a"] [VStr "b"] eq_refl eq_refl) as (assigns' & Hrun & Heq & _).
  rewrite Hrun, Heq. reflexivity.
Defined.

(** C7, as stated, fails on tuples: with the tuple (a,) stored under x and
    the increment (b,), both sequences, the statement is ignored and no
    concatenation is stored. *)
Lemma aug_assign_tuples_ignored :
  class_item rejecting_builtins [] [("x", VTuple [VStr "a"])]
    (AugAssign (Name "x") Add (Tuple [Constant (CStr "b")]))
  = Ok [("x", VTuple [VStr "a"])]
  /\ get [("x", VTuple [VStr "a"])] "x" <> VTuple [VStr "a"; VStr "b"].
Proof. split; [reflexivity | discriminate]. Qed.

(** ** utils.py: the literal scanner *)

Lemma take_while_split p (s : string) :
  exists rest, s = take_while p s ++ rest /\ all_chars p (take_while p s) = true.
Proof.
  induction s as [|c s (rest & Hs & Hall)]; simpl.
  - exists EmptyString. auto.
  - destruct (p c) eqn:Hc.
    + exists rest. simpl. rewrite Hc, Hall. split; trivial. now rewrite <- Hs.
    + exists (String c s). auto.
Qed.

Lemma match_scheme_sound scheme (s m : string) :
  match_scheme scheme s = Some m ->
  exists body rest, m = scheme ++ body /\ body <> EmptyString
                    /\ all_chars url_char body = true /\ s = m ++ rest.
Proof.
  unfold match_scheme. destruct (startswith scheme s) eqn:Hp; [|discriminate].
  apply startswith_iff in Hp as (r & ->). rewrite slice_from_append.
  destruct (take_while_split url_char r) as (rest & Hr & Hall).
  destruct (take_while url_char r) as [|c body] eqn:Hb; [discriminate|].
  intros E. inversion E; subst; clear E.
  exists (String c body), rest. repeat split; trivial; [discriminate|].
  now rewrite append_assoc.
Qed.

Lemma match_url_sound (s m : string) :
  match_url s = Some m -> url_shaped m /\ exists rest, s = m ++ rest.
Proof.
  unfold match_url, first_some, url_shaped, url_schemes.
  destruct (match_scheme "https://" s) eqn:E1;
    [|destruct (match_scheme "http://" s) eqn:E2];
    intros E; try (inversion E; subst; clear E);
    match goal with
    | H : match_scheme _ s = Some m |- _ =>
        apply match_scheme_sound in H as (body & rest & Hm & Hne & Hall & Hs)
    end;
    (split; [do 2 eexists; repeat split; [|exact Hm|exact Hne|exact Hall]; simpl; auto
            | eauto]).
Qed.

Lemma occurs_cons needle c (hay : string) : Occurs needle hay -> Occurs needle (String c hay).
Proof. intros (pre & post & ->). now exists (String c pre), post. Qed.

(** Every string the scanner returns occurs in the text and is shaped
    like a URL. *)
Lemma find_urls_in_text_sound (text m : string) :
  In m (find_urls_in_text text) -> Occurs m text /\ url_shaped m.
Proof.
  unfold find_urls_in_text. generalize 0 as skip.
  induction text as [|c text IH]; intros skip; simpl; [contradiction|].
  destruct skip as [|k].
  - destruct (match_url (String c text)) as [m'|] eqn:E.
    + intros [<- | Hin].
      * apply match_url_sound in E as (Hshape & rest & Hs). split; trivial.
        exists EmptyString, rest. exact Hs.
      * destruct (IH _ Hin). auto using occurs_cons.
    + intros Hin. destruct (IH _ Hin). auto using occurs_cons.
  - intros Hin. destruct (IH _ Hin). auto using occurs_cons.
Qed.

(** ** recipe_parser.py: [parse_recipe_file] *)

Lemma classify_url_range u src attr_name :
  classify_url u src attr_name = "feed"
  \/ classify_url u src attr_name = "api"
  \/ classify_url u src attr_name = "html".
Proof.
  unfold classify_url.
  destruct (str_is "feeds" src || attr_names_feed attr_name); auto.
  destruct (existsb _ feed_markers); auto.
  destruct (contains "/api/" (lower u) || contains ".json" (lower u)
            || contains "api." (lower u)); auto.
Qed.

Lemma truthy_some (o : option string) u :
  truthy o = Some u -> o = Some u /\ u <> EmptyString.
Proof.
  destruct o as [s|]; simpl; [|discriminate].
  destruct s; simpl; [discriminate|]. intros E. inversion E; subst.
  split; [reflexivity | discriminate].
Qed.

Lemma truthy_none (o : option string) :
  o = None \/ o = Some EmptyString -> truthy o = None.
Proof. intros [-> | ->]; reflexivity. Qed.

Lemma collect_hits_Forall {A} (f : A -> option EndpointHit) (P : EndpointHit -> Prop)
    (l : list A) :
  (forall x h, In x l -> f x = Some h -> P h) -> Forall P (collect_hits f l).
Proof.
  intros H. unfold collect_hits. apply Forall_forall. intros h Hin.
  apply in_flat_map in Hin as (x & Hx & Hh).
  destruct (f x) eqn:E; simpl in Hh; [|contradiction].
  destruct Hh as [-> | []]. eauto.
Qed.

(** A hit built under the truthiness test of a normalized URL: take the
    URL apart and check the three parts of [well_formed_hit]. *)
Ltac hit_of_truthy :=
  match goal with
  | |- context [truthy ?o] =>
      let E := fresh "E" in
      destruct (truthy o) as [?|] eqn:E;
      [apply truthy_some in E as (E & ?) | discriminate];
      let Hhit := fresh "Hhit" in
      intros Hhit; inversion Hhit; subst; clear Hhit;
      repeat split; simpl; eauto using classify_url_range
  end.

Section HitFacts.
Variable B : builtins.

Lemma literal_hit_well_formed found h :
  literal_hit found = Some h -> well_formed_hit h.
Proof. unfold literal_hit. hit_of_truthy. Qed.

Lemma bare_feed_hit_well_formed entry text h :
  bare_feed_hit entry text = Some h -> well_formed_hit h.
Proof. unfold bare_feed_hit. hit_of_truthy. Qed.

Lemma titled_feed_hit_well_formed t u h :
  titled_feed_hit B t u = Ok (Some h) -> well_formed_hit h.
Proof.
  unfold titled_feed_hit.
  destruct (truthy _) as [n|] eqn:E; [|discriminate].
  apply truthy_some in E as (E & Hne).
  destruct (if is_none (decode_if_bytes B t) then _ else _) as [title|e];
    simpl; [|discriminate].
  intros Hhit. inversion Hhit; subst; clear Hhit.
  repeat split; simpl; eauto using classify_url_range.
  destruct (decode_if_bytes B u); try discriminate. eauto.
Qed.

Lemma feed_entry_hit_well_formed entry h :
  feed_entry_hit B entry = Ok (Some h) -> well_formed_hit h.
Proof.
  destruct entry as [| | | | | |s|b|items|items]; simpl; try discriminate.
  - intros E. inversion E. eauto using bare_feed_hit_well_formed.
  - intros E. inversion E. eauto using bare_feed_hit_well_formed.
  - destruct items as [|t [|u rest]]; try discriminate.
    apply titled_feed_hit_well_formed.
  - destruct items as [|t [|u rest]]; try discriminate.
    apply titled_feed_hit_well_formed.
Qed.

Lemma mapM_in {A C} (f : A -> result C) (l : list A) (ys : list C) :
  mapM f l = Ok ys ->
  List.length ys = List.length l
  /\ forall y, In y ys -> exists x, In x l /\ f x = Ok y.
Proof.
  revert ys. induction l as [|a l IH]; intros ys; simpl.
  - intros E. inversion E; subst. split; [reflexivity | intros y []].
  - destruct (f a) as [b|e] eqn:Ha; simpl; [|discriminate].
    destruct (mapM f l) as [bs|e]; simpl; [|discriminate].
    intros E. inversion E; subst; clear E.
    destruct (IH bs eq_refl) as (Hlen & Hin). split; [simpl; now rewrite Hlen|].
    intros y [<- | Hy]; [eauto|]. destruct (Hin y Hy) as (x & Hx & Hfx). eauto.
Qed.

(** Every hit of the feeds list is the hit of one of its entries. *)
Lemma feeds_to_endpoints_in feeds hits h :
  _feeds_to_endpoints B feeds = Ok hits -> In h hits ->
  exists entry, In entry (feed_entries feeds) /\ feed_entry_hit B entry = Ok (Some h).
Proof.
  unfold _feeds_to_endpoints.
  destruct (mapM (feed_entry_hit B) (feed_entries feeds)) as [found|e] eqn:Hm;
    simpl; [|discriminate].
  intros E Hin. inversion E; subst; clear E.
  unfold collect_hits in Hin. apply in_flat_map in Hin as (o & Ho & Hh).
  destruct o as [h'|]; [|contradiction]. destruct Hh as [<- | []].
  apply mapM_in in Hm as (_ & Hm). exact (Hm _ Ho).
Qed.

Lemma attr_hit_well_formed item h :
  attr_hit B item = Some h -> well_formed_hit h.
Proof.
  destruct item as [name v]. unfold attr_hit.
  destruct (contains "url" (lower name) && is_str_or_bytes v); [|discriminate].
  hit_of_truthy.
Qed.

Lemma feeds_to_endpoints_well_formed feeds hits :
  _feeds_to_endpoints B feeds = Ok hits -> Forall well_formed_hit hits.
Proof.
  intros E. apply Forall_forall. intros h Hin.
  destruct (feeds_to_endpoints_in _ _ _ E Hin) as (entry & _ & Hh).
  eauto using feed_entry_hit_well_formed.
Qed.

(** A raw URL that normalizes to nothing, or to the empty string, gives
    no hit in any of the three extractors. *)
Lemma empty_url_not_emitted (raw : string) :
  normalize_url raw = None \/ normalize_url raw = Some EmptyString ->
  literal_hit raw = None
  /\ (forall entry, bare_feed_hit entry raw = None)
  /\ (forall t, titled_feed_hit B t (VStr raw) = Ok None)
  /\ (forall name, attr_hit B (name, VStr raw) = None).
Proof.
  intros Hraw. apply truthy_none in Hraw.
  unfold literal_hit, bare_feed_hit, titled_feed_hit, attr_hit. simpl.
  rewrite Hraw. repeat split; trivial.
  intros name. now destruct (contains "url" (lower name) && true).
Qed.

End HitFacts.

(** The failure the handler covers.  When the parser rejects the text of a
    document with a [SyntaxError], [parse_recipe_file] returns: every
    metadata field is null, the error is the captured message, and the hits
    are those of the literal scanner on the entity-decoded text, each built
    from a URL-shaped string that occurs in that text. *)
Lemma parse_failure_degrades (B : builtins) (text exc : string) :
  ast_parse B (unescape B text) = SyntaxError exc ->
  exists meta hits,
    parse_recipe_file B text = Ok (meta, hits, Some ("SyntaxError: " ++ exc))
    /\ title meta = None /\ author meta = None /\ description meta = None
    /\ language meta = None /\ publication_type meta = None
    /\ needs_subscription meta = None /\ class_name meta = None
    /\ hits = collect_hits literal_hit (find_urls_in_text (unescape B text))
    /\ Forall (fun h => source h = "literal"
                        /\ exists found, Occurs found (unescape B text)
                                         /\ url_shaped found
                                         /\ raw_url h = Some (VStr found)
                                         /\ normalize_url found = Some (url h)) hits.
Proof.
  intros Hparse. unfold parse_recipe_file. rewrite Hparse.
  do 2 eexists. repeat (split; [reflexivity|]).
  apply collect_hits_Forall. intros found h Hin. unfold literal_hit.
  destruct (truthy (normalize_url found)) as [u|] eqn:E; [|discriminate].
  apply truthy_some in E as (E & _). intros H. inversion H; subst; clear H. simpl.
  apply find_urls_in_text_sound in Hin as (Hocc & Hshape). eauto 6.
Qed.

Lemma parse_failure_degrades_witness :
  ast_parse rejecting_builtins (unescape rejecting_builtins "see http://ex.com/a.rss, (")
  = SyntaxError "invalid syntax"
  /\ exists meta hits,
      parse_recipe_file rejecting_builtins "see http://ex.com/a.rss, ("
      = Ok (meta, hits, Some "SyntaxError: invalid syntax")
      /\ title meta = None
      /\ map url hits = ["http://ex.com/a.rss"].
Proof.
  split; [reflexivity|].
  destruct (parse_failure_degrades rejecting_builtins "see http://ex.com/a.rss, ("
              "invalid syntax" eq_refl)
    as (meta & hits & Hrun & Htitle & _ & _ & _ & _ & _ & _ & Hhits & _).
  exists meta, hits. repeat split; trivial. rewrite Hhits. reflexivity.
Defined.

(** C5. A document can fail to parse without a [SyntaxError]: on a text
    with a NUL character the parser raises [ValueError] (before Python
    3.12), on deeply nested text [MemoryError] or [RecursionError].  The
    handler of [parse_recipe_file] names [SyntaxError] only, so the
    exception leaves the function: no metadata, no error text and none of
    the literal scanner's hits are returned. *)
Theorem parse_crash_escapes (B : builtins) (text : string) (e : pyexn) :
  ast_parse B (unescape B text) = ParserRaises e ->
  parse_recipe_file B text = Raise e
  /\ forall meta hits err, parse_recipe_file B text <> Ok (meta, hits, err).
Proof.
  intros Hparse. unfold parse_recipe_file. rewrite Hparse.
  split; [reflexivity | discriminate].
Qed.

Lemma parse_crash_escapes_witness :
  find_urls_in_text nul_text = ["http://ex.com/a.rss"]
  /\ parse_recipe_file nul_builtins nul_text = Raise ValueError.
Proof.
  split; [reflexivity|].
  apply (parse_crash_escapes nul_builtins nul_text ValueError). reflexivity.
Defined.

(** C10. Every hit that [parse_recipe_file] returns, whether it comes from
    the literal scanner, the feeds list or a url-named attribute, has a
    non-empty [url], which is an output of the normalizer, and a [url_type]
    among feed, api and html. *)
Theorem parse_recipe_file_hits_well_formed (B : builtins) (text : string)
    (meta : RecipeMetadata) (hits : list EndpointHit) (err : option string) :
  parse_recipe_file B text = Ok (meta, hits, err) ->
  Forall well_formed_hit hits.
Proof.
  unfold parse_recipe_file.
  assert (Hlit : Forall well_formed_hit
                   (collect_hits literal_hit (find_urls_in_text (unescape B text))))
    by (apply collect_hits_Forall; eauto using literal_hit_well_formed).
  destruct (ast_parse B (unescape B text)) as [tree|exc|e].
  - destruct (_collect_module_constants B tree) as [constants|e]; simpl; [|discriminate].
    destruct (match _find_recipe_class tree with
              | Some node => _extract_class_assignments B node constants
              | None => Ok []
              end) as [assigns|e]; simpl; [|discriminate].
    repeat (destruct (_as_str B _) as [?|?]; simpl; [|discriminate]).
    destruct (_feeds_to_endpoints B (get assigns "feeds")) as [feeds_hits|e] eqn:Hfeeds;
      simpl; [|discriminate].
    intros H. inversion H; subst; clear H.
    repeat (apply Forall_app; split); trivial.
    + eapply feeds_to_endpoints_well_formed. exact Hfeeds.
    + apply collect_hits_Forall. eauto using attr_hit_well_formed.
  - intros H. inversion H; subst; clear H. exact Hlit.
  - discriminate.
Qed.

Lemma parse_recipe_file_hits_well_formed_witness :
  exists meta hits,
    parse_recipe_file (builtins_parsing example_tree) "text of the example" = Ok (meta, hits, None)
    /\ title meta = Some "Example"
    /\ map url hits = ["http://ex.com/tech.rss"]
    /\ Forall well_formed_hit hits.
Proof.
  do 2 eexists. split; [reflexivity|]. split; [reflexivity|]. split; [reflexivity|].
  eapply (parse_recipe_file_hits_well_formed (builtins_parsing example_tree)
            "text of the example").
  reflexivity.
Defined.

(** The end-to-end sample: the class with a title and one titled feed
    gives the title and one hit of type feed, source feeds, with the feed
    title and the confidence of a titled pair. *)
Example parse_example_tree :
  parse_recipe_file (builtins_parsing example_tree) "text of the example"
  = Ok ({| recipe_uid := EmptyString; title := Some "Example"; author := None;
           description := None; language := None; publication_type := None;
           needs_subscription := None; class_name := Some "Example" |},
        [{| url := "http://ex.com/tech.rss"; url_type := "feed"; source := "feeds";
            context := None; feed_title := Some "Tech";
            raw_url := Some (VStr "http://ex.com/tech.rss");
            confidence := 0.98%float |}],
        None).
Proof. reflexivity. Qed.

(** ** db.py: [link_recipe_endpoint] *)

Lemma unique_eq_none_l (b : option string) : unique_eq None b = false.
Proof. reflexivity. Qed.

(** A new row with a NULL in a constrained column collides with nothing
    and is appended. *)
Lemma insert_or_touch_null (table : list link_row) (new : link_row) :
  l_context new = None \/ l_feed_title new = None ->
  insert_or_touch table new = (table ++ [new])%list.
Proof.
  intros Hnull. induction table as [|old table IH]; simpl; trivial.
  assert (Hc : link_conflict new old = false).
  { unfold link_conflict. destruct Hnull as [-> | ->]; simpl.
    - now rewrite !andb_false_r.
    - destruct (unique_eq (l_context new) (l_context old));
        now rewrite ?andb_false_r, ?andb_false_l. }
  now rewrite Hc, IH.
Qed.

(** C3. With a null [context] (or a null [feed_title]) the composite key
    never collides: linking the same key twice appends two rows, the second
    with its own [first_seen]. *)
Theorem link_twice_null_key_two_rows (conn : list link_row) (ts1 ts2 : string)
    (recipe_id endpoint_id : Z) (src : string) (other : option string)
    (raw : option string) (conf : PrimFloat.float) :
  let row ctx ft ts :=
    {| l_recipe_id := recipe_id; l_endpoint_id := endpoint_id; l_context := ctx;
       l_feed_title := ft; l_source := src; l_confidence := conf; l_raw_url := raw;
       l_first_seen := ts; l_last_seen := ts |} in
  link_recipe_endpoint ts2
    (link_recipe_endpoint ts1 conn recipe_id endpoint_id src None other raw conf)
    recipe_id endpoint_id src None other raw conf
  = (conn ++ [row None other ts1; row None other ts2])%list
  /\ link_recipe_endpoint ts2
       (link_recipe_endpoint ts1 conn recipe_id endpoint_id src other None raw conf)
       recipe_id endpoint_id src other None raw conf
     = (conn ++ [row other None ts1; row other None ts2])%list
  /\ List.length (filter (has_key 1 1 None None "literal")
               (link_recipe_endpoint "t2"
                  (link_recipe_endpoint "t1" [] 1 1 "literal" None None
                     (Some "http://ex.com/") 0.6%float)
                  1 1 "literal" None None (Some "http://ex.com/") 0.6%float)) = 2.
Proof.
  intros row. unfold link_recipe_endpoint.
  repeat split.
  - rewrite !insert_or_touch_null by (simpl; auto). now rewrite <- app_assoc.
  - rewrite !insert_or_touch_null by (simpl; auto). now rewrite <- app_assoc.
Qed.

Lemma insert_or_touch_fresh (table : list link_row) (new : link_row) :
  existsb (link_conflict new) table = false ->
  insert_or_touch table new = (table ++ [new])%list.
Proof.
  induction table as [|old table IH]; simpl; trivial.
  rewrite orb_false_iff. intros (Hc & Hrest). now rewrite Hc, IH.
Qed.

Lemma insert_or_touch_last (table : list link_row) (new r : link_row) :
  existsb (link_conflict new) table = false ->
  link_conflict new r = true ->
  insert_or_touch (table ++ [r]) new
  = (table ++ [set_last_seen (l_last_seen new) r])%list.
Proof.
  intros Hfresh Hhit. induction table as [|old table IH]; simpl in *.
  - now rewrite Hhit.
  - apply orb_false_iff in Hfresh as (Hc & Hrest). now rewrite Hc, IH.
Qed.

(** What the upsert does by design, for a key without nulls that the table
    does not hold yet: the second link finds the row of the first and only
    moves its [last_seen]; [first_seen], [confidence] and [raw_url] stay
    those of the first link. *)
Lemma link_twice_full_key (conn : list link_row) (ts1 ts2 : string)
    (recipe_id endpoint_id : Z) (src ctx ft : string)
    (raw1 raw2 : option string) (conf1 conf2 : PrimFloat.float) :
  existsb (has_key recipe_id endpoint_id (Some ctx) (Some ft) src) conn = false ->
  link_recipe_endpoint ts2
    (link_recipe_endpoint ts1 conn recipe_id endpoint_id src (Some ctx) (Some ft) raw1 conf1)
    recipe_id endpoint_id src (Some ctx) (Some ft) raw2 conf2
  = (conn ++ [{| l_recipe_id := recipe_id; l_endpoint_id := endpoint_id;
                 l_context := Some ctx; l_feed_title := Some ft; l_source := src;
                 l_confidence := conf1; l_raw_url := raw1;
                 l_first_seen := ts1; l_last_seen := ts2 |}])%list.
Proof.
  intros Hfresh. unfold link_recipe_endpoint.
  assert (Hnone : forall raw conf ts,
             existsb (link_conflict
                        {| l_recipe_id := recipe_id; l_endpoint_id := endpoint_id;
                           l_context := Some ctx; l_feed_title := Some ft;
                           l_source := src; l_confidence := conf; l_raw_url := raw;
                           l_first_seen := ts; l_last_seen := ts |}) conn = false).
  { intros raw conf ts. rewrite <- Hfresh. clear Hfresh.
    induction conn as [|old conn IH]; simpl; trivial.
    rewrite IH. f_equal. unfold link_conflict, has_key. simpl.
    rewrite (Z.eqb_sym recipe_id), (Z.eqb_sym endpoint_id), (String.eqb_sym src).
    destruct (l_context old), (l_feed_title old); simpl;
      rewrite ?(String.eqb_sym ctx), ?(String.eqb_sym ft); reflexivity. }
  rewrite (insert_or_touch_fresh _ _ (Hnone raw1 conf1 ts1)).
  rewrite (insert_or_touch_last _ _ _ (Hnone raw2 conf2 ts2)); trivial.
  unfold link_conflict. simpl. now rewrite !Z.eqb_refl, !String.eqb_refl.
Qed.

(** ** fetch_news.py: [_insert_article] *)

Lemma has_fingerprint_in (f : string) (table : list article_row) :
  existsb (has_fingerprint f) table = true <-> In f (map fingerprint_of table).
Proof.
  rewrite existsb_exists, in_map_iff. unfold has_fingerprint.
  split; intros (r & H1 & H2); exists r.
  - apply String.eqb_eq in H2. auto.
  - split; trivial. now apply String.eqb_eq.
Qed.

Lemma filter_absent (f : string) (table : list article_row) :
  ~ In f (map fingerprint_of table) -> filter (has_fingerprint f) table = [].
Proof.
  induction table as [|r table IH]; simpl; trivial.
  intros Hno. unfold has_fingerprint at 1.
  destruct (String.eqb_spec (fingerprint_of r) f) as [E|E].
  - elim Hno. auto.
  - apply IH. intros Hin. apply Hno. auto.
Qed.

Lemma filter_single (f : string) (table : list article_row) :
  NoDup (map fingerprint_of table) ->
  In f (map fingerprint_of table) ->
  exists r, filter (has_fingerprint f) table = [r].
Proof.
  induction table as [|r table IH]; simpl; [contradiction|].
  intros Hnd Hin. inversion Hnd as [|? ? Hfresh Hnd']; subst.
  unfold has_fingerprint at 1.
  destruct (String.eqb_spec (fingerprint_of r) f) as [E|E].
  - exists r. f_equal. apply filter_absent. now rewrite <- E.
  - destruct Hin as [Hin|Hin]; [contradiction|]. auto.
Qed.

(** The UNIQUE constraint on [fingerprint] is an invariant of the insert. *)
Lemma insert_article_keeps_unique (conn : list article_row) (p : article_payload) :
  NoDup (map fingerprint_of conn) ->
  NoDup (map fingerprint_of (_insert_article conn p)).
Proof.
  intros Hnd. unfold _insert_article.
  destruct (existsb (has_fingerprint (p_fingerprint p)) conn) eqn:E; trivial.
  rewrite map_app. simpl.
  assert (Hno : ~ In (p_fingerprint p) (map fingerprint_of conn)).
  { rewrite <- has_fingerprint_in, E. discriminate. }
  clear E. induction (map fingerprint_of conn) as [|x xs IH]; simpl.
  - constructor; [intros [] | constructor].
  - inversion Hnd; subst. constructor.
    + rewrite in_app_iff. intros [H|[H|[]]]; [contradiction|]. apply Hno. now left.
    + apply IH; trivial. intros H. apply Hno. now right.
Qed.

(** C4. In a table that satisfies its UNIQUE constraint, inserting a payload
    and then a payload with the same fingerprint leaves the table exactly as
    the first insert left it, so no field of any row changes, [fetched_at]
    included; exactly one row carries the fingerprint, and when the table
    did not hold the fingerprint before, that row has the fields of the
    first payload. *)
Theorem insert_article_twice (conn : list article_row) (p1 p2 : article_payload) :
  NoDup (map fingerprint_of conn) ->
  p_fingerprint p2 = p_fingerprint p1 ->
  let once := _insert_article conn p1 in
  let twice := _insert_article once p2 in
  twice = once
  /\ exists row,
      filter (has_fingerprint (p_fingerprint p1)) twice = [row]
      /\ (existsb (has_fingerprint (p_fingerprint p1)) conn = false ->
          a_fields row = p1 /\ p_fetched_at (a_fields row) = p_fetched_at p1).
Proof.
  intros Hnd Hfp once twice.
  assert (Hin : In (p_fingerprint p1) (map fingerprint_of once)).
  { unfold once, _insert_article.
    destruct (existsb (has_fingerprint (p_fingerprint p1)) conn) eqn:E.
    - now apply has_fingerprint_in.
    - rewrite map_app, in_app_iff. right. now left. }
  assert (Hsame : twice = once).
  { unfold twice, _insert_article. rewrite Hfp.
    apply has_fingerprint_in in Hin. now rewrite Hin. }
  split; trivial. rewrite Hsame.
  destruct (filter_single _ _ (insert_article_keeps_unique conn p1 Hnd) Hin)
    as (row & Hrow).
  exists row. split; trivial.
  intros Hnew. revert Hrow. unfold once, _insert_article. rewrite Hnew.
  rewrite filter_app, filter_absent.
  - simpl. unfold has_fingerprint at 1, fingerprint_of at 1. simpl.
    rewrite String.eqb_refl. intros E. inversion E; subst. auto.
  - rewrite <- has_fingerprint_in, Hnew. discriminate.
Qed.

Lemma insert_article_twice_witness :
  NoDup (map fingerprint_of [])
  /\ p_fingerprint (example_article "2026-01-02") = p_fingerprint (example_article "2026-01-01")
  /\ _insert_article (_insert_article [] (example_article "2026-01-01"))
       (example_article "2026-01-02")
     = [{| a_id := 1; a_fields := example_article "2026-01-01" |}].
Proof.
  split; [constructor|]. split; [reflexivity|].
  rewrite (proj1 (insert_article_twice [] (example_article "2026-01-01")
                    (example_article "2026-01-02") (NoDup_nil _) eq_refl)).
  reflexivity.
Defined.

(** ** rss_fallback.py: [parse_feed] *)

(** C6, as the code has it. On every payload that the XML parser accepts
    [parse_feed] returns a title and a list of entries, and a root element
    that is neither rss nor feed, namespace apart, gives no title and no
    entries. *)
Theorem parse_feed_returns_on_parsed (root : Element) :
  exists feed_title entries,
    parse_feed (XmlRoot root) = Ok (feed_title, entries)
    /\ (_strip_ns (tag_of root) <> "rss" -> _strip_ns (tag_of root) <> "feed" ->
        feed_title = None /\ entries = []).
Proof.
  simpl. unfold feed_of_root.
  destruct (String.eqb_spec (_strip_ns (tag_of root)) "rss") as [E1|E1].
  - destruct (_find_child root "channel"); do 2 eexists; split; try reflexivity;
      intros H; now elim H.
  - destruct (String.eqb_spec (_strip_ns (tag_of root)) "feed") as [E2|E2].
    + do 2 eexists; split; try reflexivity. intros _ H. now elim H.
    + do 2 eexists; split; try reflexivity. auto.
Qed.

(** C6, as stated, fails on a malformed payload: the [ParseError] that the
    XML parser raises on it leaves [parse_feed] as it is, no empty result
    takes its place. *)
Lemma parse_feed_malformed_raises :
  parse_feed (XmlError "syntax error: line 1, column 0")
  = Raise (ParseError "syntax error: line 1, column 0")
  /\ parse_feed (XmlError "syntax error: line 1, column 0") <> Ok (None, []).
Proof. split; [reflexivity | discriminate]. Qed.

(** ** utils.py: more on the normalizer and the literal scanner *)

Lemma last_char_snoc (front : string) c : last_char (front ++ String c EmptyString) = Some c.
Proof.
  induction front as [|d front IH]; simpl; trivial. now rewrite IH.
Qed.

Lemma last_char_split (s : string) c :
  last_char s = Some c -> exists front, s = front ++ String c EmptyString.
Proof.
  revert c. induction s as [|d s IH]; simpl; [discriminate|].
  intros c. destruct (last_char s) as [e|] eqn:E.
  - intros H. inversion H; subst. destruct (IH c eq_refl) as (front & ->).
    now exists (String d front).
  - intros H. inversion H; subst. destruct s; [|simpl in E; destruct (last_char s); discriminate].
    now exists EmptyString.
Qed.

Lemma last_outside_iff p (s : string) :
  last_outside p s <-> (forall c, last_char s = Some c -> p c = false).
Proof.
  split.
  - intros H c Hc. apply last_char_split in Hc as (front & ->). eapply H. reflexivity.
  - intros H front c ->. apply H. apply last_char_snoc.
Qed.

Lemma last_outside_tail p c (s : string) : last_outside p (String c s) -> last_outside p s.
Proof. intros H front d ->. apply (H (String c front) d). reflexivity. Qed.

Lemma lstrip_by_id p (s : string) : head_outside p s -> lstrip_by p s = s.
Proof.
  destruct s as [|c s]; simpl; trivial. intros H. now rewrite (H c s eq_refl).
Qed.

Lemma rstrip_by_id p (s : string) : last_outside p s -> rstrip_by p s = s.
Proof.
  induction s as [|c s IH]; simpl; trivial. intros H.
  rewrite IH by (eapply last_outside_tail; exact H).
  destruct s; trivial. now rewrite (H EmptyString c eq_refl).
Qed.

Lemma all_chars_head p (s : string) :
  all_chars p s = true -> head_outside (fun c => negb (p c)) s.
Proof.
  intros H c rest ->. simpl in H. apply andb_true_iff in H as (Hc & _). now rewrite Hc.
Qed.

Lemma all_chars_last p (s : string) :
  all_chars p s = true -> last_outside (fun c => negb (p c)) s.
Proof.
  intros H front c ->. rewrite all_chars_append in H.
  apply andb_true_iff in H as (_ & Hc). simpl in Hc. rewrite andb_true_r in Hc.
  now rewrite Hc.
Qed.

Lemma head_outside_weaken (p q : ascii -> bool) (s : string) :
  (forall c, p c = false -> q c = false) -> head_outside p s -> head_outside q s.
Proof. intros Hpq H c rest E. apply Hpq. eapply H. exact E. Qed.

Lemma last_outside_weaken (p q : ascii -> bool) (s : string) :
  (forall c, p c = false -> q c = false) -> last_outside p s -> last_outside q s.
Proof. intros Hpq H front c E. apply Hpq. eapply H. exact E. Qed.

(** The parts of a raw string that [normalize_url] keeps: a core that
    neither starts with a quote nor ends with a trailing character, and is
    returned as it is or with its feed scheme rewritten. *)
Lemma normalize_url_parts (raw u : string) :
  normalize_url raw = Some u ->
  exists before core after,
    raw = before ++ core ++ after
    /\ last_outside (char_in trailing_chars) core
    /\ head_outside (char_in quote_chars) core
    /\ ((startswith "feed://" core = false /\ u = core)
        \/ exists rest, core = "feed://" ++ rest /\ u = "http://" ++ rest).
Proof.
  unfold normalize_url, strip, strip_chars, rstrip_chars.
  destruct (strip_by_split isspace raw) as (ws1 & ws2 & Hraw & _).
  remember (strip_by isspace raw) as mid eqn:Emid. clear Emid.
  destruct (strip_by_split (char_in quote_chars) mid) as (q1 & q2 & Hmid & _ & _ & Hh & _).
  remember (strip_by (char_in quote_chars) mid) as t eqn:Et. clear Et.
  destruct (rstrip_by_split (char_in trailing_chars) t) as (trail & Ht & _ & Hl).
  remember (rstrip_by (char_in trailing_chars) t) as core eqn:Ecore. clear Ecore.
  destruct (is_empty t); [discriminate|]. intros Hu.
  exists (ws1 ++ q1), core, (trail ++ q2 ++ ws2).
  split; [|split; [exact Hl | split]].
  - subst raw mid. rewrite Ht at 1. now rewrite !append_assoc.
  - intros c rest E. eapply Hh. rewrite Ht, E. reflexivity.
  - destruct (startswith "feed://" core) eqn:Hp.
    + right. apply startswith_iff in Hp as (rest & E). exists rest. split; trivial.
      injection Hu as <-. rewrite E. reflexivity.
    + left. split; trivial. now inversion Hu.
Qed.

Lemma string_snoc_cases (s : string) :
  s = EmptyString \/ exists front c, s = front ++ String c EmptyString.
Proof.
  destruct (last_char s) as [c|] eqn:E.
  - right. apply last_char_split in E as (front & ->). eauto.
  - left. destruct s; trivial. simpl in E. destruct (last_char s); discriminate.
Qed.

Lemma last_char_app (a b : string) :
  b <> EmptyString -> last_char (a ++ b) = last_char b.
Proof.
  intros Hb. destruct (string_snoc_cases b) as [-> | (front & c & ->)]; [now elim Hb|].
  rewrite <- append_assoc. now rewrite !last_char_snoc.
Qed.

(** The shape of a result of [normalize_url], shared by the facts below. *)
Lemma normalize_url_shape (raw u : string) :
  normalize_url raw = Some u ->
  last_outside (char_in trailing_chars) u
  /\ head_outside (char_in quote_chars) u
  /\ startswith "feed://" u = false.
Proof.
  intros H. apply normalize_url_parts in H
    as (before & core & after & _ & Hl & Hh & [(Hp & ->) | (rest & -> & ->)]).
  - auto.
  - repeat split.
    + apply last_outside_iff. intros c Hc.
      destruct rest as [|d rest].
      * simpl in Hc. inversion Hc. reflexivity.
      * rewrite last_char_app in Hc by discriminate.
        apply (proj1 (last_outside_iff _ _) Hl).
        rewrite last_char_app by discriminate. exact Hc.
    + intros c r E. simpl in E. inversion E. reflexivity.
Qed.

(** X1. What [normalize_url] returns never ends with one of the trailing
    characters it strips, never starts with a quote, and never has the feed
    scheme. *)
Theorem normalize_url_output_shape (raw u : string) :
  normalize_url raw = Some u ->
  last_outside (char_in trailing_chars) u
  /\ head_outside (char_in quote_chars) u
  /\ startswith "feed://" u = false.
Proof.
  intros H. destruct (normalize_url_shape raw u H) as (Hl & Hh & Hp).
  split; [exact Hl | split; [exact Hh | exact Hp]].
Qed.

Lemma normalize_url_output_shape_witness :
  normalize_url " 'feed://x.com/rss'. " = Some "http://x.com/rss"
  /\ startswith "feed://" "http://x.com/rss" = false.
Proof.
  split; [reflexivity|].
  apply (normalize_url_output_shape " 'feed://x.com/rss'. " "http://x.com/rss" eq_refl).
Defined.

Lemma url_char_outside (c : ascii) :
  url_char c = true -> isspace c = false /\ char_in quote_chars c = false.
Proof.
  unfold url_char. rewrite negb_true_iff, orb_false_iff. intros (Hs & Hq).
  split; trivial. simpl in *. rewrite !orb_false_iff in *. tauto.
Qed.

Lemma all_chars_outside p q (s : string) :
  (forall c, p c = true -> q c = false) ->
  all_chars p s = true -> head_outside q s /\ last_outside q s.
Proof.
  intros Hpq H. split.
  - eapply head_outside_weaken; [|apply all_chars_head; exact H].
    intros c Hc. apply Hpq. now apply negb_false_iff.
  - eapply last_outside_weaken; [|apply all_chars_last; exact H].
    intros c Hc. apply Hpq. now apply negb_false_iff.
Qed.

(** A string without whitespace and quotes that is not empty, does not
    end with a trailing character and has no feed scheme is returned
    unchanged. *)
Lemma normalize_url_fixed (u : string) :
  all_chars url_char u = true -> u <> EmptyString ->
  last_outside (char_in trailing_chars) u -> startswith "feed://" u = false ->
  normalize_url u = Some u.
Proof.
  intros Hall Hne Hl Hp.
  destruct (all_chars_outside url_char isspace u) as (Hh1 & Hl1);
    [intros c Hc; now apply url_char_outside in Hc | exact Hall |].
  destruct (all_chars_outside url_char (char_in quote_chars) u) as (Hh2 & Hl2);
    [intros c Hc; now apply url_char_outside in Hc | exact Hall |].
  unfold normalize_url, strip, strip_chars, rstrip_chars, strip_by.
  rewrite (lstrip_by_id _ _ Hh1), (rstrip_by_id _ _ Hl1).
  rewrite (lstrip_by_id _ _ Hh2), (rstrip_by_id _ _ Hl2).
  rewrite (rstrip_by_id _ _ Hl), Hp.
  destruct u; [now elim Hne | reflexivity].
Qed.

Lemma url_shaped_chars (m : string) : url_shaped m -> all_chars url_char m = true.
Proof.
  intros (scheme & body & Hin & -> & _ & Hall). rewrite all_chars_append, Hall.
  simpl in Hin. destruct Hin as [<- | [<- | [<- | []]]]; reflexivity.
Qed.

(** X2. The URL of a hit of the literal scanner is a fixed point of
    [normalize_url]: normalizing it again, as [extract_sources.main] does
    before storing it, returns it unchanged. *)
Theorem literal_hit_url_stable (text found : string) (h : EndpointHit) :
  In found (find_urls_in_text text) ->
  literal_hit found = Some h ->
  normalize_url (url h) = Some (url h).
Proof.
  intros Hin Hhit. apply find_urls_in_text_sound in Hin as (_ & Hshape).
  apply url_shaped_chars in Hshape.
  unfold literal_hit in Hhit.
  destruct (truthy (normalize_url found)) as [u|] eqn:E; [|discriminate].
  apply truthy_some in E as (E & Hne). injection Hhit as <-. simpl.
  destruct (normalize_url_shape _ _ E) as (Hl & _ & Hp).
  apply normalize_url_fixed; trivial.
  apply normalize_url_parts in E
    as (before & core & after & Hraw & _ & _ & [(_ & ->) | (rest & -> & ->)]);
    rewrite Hraw, !all_chars_append, !andb_true_iff in Hshape.
  - tauto.
  - rewrite all_chars_append. destruct Hshape as (_ & (_ & Hrest) & _).
    now rewrite Hrest.
Qed.

Lemma literal_hit_url_stable_witness :
  In "feed://ex.com/a.rss," (find_urls_in_text "see feed://ex.com/a.rss, (")
  /\ option_map url (literal_hit "feed://ex.com/a.rss,") = Some "http://ex.com/a.rss"
  /\ normalize_url "http://ex.com/a.rss" = Some "http://ex.com/a.rss".
Proof.
  split; [simpl; auto|]. split; [reflexivity|].
  apply (literal_hit_url_stable "see feed://ex.com/a.rss, (" "feed://ex.com/a.rss,"
           {| url := "http://ex.com/a.rss";
              url_type := classify_url "http://ex.com/a.rss" (Some "literal") None;
              source := "literal"; context := None; feed_title := None;
              raw_url := Some (VStr "feed://ex.com/a.rss,");
              confidence := 0.6%float |});
    [simpl; auto | reflexivity].
Defined.

Lemma take_while_stops p (body : string) c rest :
  all_chars p body = true -> p c = false ->
  take_while p (body ++ String c rest) = body.
Proof.
  intros Hall Hc. induction body as [|d body IH]; simpl in *.
  - now rewrite Hc.
  - apply andb_true_iff in Hall as (Hd & Hall). now rewrite Hd, IH.
Qed.

Lemma findall_urls_skip (a b : string) :
  findall_urls (String.length a) (a ++ b) = findall_urls 0 b.
Proof. induction a as [|c a IH]; simpl; trivial. Qed.

Lemma match_scheme_whole scheme body c rest :
  body <> EmptyString -> all_chars url_char body = true -> url_char c = false ->
  match_scheme scheme ((scheme ++ body) ++ String c rest) = Some (scheme ++ body).
Proof.
  intros Hne Hall Hc. unfold match_scheme. rewrite append_assoc.
  assert (Hp : startswith scheme (scheme ++ body ++ String c rest) = true)
    by (apply startswith_iff; eauto).
  rewrite Hp, slice_from_append, take_while_stops by trivial.
  destruct body; [now elim Hne | reflexivity].
Qed.

Lemma startswith_other_head a p c (rest : string) :
  Ascii.eqb a c = false -> startswith (String a p) (String c rest) = false.
Proof.
  intros H. change (Ascii.eqb a c && startswith p rest = false). now rewrite H.
Qed.

Lemma match_url_terminator c rest : url_char c = false -> match_url (String c rest) = None.
Proof.
  intros Hc.
  assert (Hh : Ascii.eqb "h" c = false)
    by (destruct (Ascii.eqb_spec "h" c) as [<-|]; [discriminate Hc | reflexivity]).
  assert (Hf : Ascii.eqb "f" c = false)
    by (destruct (Ascii.eqb_spec "f" c) as [<-|]; [discriminate Hc | reflexivity]).
  unfold match_url, match_scheme.
  now rewrite !(startswith_other_head _ _ _ _ Hh), (startswith_other_head _ _ _ _ Hf).
Qed.

(** X4. A URL-shaped string followed by a character that cannot be part
    of a URL is found whole, and the scan goes on after it. *)
Theorem find_urls_in_text_first (m : string) (sep : ascii) (post : string) :
  url_shaped m -> url_char sep = false ->
  find_urls_in_text (m ++ String sep post) = m :: find_urls_in_text post.
Proof.
  intros (scheme & body & Hin & -> & Hne & Hall) Hsep.
  assert (Hm : match_url ((scheme ++ body) ++ String sep post) = Some (scheme ++ body)).
  { unfold match_url.
    pose proof (match_scheme_whole scheme body sep post Hne Hall Hsep) as H.
    simpl in Hin. destruct Hin as [<- | [<- | [<- | []]]].
    - now rewrite H.
    - rewrite H. reflexivity.
    - rewrite H. reflexivity. }
  unfold find_urls_in_text.
  destruct (scheme ++ body) as [|c m'] eqn:Em.
  { apply append_is_empty in Em as (_ & ->). now elim Hne. }
  simpl String.append. simpl findall_urls. simpl String.append in Hm. rewrite Hm.
  f_equal. simpl String.length.
  replace (S (String.length m') - 1) with (String.length m') by lia.
  rewrite findall_urls_skip. simpl. now rewrite match_url_terminator.
Qed.

Lemma find_urls_in_text_first_witness :
  url_shaped "http://ex.com/a" /\ url_char " " = false
  /\ find_urls_in_text ("http://ex.com/a" ++ String " " "and https://ex.org/b")
     = ["http://ex.com/a"; "https://ex.org/b"].
Proof.
  assert (Hshape : url_shaped "http://ex.com/a").
  { exists "http://", "ex.com/a". repeat split; [simpl; auto | discriminate]. }
  split; [exact Hshape|]. split; [reflexivity|].
  rewrite (find_urls_in_text_first "http://ex.com/a" " " "and https://ex.org/b"
             Hshape eq_refl).
  reflexivity.
Defined.

(** ** utils.py: [html_to_text] *)

Lemma split_from_words (text word : string) :
  all_chars not_space word = true -> Forall is_word (split_from text word).
Proof.
  revert word. induction text as [|c text IH]; intros word Hword; simpl.
  - destruct word; simpl; constructor; [|constructor].
    split; [discriminate | exact Hword].
  - destruct (isspace c) eqn:Hc.
    + destruct word; simpl; [now apply IH|].
      constructor; [split; [discriminate | exact Hword] | now apply IH].
    + apply IH. rewrite all_chars_append, Hword. simpl. unfold not_space. now rewrite Hc.
Qed.

Lemma split_from_word_prefix (w rest word : string) :
  all_chars not_space w = true ->
  split_from (w ++ rest) word = split_from rest (word ++ w).
Proof.
  revert word. induction w as [|c w IH]; intros word Hw; simpl.
  - now rewrite append_empty_r.
  - simpl in Hw. apply andb_true_iff in Hw as (Hc & Hw).
    unfold not_space in Hc. apply negb_true_iff in Hc. rewrite Hc.
    rewrite IH by exact Hw. now rewrite append_assoc.
Qed.

(** Splitting the joined words gives the words back. *)
Lemma split_concat_words (words : list string) :
  Forall is_word words -> split (String.concat " " words) = words.
Proof.
  unfold split. induction 1 as [|w ws (Hne & Hw) Hws IH]; trivial.
  destruct ws as [|w2 ws].
  - simpl. rewrite <- (append_empty_r w) at 1.
    rewrite split_from_word_prefix by exact Hw. simpl.
    destruct w; [now elim Hne | reflexivity].
  - change (String.concat " " (w :: w2 :: ws))
      with (w ++ String " " (String.concat " " (w2 :: ws))).
    rewrite split_from_word_prefix by exact Hw.
    change (split_from (String " " (String.concat " " (w2 :: ws))) (EmptyString ++ w))
      with (if is_empty w then split_from (String.concat " " (w2 :: ws)) EmptyString
            else w :: split_from (String.concat " " (w2 :: ws)) EmptyString).
    rewrite IH. destruct w; [now elim Hne | reflexivity].
Qed.

Lemma concat_words_nonempty (w : string) (ws : list string) :
  is_word w -> String.concat " " (w :: ws) <> EmptyString.
Proof.
  intros (Hne & _). destruct w; [now elim Hne|]. destruct ws; discriminate.
Qed.

Lemma concat_words_head (words : list string) :
  Forall is_word words -> head_outside isspace (String.concat " " words).
Proof.
  destruct 1 as [|w ws (Hne & Hw) _]; [intros ? ? E; discriminate E|].
  assert (H : head_outside isspace w).
  { intros c rest ->. simpl in Hw. apply andb_true_iff in Hw as (Hc & _).
    now apply negb_true_iff in Hc. }
  destruct ws; [exact H|].
  change (String.concat " " (w :: s :: ws))
    with (w ++ String " " (String.concat " " (s :: ws))).
  destruct w as [|c w]; [now elim Hne|]. intros d rest E. inversion E; subst.
  apply (H d w eq_refl).
Qed.

Lemma concat_words_last (words : list string) :
  Forall is_word words -> last_outside isspace (String.concat " " words).
Proof.
  induction 1 as [|w ws Hword Hws IH]; [intros [|? ?] ? E; discriminate E|].
  pose proof Hword as (Hne & Hw).
  destruct ws as [|w2 ws].
  - simpl. eapply last_outside_weaken; [|apply all_chars_last; exact Hw].
    intros c Hc. unfold not_space in Hc. now rewrite negb_involutive in Hc.
  - change (String.concat " " (w :: w2 :: ws))
      with (w ++ String " " (String.concat " " (w2 :: ws))).
    apply last_outside_iff. intros c Hc.
    rewrite last_char_app in Hc by discriminate.
    change (String " " (String.concat " " (w2 :: ws)))
      with (String " " EmptyString ++ String.concat " " (w2 :: ws)) in Hc.
    rewrite last_char_app in Hc
      by (apply concat_words_nonempty; now inversion Hws).
    apply (proj1 (last_outside_iff _ _) IH). exact Hc.
Qed.

Lemma concat_words_chars (words : list string) :
  Forall is_word words ->
  all_chars (fun c => not_space c || Ascii.eqb c " ") (String.concat " " words) = true.
Proof.
  assert (Hweak : forall w, all_chars not_space w = true ->
                            all_chars (fun c => not_space c || Ascii.eqb c " ") w = true).
  { induction w as [|c w IHw]; simpl; trivial.
    rewrite !andb_true_iff. intros (Hc & Hw). rewrite Hc. auto. }
  induction 1 as [|w ws (Hne & Hw) Hws IH]; trivial.
  destruct ws as [|w2 ws]; [now apply Hweak|].
  change (String.concat " " (w :: w2 :: ws))
    with (w ++ String " " (String.concat " " (w2 :: ws))).
  rewrite all_chars_append, Hweak by exact Hw.
  change (all_chars (fun c => not_space c || Ascii.eqb c " ")
            (String " " (String.concat " " (w2 :: ws))))
    with (true && all_chars (fun c => not_space c || Ascii.eqb c " ")
                    (String.concat " " (w2 :: ws))).
  now rewrite IH.
Qed.

Lemma startswith_cons a p b (s : string) :
  startswith (String a p) (String b s) = Ascii.eqb a b && startswith p s.
Proof. reflexivity. Qed.

Lemma contains_word_prefix (w tail : string) :
  all_chars not_space w = true ->
  contains "  " (w ++ tail) = contains "  " tail.
Proof.
  intros Hw. induction w as [|c w IH]; trivial.
  simpl in Hw. apply andb_true_iff in Hw as (Hc & Hw).
  simpl String.append. rewrite contains_unfold, IH by exact Hw.
  rewrite startswith_cons.
  destruct (Ascii.eqb_spec " " c) as [<-|_]; [discriminate Hc | reflexivity].
Qed.

Lemma concat_words_single_spaces (words : list string) :
  Forall is_word words -> contains "  " (String.concat " " words) = false.
Proof.
  induction 1 as [|w ws (Hne & Hw) Hws IH]; trivial.
  destruct ws as [|w2 ws].
  - simpl. rewrite <- (append_empty_r w). now rewrite contains_word_prefix.
  - change (String.concat " " (w :: w2 :: ws))
      with (w ++ String " " (String.concat " " (w2 :: ws))).
    rewrite contains_word_prefix by exact Hw.
    rewrite contains_unfold, IH, orb_false_r.
    pose proof (concat_words_head _ Hws) as Hh.
    destruct (String.concat " " (w2 :: ws)) as [|d rest]; [reflexivity|].
    rewrite !startswith_cons.
    destruct (Ascii.eqb_spec " " d) as [<-|_]; [|reflexivity].
    discriminate (Hh " "%char rest eq_refl).
Qed.

(** X5. The text [html_to_text] returns has its whitespace collapsed: the
    only whitespace characters in it are single spaces between words, it
    neither starts nor ends with one, and collapsing it again changes
    nothing. *)
Theorem html_to_text_collapsed (get_text : string -> string) (html_src : string) :
  let text := html_to_text get_text html_src in
  all_chars (fun c => negb (isspace c) || Ascii.eqb c " ") text = true
  /\ head_outside isspace text
  /\ last_outside isspace text
  /\ ~ Occurs "  " text
  /\ html_to_text (fun s => s) text = text.
Proof.
  assert (Hwords : Forall is_word (split (get_text html_src)))
    by (apply split_from_words; reflexivity).
  unfold html_to_text. cbv zeta. repeat split.
  - now apply concat_words_chars.
  - now apply concat_words_head.
  - now apply concat_words_last.
  - apply contains_false_iff. now apply concat_words_single_spaces.
  - now rewrite split_concat_words.
Qed.

(** ** recipe_parser.py: no [TypeError] without byte-strings *)

Lemma existsb_false_in {A} (f : A -> bool) (l : list A) x :
  existsb f l = false -> In x l -> f x = false.
Proof.
  intros H Hin. destruct (f x) eqn:E; trivial.
  assert (existsb f l = true) by (apply existsb_exists; eauto). congruence.
Qed.

Lemma get_no_bytes (d : dict) k : env_no_bytes d = true -> is_bytes (get d k) = false.
Proof.
  unfold get. induction d as [|[k' v] d IH]; simpl; trivial.
  rewrite andb_true_iff, negb_true_iff. intros (Hv & Hd).
  destruct (String.eqb k' k); auto.
Qed.

Lemma str_call_raise (B : builtins) v e : str_call B v = Raise e -> e = ValueError.
Proof. unfold str_call. destruct (str_raises B v); intros E; inversion E; reflexivity. Qed.

(** [str] never raises on a string or a byte-string: the extractors that
    call it on one take its text. *)
Lemma str_call_text (B : builtins) v :
  is_str_or_bytes v = true -> str_call B v = Ok (py_str B v).
Proof. destruct v; try discriminate; reflexivity. Qed.

Lemma join_values_value fold to_str (values : list expr) parts r :
  join_values fold to_str values parts = Ok r -> is_bytes r = false.
Proof.
  revert parts. induction values as [|x values IH]; intros parts; simpl.
  - intros E. inversion E. reflexivity.
  - destruct (fold x) as [v|]; simpl; [|discriminate].
    destruct (is_none v); [intros E; inversion E; reflexivity|].
    destruct (to_str v); simpl; [|discriminate]. apply IH.
Qed.

(** Without a byte-string in sight the folder gives no byte-string, and
    the model's only exception is the [ValueError] of [str]. *)
Lemma eval_node_without_bytes (B : builtins) (node : expr) (constants : dict) :
  has_bytes node = false -> env_no_bytes constants = true ->
  (forall v, _eval_node B node constants = Ok v -> is_bytes v = false)
  /\ (forall e, _eval_node B node constants = Raise e -> e = ValueError).
Proof.
  intros Hnode Henv. revert Hnode.
  enough (H : (has_bytes node = false ->
               (forall v, _eval_node B node constants = Ok v -> is_bytes v = false)
               /\ (forall e, _eval_node B node constants = Raise e -> e = ValueError))
              /\ (forall x attr, node = Attribute x attr -> has_bytes x = false ->
                  (forall v, _eval_node B x constants = Ok v -> is_bytes v = false)
                  /\ (forall e, _eval_node B x constants = Raise e -> e = ValueError)))
    by apply H.
  assert (Hitems : forall elts wrap,
             Forall (fun e0 =>
                (has_bytes e0 = false ->
                 (forall v, _eval_node B e0 constants = Ok v -> is_bytes v = false)
                 /\ (forall e, _eval_node B e0 constants = Raise e -> e = ValueError))
                /\ (forall x attr, e0 = Attribute x attr -> has_bytes x = false ->
                    (forall v, _eval_node B x constants = Ok v -> is_bytes v = false)
                    /\ (forall e, _eval_node B x constants = Raise e -> e = ValueError)))
               elts ->
             existsb has_bytes elts = false ->
             (forall items, is_bytes (wrap items) = false) ->
             (forall v, (items <- mapM (fun elt => _eval_node B elt constants) elts ;;
                         if existsb is_none items then Ok VNone else Ok (wrap items)) = Ok v ->
                        is_bytes v = false)
             /\ (forall e, (items <- mapM (fun elt => _eval_node B elt constants) elts ;;
                            if existsb is_none items then Ok VNone else Ok (wrap items))
                           = Raise e -> e = ValueError)).
  { intros elts wrap H Hb Hwrap. rewrite Forall_forall in H.
    destruct (mapM _ elts) as [items|e0] eqn:Hm; simpl.
    - split; [|destruct (existsb is_none items); discriminate].
      intros v. destruct (existsb is_none items); intros E; inversion E; auto.
    - split; [discriminate|]. intros e E. inversion E; subst.
      apply mapM_raise in Hm as (x & Hin & Hx).
      exact (proj2 (proj1 (H x Hin) (existsb_false_in _ _ _ Hb Hin)) _ Hx). }
  induction node using expr_children_ind;
    (split; [intros Hb | intros x' attr' Heq; try discriminate Heq]).
  - simpl. split; [|discriminate]. intros v E. inversion E; subst.
    destruct c; simpl in *; try discriminate; reflexivity.
  - simpl. split; [|discriminate]. intros v E. inversion E. now apply get_no_bytes.
  - simpl in *. apply (Hitems elts VTuple); trivial.
  - simpl in *. apply (Hitems elts VList); trivial.
  - simpl in Hb. apply orb_false_iff in Hb as (Hb1 & Hb2).
    destruct (proj1 IHnode1 Hb1) as (Ok1 & Ex1).
    destruct (proj1 IHnode2 Hb2) as (Ok2 & Ex2).
    destruct op; simpl; try (split; [intros v E; inversion E; reflexivity | discriminate]).
    destruct (_eval_node B node1 constants) as [vl|e1]; simpl.
    2:{ split; [discriminate | intros e E; inversion E; subst; now apply Ex1]. }
    destruct (_eval_node B node2 constants) as [vr|e2]; simpl.
    2:{ split; [discriminate | intros e E; inversion E; subst; now apply Ex2]. }
    specialize (Ok1 _ eq_refl). specialize (Ok2 _ eq_refl).
    destruct vl, vr; simpl in *; try discriminate;
      (split; [intros v E; inversion E; reflexivity | discriminate]).
  - simpl in *. split; [intros v; apply join_values_value|].
    intros e E. apply join_values_raise in E as [(x & Hin & Hx) | (val & Hval)].
    + rewrite Forall_forall in H.
      exact (proj2 (proj1 (H x Hin) (existsb_false_in _ _ _ Hb Hin)) _ Hx).
    + eapply str_call_raise. exact Hval.
  - simpl in *. now apply IHnode.
  - simpl. split; [intros v E; inversion E; reflexivity | discriminate].
  - inversion Heq; subst. now apply IHnode.
  - simpl in Hb. apply orb_false_iff in Hb as (Hb & Hkw).
    apply orb_false_iff in Hb as (Hfunc & Hargs).
    destruct IHnode as (_ & Hbase).
    destruct node; simpl;
      try (split; [intros v E; inversion E; reflexivity | discriminate]).
    destruct (String.eqb attr "format");
      [|split; [intros v E; inversion E; reflexivity | discriminate]].
    destruct (Hbase _ _ eq_refl Hfunc) as (_ & Exb).
    destruct (_eval_node B node constants) as [base|e1]; simpl.
    2:{ split; [discriminate | intros e E; inversion E; subst; now apply Exb]. }
    destruct base; try (split; [intros v E; inversion E; reflexivity | discriminate]).
    destruct (mapM _ args) as [vs|e2] eqn:Hm; simpl.
    2:{ split; [discriminate|]. intros e E. inversion E; subst.
        apply mapM_raise in Hm as (x & Hin & Hx). rewrite Forall_forall in H.
        exact (proj2 (proj1 (H x Hin) (existsb_false_in _ _ _ Hargs Hin)) _ Hx). }
    destruct (collect_keywords _ keywords []) as [kwargs|e3] eqn:Hk; simpl.
    2:{ split; [discriminate|]. intros e E. inversion E; subst.
        apply collect_keywords_raise in Hk as (kw & Hin & Hx).
        rewrite Forall_forall in H0.
        exact (proj2 (proj1 (H0 kw Hin)
                        (existsb_false_in (fun kw => has_bytes (snd kw)) _ _ Hkw Hin))
                 _ Hx). }
    destruct (existsb is_none vs || existsb _ kwargs);
      [split; [intros v E; inversion E; reflexivity | discriminate]|].
    destruct (str_format B s vs kwargs);
      (split; [intros v E; inversion E; reflexivity | discriminate]).
  - simpl. split; [intros v E; inversion E; reflexivity | discriminate].
Qed.

(** X6. The [TypeError] of the folder needs a byte-string: an expression
    without byte-string literals, folded in an environment that binds no
    name to a byte-string, never raises it, and what it folds to is never a
    byte-string. *)
Theorem eval_node_no_type_error (B : builtins) (node : expr) (constants : dict) :
  has_bytes node = false -> env_no_bytes constants = true ->
  _eval_node B node constants <> Raise TypeError
  /\ forall v, _eval_node B node constants = Ok v -> is_bytes v = false.
Proof.
  intros Hnode Henv.
  destruct (eval_node_without_bytes B node constants Hnode Henv) as (Hok & Hex).
  split; [|exact Hok]. intros E. apply Hex in E. discriminate E.
Qed.

Lemma eval_node_no_type_error_witness :
  has_bytes (BinOp (JoinedStr [Constant (CStr "http://"); FormattedValue (Name "host")])
               Add (Constant (CStr "/rss"))) = false
  /\ env_no_bytes [("host", VStr "ex.com")] = true
  /\ _eval_node rejecting_builtins
       (BinOp (JoinedStr [Constant (CStr "http://"); FormattedValue (Name "host")])
          Add (Constant (CStr "/rss")))
       [("host", VStr "ex.com")] <> Raise TypeError.
Proof.
  split; [reflexivity|]. split; [reflexivity|].
  apply (eval_node_no_type_error rejecting_builtins
           (BinOp (JoinedStr [Constant (CStr "http://"); FormattedValue (Name "host")])
              Add (Constant (CStr "/rss")))
           [("host", VStr "ex.com")]); reflexivity.
Defined.

Lemma dict_set_no_bytes (d : dict) k v :
  env_no_bytes d = true -> is_bytes v = false -> env_no_bytes (dict_set d k v) = true.
Proof.
  intros Hd Hv. induction d as [|[k' v'] d IH]; simpl in *.
  - now rewrite Hv.
  - apply andb_true_iff in Hd as (Hv' & Hd).
    destruct (String.eqb k' k); simpl; [now rewrite Hv, Hd | now rewrite Hv', IH].
Qed.

Lemma dict_union_no_bytes (a b : dict) :
  env_no_bytes a = true -> env_no_bytes b = true -> env_no_bytes (dict_union a b) = true.
Proof.
  unfold dict_union. revert a. induction b as [|[k v] b IH]; intros a Ha Hb; simpl; trivial.
  simpl in Hb. apply andb_true_iff in Hb as (Hv & Hb).
  apply IH; trivial. apply dict_set_no_bytes; trivial. now apply negb_true_iff.
Qed.

Lemma run_items_without_bytes step (body : list stmt) (acc : dict) :
  (forall a item, In item body -> env_no_bytes a = true ->
     (forall a', step a item = Ok a' -> env_no_bytes a' = true)
     /\ (forall e, step a item = Raise e -> e = ValueError)) ->
  env_no_bytes acc = true ->
  (forall r, run_items step body acc = Ok r -> env_no_bytes r = true)
  /\ (forall e, run_items step body acc = Raise e -> e = ValueError).
Proof.
  revert acc. induction body as [|item body IH]; intros acc Hstep Hacc; simpl.
  - split; [intros r E; inversion E; subst; exact Hacc | discriminate].
  - destruct (Hstep acc item (or_introl eq_refl) Hacc) as (Hok & Hex).
    destruct (step acc item) as [a'|e1]; simpl.
    + apply IH; [|now apply Hok]. intros a i Hi. apply Hstep. now right.
    + split; [discriminate | intros e E; inversion E; subst; now apply Hex].
Qed.

Lemma module_item_without_bytes (B : builtins) constants node :
  stmt_has_bytes node = false -> env_no_bytes constants = true ->
  (forall c, module_item B constants node = Ok c -> env_no_bytes c = true)
  /\ (forall e, module_item B constants node = Raise e -> e = ValueError).
Proof.
  intros Hn Hc.
  assert (Hkeep : (forall c, Ok constants = Ok c -> env_no_bytes c = true)
                  /\ (forall e, @Ok dict constants = Raise e -> e = ValueError))
    by (split; [intros c E; inversion E; subst; exact Hc | discriminate]).
  destruct node as [targets v| | | |]; simpl; trivial.
  destruct targets as [|[] [|]]; trivial.
  destruct (eval_node_without_bytes B v constants Hn Hc) as (Hok & Hex).
  destruct (_eval_node B v constants) as [val|e1]; simpl.
  - split; [|discriminate]. intros c E. inversion E; subst.
    destruct (is_plain_value val); auto using dict_set_no_bytes.
  - split; [discriminate | intros e E; inversion E; subst; now apply Hex].
Qed.

Lemma class_item_without_bytes (B : builtins) constants assigns item :
  stmt_has_bytes item = false -> env_no_bytes constants = true ->
  env_no_bytes assigns = true ->
  (forall a, class_item B constants assigns item = Ok a -> env_no_bytes a = true)
  /\ (forall e, class_item B constants assigns item = Raise e -> e = ValueError).
Proof.
  intros Hi Hc Ha.
  pose proof (dict_union_no_bytes _ _ Hc Ha) as Hu.
  assert (Hkeep : (forall a, Ok assigns = Ok a -> env_no_bytes a = true)
                  /\ (forall e, @Ok dict assigns = Raise e -> e = ValueError))
    by (split; [intros a E; inversion E; subst; exact Ha | discriminate]).
  destruct item as [targets v|target v|target op v| |]; simpl; trivial.
  - destruct targets as [|[] [|]]; trivial.
    destruct (eval_node_without_bytes B v _ Hi Hu) as (Hok & Hex).
    destruct (_eval_node B v _) as [val|e1]; simpl.
    + split; [|discriminate]. intros a E. inversion E; subst.
      destruct (is_none val); auto using dict_set_no_bytes.
    + split; [discriminate | intros e E; inversion E; subst; now apply Hex].
  - destruct target; trivial. destruct v as [v|]; simpl; trivial.
    destruct (eval_node_without_bytes B v _ Hi Hu) as (Hok & Hex).
    destruct (_eval_node B v _) as [val|e1]; simpl.
    + split; [|discriminate]. intros a E. inversion E; subst.
      destruct (is_none val); auto using dict_set_no_bytes.
    + split; [discriminate | intros e E; inversion E; subst; now apply Hex].
  - destruct target; trivial. destruct op; trivial.
    destruct (eval_node_without_bytes B v _ Hi Hu) as (Hok & Hex).
    destruct (_eval_node B v _) as [val|e1]; simpl.
    + split; [|destruct (get assigns id); try discriminate; destruct val; discriminate].
      intros a. destruct (get assigns id); try (intros E; inversion E; subst; exact Ha).
      destruct val; intros E; inversion E; subst; trivial.
      now apply dict_set_no_bytes.
    + split; [discriminate | intros e E; inversion E; subst; now apply Hex].
Qed.

Lemma as_str_raise (B : builtins) v e : _as_str B v = Raise e -> e = ValueError.
Proof.
  destruct v; simpl; try discriminate;
    (destruct (str_call B _) eqn:Hs; simpl; [discriminate|]);
    intros E; inversion E; subst; eapply str_call_raise; exact Hs.
Qed.

Lemma feeds_to_endpoints_raise (B : builtins) feeds e :
  _feeds_to_endpoints B feeds = Raise e -> e = ValueError.
Proof.
  unfold _feeds_to_endpoints.
  destruct (mapM _ (feed_entries feeds)) as [found|e1] eqn:Hm; simpl; [discriminate|].
  intros E. inversion E; subst. apply mapM_raise in Hm as (entry & _ & Hentry).
  assert (Htitled : forall t u, titled_feed_hit B t u = Raise e -> e = ValueError).
  { intros t u. unfold titled_feed_hit. destruct (truthy _); [|discriminate].
    destruct (is_none (decode_if_bytes B t)); simpl; [discriminate|].
    destruct (str_call B _) eqn:Hs; simpl; [discriminate|].
    intros E'. inversion E'; subst. eapply str_call_raise. exact Hs. }
  destruct entry as [| | | | | | | |items|items]; simpl in Hentry; try discriminate;
    destruct items as [|t [|u rest]]; try discriminate; eauto.
Qed.

(** X7. The same for a whole document: when the tree has no byte-string
    literal on the right-hand side of an assignment, [parse_recipe_file]
    does not raise the [TypeError] of the folder. *)
Theorem parse_recipe_file_no_type_error (B : builtins) (text : string) (tree : module) :
  ast_parse B (unescape B text) = Parsed tree ->
  existsb stmt_has_bytes tree = false ->
  parse_recipe_file B text <> Raise TypeError.
Proof.
  intros Hparse Htree.
  enough (H : forall e, parse_recipe_file B text = Raise e -> e = ValueError)
    by (intros E; apply H in E; discriminate E).
  unfold parse_recipe_file. rewrite Hparse.
  destruct (run_items_without_bytes (module_item B) tree []) as (Hc & Hcx); trivial.
  { intros a item Hin Ha. apply module_item_without_bytes; trivial.
    eapply existsb_false_in; eauto. }
  unfold _collect_module_constants.
  destruct (run_items (module_item B) tree []) as [constants|e1]; simpl;
    [|intros e E; inversion E; subst; now apply Hcx].
  specialize (Hc _ eq_refl).
  assert (Hassigns : forall e,
             match _find_recipe_class tree with
             | Some node => _extract_class_assignments B node constants
             | None => Ok []
             end = Raise e -> e = ValueError).
  { destruct (_find_recipe_class tree) as [node|] eqn:Hfind; [|discriminate].
    apply find_some in Hfind as (Hin & Hclass).
    destruct node as [| | |name bases body|]; try discriminate.
    unfold _extract_class_assignments. simpl node_body.
    apply (run_items_without_bytes (class_item B constants) body []); trivial.
    intros a item Hi Ha. apply class_item_without_bytes; trivial.
    eapply existsb_false_in; [|exact Hi].
    apply (existsb_false_in stmt_has_bytes _ _ Htree Hin). }
  destruct (match _find_recipe_class tree with
            | Some node => _extract_class_assignments B node constants
            | None => Ok []
            end) as [assigns|e2]; simpl;
    [|intros e E; inversion E; subst; now apply Hassigns].
  repeat (destruct (_as_str B _) as [?|?] eqn:Hs; simpl;
          [clear Hs | intros err E; inversion E; subst; eapply as_str_raise; exact Hs]).
  destruct (_feeds_to_endpoints B _) as [feeds_hits|e3] eqn:Hfeeds; simpl;
    [intros e E; discriminate E|].
  intros e E. inversion E; subst. eapply feeds_to_endpoints_raise. exact Hfeeds.
Qed.

Lemma parse_recipe_file_no_type_error_witness :
  ast_parse (builtins_parsing example_tree)
    (unescape (builtins_parsing example_tree) "text of the example") = Parsed example_tree
  /\ existsb stmt_has_bytes example_tree = false
  /\ parse_recipe_file (builtins_parsing example_tree) "text of the example"
     <> Raise TypeError.
Proof.
  split; [reflexivity|]. split; [reflexivity|].
  apply (parse_recipe_file_no_type_error (builtins_parsing example_tree)
           "text of the example" example_tree); reflexivity.
Defined.

(** [str] is applied outside any [try] to the value of each of the six
    metadata attributes that is neither [None], a string nor a byte-string:
    its [ValueError] leaves [parse_recipe_file]. *)
Lemma parse_recipe_file_value_error (B : builtins) (text : string) (tree : module)
    (constants assigns : dict) (name : string) :
  ast_parse B (unescape B text) = Parsed tree ->
  _collect_module_constants B tree = Ok constants ->
  match _find_recipe_class tree with
  | Some node => _extract_class_assignments B node constants
  | None => Ok []
  end = Ok assigns ->
  In name ["title"; "__author__"; "description"; "language"; "publication_type";
           "needs_subscription"] ->
  str_raises B (get assigns name) = true ->
  parse_recipe_file B text = Raise ValueError.
Proof.
  intros Hparse Hconstants Hassigns Hname Hraises.
  assert (Hcase : _as_str B (get assigns name) = Raise ValueError).
  { destruct (get assigns name); try (simpl in Hraises; discriminate Hraises);
      unfold _as_str; cbv iota; unfold str_call; rewrite Hraises; reflexivity. }
  unfold parse_recipe_file. rewrite Hparse, Hconstants. cbn [bind]. cbv zeta.
  rewrite Hassigns. cbn [bind].
  simpl in Hname.
  destruct Hname as [<- | [<- | [<- | [<- | [<- | [<- | []]]]]]];
    repeat match goal with
           | |- context [_as_str B (get assigns ?k)] =>
               first [ rewrite Hcase; reflexivity
                     | let Hs := fresh "Hs" in
                       destruct (_as_str B (get assigns k)) as [?|?] eqn:Hs; cbn [bind];
                       [clear Hs | apply as_str_raise in Hs; subst; reflexivity] ]
           end.
Qed.

(** X8. A metadata attribute that holds an [int] with more digits than
    [str] converts (itself, or as an item of a list or tuple) keeps
    [parse_recipe_file] from returning: when the walkers get through, the
    conversion of the attribute to text raises, outside any [try]. *)
Theorem parse_recipe_file_str_raises (B : builtins) (text : string) (tree : module)
    (constants assigns : dict) (name : string) :
  ast_parse B (unescape B text) = Parsed tree ->
  _collect_module_constants B tree = Ok constants ->
  match _find_recipe_class tree with
  | Some node => _extract_class_assignments B node constants
  | None => Ok []
  end = Ok assigns ->
  In name ["title"; "__author__"; "description"; "language"; "publication_type";
           "needs_subscription"] ->
  str_raises B (get assigns name) = true ->
  (exists e, parse_recipe_file B text = Raise e)
  /\ forall meta hits err, parse_recipe_file B text <> Ok (meta, hits, err).
Proof.
  intros Hparse Hconstants Hassigns Hname Hraises.
  rewrite (parse_recipe_file_value_error B text tree constants assigns name
             Hparse Hconstants Hassigns Hname Hraises).
  split; [now exists ValueError | discriminate].
Qed.

Lemma parse_recipe_file_str_raises_witness :
  str_raises (builtins_parsing huge_title_tree) (VInt (10 ^ 4300)) = true
  /\ exists e,
      parse_recipe_file (builtins_parsing huge_title_tree) "text of the example" = Raise e.
Proof.
  split; [vm_compute; reflexivity|].
  apply (parse_recipe_file_str_raises (builtins_parsing huge_title_tree)
           "text of the example" huge_title_tree [] [("title", VInt (10 ^ 4300))] "title");
    [reflexivity | reflexivity | reflexivity | simpl; auto | vm_compute; reflexivity].
Defined.

(** ** recipe_parser.py: what the walkers keep *)

Lemma dict_set_in (d : dict) k v k' v' :
  In (k', v') (dict_set d k v) -> (k' = k /\ v' = v) \/ In (k', v') d.
Proof.
  induction d as [|[k1 v1] d IH]; simpl.
  - intros [E | []]. inversion E; auto.
  - destruct (String.eqb_spec k1 k) as [->|Hne]; simpl.
    + intros [E | H]; [inversion E; auto | auto].
    + intros [E | H]; [auto | destruct (IH H); auto].
Qed.

Lemma dict_set_keys (d : dict) k v k' :
  In k' (map fst (dict_set d k v)) -> k' = k \/ In k' (map fst d).
Proof.
  rewrite !in_map_iff. intros ([k1 v1] & <- & H). simpl.
  apply dict_set_in in H as [(-> & _) | H]; auto.
  right. exists (k1, v1). auto.
Qed.

Lemma dict_set_nodup (d : dict) k v :
  NoDup (map fst d) -> NoDup (map fst (dict_set d k v)).
Proof.
  induction d as [|[k1 v1] d IH]; simpl; intros H.
  - constructor; [intros [] | constructor].
  - inversion H as [|? ? Hfresh Hd]; subst.
    destruct (String.eqb_spec k1 k) as [->|Hne]; simpl.
    + now constructor.
    + constructor; [|now apply IH].
      intros Hin. apply dict_set_keys in Hin as [-> | Hin]; [now elim Hne | contradiction].
Qed.

Lemma dict_get_in (d : dict) k v : dict_get d k = Some v -> In (k, v) d.
Proof.
  induction d as [|[k1 v1] d IH]; simpl; [discriminate|].
  destruct (String.eqb_spec k1 k) as [->|]; [intros E; inversion E; auto | auto].
Qed.

Lemma dict_get_none (d : dict) k : dict_get d k = None <-> ~ In k (map fst d).
Proof.
  induction d as [|[k1 v1] d IH]; simpl; [tauto|].
  destruct (String.eqb_spec k1 k) as [->|Hne].
  - split; [discriminate | intros H; elim H; auto].
  - rewrite IH. tauto.
Qed.

Lemma dict_get_set_other (d : dict) k v k' :
  k' <> k -> dict_get (dict_set d k v) k' = dict_get d k'.
Proof.
  intros Hne. induction d as [|[k1 v1] d IH]; simpl.
  - destruct (String.eqb_spec k k'); [congruence | reflexivity].
  - destruct (String.eqb_spec k1 k) as [->|]; simpl.
    + destruct (String.eqb_spec k k'); [congruence | reflexivity].
    + now rewrite IH.
Qed.

Lemma dict_get_union (a b : dict) k :
  NoDup (map fst b) ->
  dict_get (dict_union a b) k
  = match dict_get b k with Some v => Some v | None => dict_get a k end.
Proof.
  unfold dict_union. revert a. induction b as [|[k1 v1] b IH]; intros a Hb; simpl; trivial.
  inversion Hb as [|? ? Hfresh Hb']; subst. rewrite IH by exact Hb'.
  destruct (String.eqb_spec k1 k) as [->|Hne].
  - apply dict_get_none in Hfresh. now rewrite Hfresh, dict_get_set_same.
  - rewrite dict_get_set_other by congruence. reflexivity.
Qed.

Lemma run_items_inv (Inv : dict -> Prop) step (body : list stmt) (acc r : dict) :
  (forall a item a', In item body -> Inv a -> step a item = Ok a' -> Inv a') ->
  Inv acc -> run_items step body acc = Ok r -> Inv r.
Proof.
  revert acc. induction body as [|item body IH]; intros acc Hstep Hacc; simpl.
  - intros E. now inversion E; subst.
  - destruct (step acc item) as [a'|] eqn:Hs; simpl; [|discriminate].
    apply IH; [intros a i a2 Hi; apply Hstep; now right|].
    eapply Hstep; eauto. now left.
Qed.

(** X9. The module constants hold one entry per name, every value is a
    string, byte-string, number, list or tuple, and every name is the
    target of a top-level assignment to that single name. *)
Theorem collected_constants_invariant (B : builtins) (tree : module) (constants : dict) :
  _collect_module_constants B tree = Ok constants ->
  NoDup (map fst constants)
  /\ forall k v, In (k, v) constants ->
                 is_plain_value v = true
                 /\ exists value, In (Assign [Name k] value) tree.
Proof.
  unfold _collect_module_constants.
  apply (run_items_inv
           (fun d => NoDup (map fst d)
                     /\ forall k v, In (k, v) d ->
                                    is_plain_value v = true
                                    /\ exists value, In (Assign [Name k] value) tree)).
  - intros a item a' Hin (Hnd & Hall) Hstep.
    destruct item as [targets value| | | |]; simpl in Hstep;
      try (inversion Hstep; subst; auto; fail).
    destruct targets as [|[] [|]];
      try (inversion Hstep; subst; auto; fail).
    destruct (_eval_node B value a) as [val|]; simpl in Hstep; [|discriminate].
    destruct (is_plain_value val) eqn:Hplain; inversion Hstep; subst; auto.
    split; [now apply dict_set_nodup|].
    intros k v Hkv. apply dict_set_in in Hkv as [(-> & ->) | Hkv]; eauto.
  - split; [constructor | intros ? ? []].
Qed.

Lemma collected_constants_invariant_witness :
  _collect_module_constants rejecting_builtins
    [Assign [Name "base"] (Constant (CStr "http://ex.com"));
     Assign [Name "feed"] (BinOp (Name "base") Add (Constant (CStr "/rss")))]
  = Ok [("base", VStr "http://ex.com"); ("feed", VStr "http://ex.com/rss")]
  /\ NoDup (map fst [("base", VStr "http://ex.com"); ("feed", VStr "http://ex.com/rss")]).
Proof.
  split; [reflexivity|].
  apply (collected_constants_invariant rejecting_builtins
           [Assign [Name "base"] (Constant (CStr "http://ex.com"));
            Assign [Name "feed"] (BinOp (Name "base") Add (Constant (CStr "/rss")))]).
  reflexivity.
Defined.

(** X10. The class attributes hold one entry per name, no stored value is
    [None], and every name is assigned by a statement of the class body;
    so an attribute reads as [None] exactly when it has no entry. *)
Theorem class_assignments_invariant (B : builtins) (node : stmt)
    (constants assigns : dict) :
  _extract_class_assignments B node constants = Ok assigns ->
  NoDup (map fst assigns)
  /\ (forall k v, In (k, v) assigns ->
                  v <> VNone
                  /\ exists item, In item (node_body node) /\ assigned_name item = Some k)
  /\ (forall k, get assigns k = VNone <-> ~ In k (map fst assigns)).
Proof.
  intros Hrun.
  assert (Hinv : NoDup (map fst assigns)
                 /\ forall k v, In (k, v) assigns ->
                      v <> VNone
                      /\ exists item, In item (node_body node)
                                      /\ assigned_name item = Some k).
  { revert Hrun. unfold _extract_class_assignments.
    apply (run_items_inv
             (fun d => NoDup (map fst d)
                       /\ forall k v, In (k, v) d ->
                            v <> VNone
                            /\ exists item, In item (node_body node)
                                            /\ assigned_name item = Some k)).
    - intros a item a' Hin (Hnd & Hall) Hstep.
      destruct item as [targets value|target value|target op value| |];
        simpl in Hstep; try (inversion Hstep; subst; auto; fail).
      + destruct targets as [|[] [|]];
          try (inversion Hstep; subst; auto; fail).
        destruct (_eval_node B value _) as [val|]; simpl in Hstep; [|discriminate].
        destruct val; simpl in Hstep; inversion Hstep; subst; auto;
          (split; [now apply dict_set_nodup|]);
          intros k v Hkv; apply dict_set_in in Hkv as [(-> & ->) | Hkv]; auto;
          (split; [discriminate | eexists; split; [exact Hin | reflexivity]]).
      + destruct target; try (inversion Hstep; subst; auto; fail).
        destruct (match value with
                  | Some v => _eval_node B v (dict_union constants a)
                  | None => Ok VNone
                  end) as [val|]; simpl in Hstep; [|discriminate].
        destruct val; simpl in Hstep; inversion Hstep; subst; auto;
          (split; [now apply dict_set_nodup|]);
          intros k v Hkv; apply dict_set_in in Hkv as [(-> & ->) | Hkv]; auto;
          (split; [discriminate | eexists; split; [exact Hin | reflexivity]]).
      + destruct target; try (inversion Hstep; subst; auto; fail).
        destruct op; try (inversion Hstep; subst; auto; fail).
        destruct (_eval_node B value _) as [extra|]; simpl in Hstep; [|discriminate].
        destruct (get a id); try (inversion Hstep; subst; auto; fail).
        destruct extra; inversion Hstep; subst; auto.
        split; [now apply dict_set_nodup|].
        intros k v Hkv. apply dict_set_in in Hkv as [(-> & ->) | Hkv]; auto.
        split; [discriminate | eexists; split; [exact Hin | reflexivity]].
    - split; [constructor | intros ? ? []]. }
  destruct Hinv as (Hnd & Hall).
  split; [exact Hnd | split; [exact Hall | intros k; split]].
  - unfold get. destruct (dict_get assigns k) as [v|] eqn:E.
    + intros ->. apply dict_get_in in E. now destruct (Hall _ _ E).
    + intros _. now apply dict_get_none.
  - intros Hk. unfold get. apply dict_get_none in Hk. now rewrite Hk.
Qed.

Lemma class_assignments_invariant_witness :
  _extract_class_assignments rejecting_builtins
    (ClassDef "R" [Name "BasicNewsRecipe"]
       [Assign [Name "title"] (Constant (CStr "Example"));
        Assign [Name "language"] (Name "undefined")]) []
  = Ok [("title", VStr "Example")]
  /\ (get [("title", VStr "Example")] "language" = VNone
      <-> ~ In "language" (map fst [("title", VStr "Example")])).
Proof.
  split; [reflexivity|].
  apply (class_assignments_invariant rejecting_builtins
           (ClassDef "R" [Name "BasicNewsRecipe"]
              [Assign [Name "title"] (Constant (CStr "Example"));
               Assign [Name "language"] (Name "undefined")]) []).
  reflexivity.
Defined.

(** X11. While the class body is folded, a name refers to the class
    attribute stored under it, if there is one, and to the module constant
    otherwise. *)
Theorem class_scope_shadows_module (B : builtins) (constants assigns : dict)
    (id : string) :
  NoDup (map fst assigns) ->
  _eval_node B (Name id) (dict_union constants assigns)
  = Ok (match dict_get assigns id with
        | Some v => v
        | None => get constants id
        end).
Proof.
  intros Hnd. simpl. unfold get. rewrite dict_get_union by exact Hnd.
  now destruct (dict_get assigns id).
Qed.

Lemma class_scope_shadows_module_witness :
  NoDup (map fst [("title", VStr "Class")])
  /\ _eval_node rejecting_builtins (Name "title")
       (dict_union [("title", VStr "Module"); ("lang", VStr "en")] [("title", VStr "Class")])
     = Ok (VStr "Class").
Proof.
  split; [repeat constructor; intros []|].
  apply (class_scope_shadows_module rejecting_builtins
           [("title", VStr "Module"); ("lang", VStr "en")] [("title", VStr "Class")] "title").
  repeat constructor. intros [].
Defined.

(** [_find_recipe_class] returns the first top-level statement that
    is a class with a recognized base, and nothing when there is none. *)
Theorem find_recipe_class_first (tree : module) :
  match _find_recipe_class tree with
  | Some node =>
      exists before after name bases body,
        tree = (before ++ node :: after)%list
        /\ node = ClassDef name bases body
        /\ existsb _is_recipe_base bases = true
        /\ Forall (fun s => is_recipe_class s = false) before
  | None => Forall (fun s => is_recipe_class s = false) tree
  end.
Proof.
  unfold _find_recipe_class. fold is_recipe_class.
  change (fun node : stmt =>
            match node with
            | ClassDef _ bases _ => existsb _is_recipe_base bases
            | _ => false
            end) with is_recipe_class.
  induction tree as [|s tree IH]; simpl; [constructor|].
  destruct (is_recipe_class s) eqn:Hs.
  - destruct s as [| | |name bases body|]; try discriminate.
    exists [], tree, name, bases, body. repeat split; trivial.
  - destruct (find is_recipe_class tree) as [node|].
    + destruct IH as (before & after & name & bases & body & -> & -> & Hb & Hbefore).
      exists (s :: before), after, name, bases, body. repeat split; trivial.
      now constructor.
    + now constructor.
Qed.

(** ** recipe_parser.py: provenance of the hits *)

Lemma collect_hits_length {A} (f : A -> option EndpointHit) (l : list A) :
  List.length (collect_hits f l) <= List.length l.
Proof.
  unfold collect_hits. induction l as [|x l IH]; simpl; trivial.
  rewrite length_app. destruct (f x); simpl; lia.
Qed.

(** X12. Every hit of the feeds list comes from one of its entries and has
    source feeds, type feed whatever its URL looks like, and no context.
    The hit of a bare URL (a string or byte-string entry) has confidence
    0.95, no feed title and the entry as raw_url; the hit of a titled pair
    (a list or tuple of two or more items) has confidence 0.98 and the text
    of its first item as feed title, none when that item is [None].  There
    is at most one hit per entry, hence none when [feeds] is not a list or
    tuple. *)
Theorem feeds_hits_provenance (B : builtins) (feeds : value) (hits : list EndpointHit) :
  _feeds_to_endpoints B feeds = Ok hits ->
  let entries := match feeds with
                 | VList entries | VTuple entries => entries
                 | _ => []
                 end in
  List.length hits <= List.length entries
  /\ forall h, In h hits ->
       source h = "feeds" /\ url_type h = "feed" /\ context h = None
       /\ exists entry,
           In entry entries
           /\ match entry with
              | VStr _ | VBytes _ =>
                  confidence h = 0.95%float /\ feed_title h = None
                  /\ raw_url h = Some entry
              | VList (t :: _ :: _) | VTuple (t :: _ :: _) =>
                  confidence h = 0.98%float
                  /\ feed_title h = (if is_none t then None
                                     else Some (py_str B (decode_if_bytes B t)))
              | _ => False
              end.
Proof.
  intros Hrun entries.
  assert (Hentries : entries = feed_entries feeds) by (destruct feeds; reflexivity).
  rewrite Hentries. clear Hentries entries. split.
  - unfold _feeds_to_endpoints in Hrun.
    destruct (mapM _ (feed_entries feeds)) as [found|e] eqn:Hm; simpl in Hrun;
      [|discriminate].
    inversion Hrun; subst; clear Hrun. apply mapM_in in Hm as (<- & _).
    apply collect_hits_length.
  - intros h Hin.
    destruct (feeds_to_endpoints_in B _ _ _ Hrun Hin) as (entry & Hentry & Hhit).
    assert (Hbare : forall text, bare_feed_hit entry text = Some h ->
              source h = "feeds" /\ url_type h = "feed" /\ context h = None
              /\ confidence h = 0.95%float /\ feed_title h = None
              /\ raw_url h = Some entry).
    { intros text. unfold bare_feed_hit. destruct (truthy _); [|discriminate].
      intros E. inversion E; subst; clear E. simpl. auto 7. }
    assert (Htitled : forall t u, titled_feed_hit B t u = Ok (Some h) ->
              source h = "feeds" /\ url_type h = "feed" /\ context h = None
              /\ confidence h = 0.98%float
              /\ feed_title h = (if is_none t then None
                                 else Some (py_str B (decode_if_bytes B t)))).
    { intros t u. unfold titled_feed_hit. destruct (truthy _); [|discriminate].
      assert (Hnone : is_none (decode_if_bytes B t) = is_none t) by now destruct t.
      rewrite Hnone. destruct (is_none t); simpl.
      - intros E. inversion E; subst; clear E. simpl. auto 7.
      - unfold str_call. destruct (str_raises B _); simpl; [discriminate|].
        intros E. inversion E; subst; clear E. simpl. auto 7. }
    destruct entry as [| | | | | |s|b|items|items]; simpl in Hhit; try discriminate.
    + inversion Hhit as [Hb]. destruct (Hbare _ Hb) as (? & ? & ? & ?).
      repeat split; trivial. exists (VStr s). auto.
    + inversion Hhit as [Hb]. destruct (Hbare _ Hb) as (? & ? & ? & ?).
      repeat split; trivial. exists (VBytes b). auto.
    + destruct items as [|t [|u rest]]; try discriminate.
      destruct (Htitled _ _ Hhit) as (? & ? & ? & ?).
      repeat split; trivial. exists (VList (t :: u :: rest)). auto.
    + destruct items as [|t [|u rest]]; try discriminate.
      destruct (Htitled _ _ Hhit) as (? & ? & ? & ?).
      repeat split; trivial. exists (VTuple (t :: u :: rest)). auto.
Qed.

Lemma feeds_hits_provenance_witness :
  exists hits,
    _feeds_to_endpoints rejecting_builtins
      (VList [VStr "http://ex.com/a.rss";
              VTuple [VStr "Tech"; VStr "http://ex.com/tech.rss"]]) = Ok hits
    /\ map feed_title hits = [None; Some "Tech"]
    /\ List.length hits <= 2.
Proof.
  assert (Hrun : exists hits,
             _feeds_to_endpoints rejecting_builtins
               (VList [VStr "http://ex.com/a.rss";
                       VTuple [VStr "Tech"; VStr "http://ex.com/tech.rss"]]) = Ok hits
             /\ map feed_title hits = [None; Some "Tech"])
    by (eexists; split; reflexivity).
  destruct Hrun as (hits & Hrun & Htitles).
  exists hits. split; [exact Hrun|]. split; [exact Htitles|].
  exact (proj1 (feeds_hits_provenance rejecting_builtins _ hits Hrun)).
Defined.

(** X13. Every hit of the attribute extractor has source attr, confidence
    0.8 and no feed title; its context is the name of an attribute whose
    lower-cased name contains url and whose value is a string or a
    byte-string; and when that name also contains feed the type is feed. *)
Theorem attr_hits_provenance (B : builtins) (assigns : dict) :
  Forall (fun h => source h = "attr" /\ confidence h = 0.8%float /\ feed_title h = None
                   /\ exists name v,
                       In (name, v) assigns /\ context h = Some name
                       /\ Occurs "url" (lower name) /\ is_str_or_bytes v = true
                       /\ (Occurs "feed" (lower name) -> url_type h = "feed"))
         (_attr_url_hits B assigns).
Proof.
  apply collect_hits_Forall. intros [name v] h Hin. unfold attr_hit.
  destruct (contains "url" (lower name)) eqn:Hurl; [|discriminate].
  destruct (is_str_or_bytes v) eqn:Hv; [|discriminate]. simpl.
  destruct (truthy _) as [u|]; [|discriminate].
  intros E. inversion E; subst; clear E. simpl. repeat split.
  exists name, v. repeat split; trivial; [now apply contains_iff|].
  intros Hfeed. unfold classify_url.
  assert (Ha : attr_names_feed (Some name) = true)
    by (apply attr_names_feed_iff; eauto).
  now rewrite Ha.
Qed.

(** X14. Whenever [parse_recipe_file] returns, its hits start with those of
    the literal scanner; and when it reports no class name (the parse
    failed, or no class with a recognized base was found) there are no
    other hits and every metadata field is null. *)
Theorem parse_recipe_file_without_class (B : builtins) (text : string)
    (meta : RecipeMetadata) (hits : list EndpointHit) (err : option string) :
  parse_recipe_file B text = Ok (meta, hits, err) ->
  exists more,
    hits = (collect_hits literal_hit (find_urls_in_text (unescape B text)) ++ more)%list
    /\ (class_name meta = None ->
        more = [] /\ title meta = None /\ author meta = None
        /\ description meta = None /\ language meta = None
        /\ publication_type meta = None /\ needs_subscription meta = None).
Proof.
  unfold parse_recipe_file.
  destruct (ast_parse B (unescape B text)) as [tree|exc|e].
  - destruct (_collect_module_constants B tree) as [constants|]; simpl; [|discriminate].
    destruct (_find_recipe_class tree) as [node|] eqn:Hfind.
    + destruct (_extract_class_assignments B node constants) as [assigns|]; simpl;
        [|discriminate].
      repeat (destruct (_as_str B _) as [?|?]; simpl; [|discriminate]).
      destruct (_feeds_to_endpoints B _) as [feeds_hits|]; simpl; [|discriminate].
      intros E. inversion E; subst; clear E. eexists. split; [reflexivity|].
      simpl. apply find_some in Hfind as (_ & Hclass).
      destruct node; discriminate.
    + simpl. intros E. inversion E; subst; clear E. exists []. simpl.
      repeat split; reflexivity.
  - intros E. inversion E; subst; clear E. exists []. simpl.
    rewrite app_nil_r. repeat split; reflexivity.
  - discriminate.
Qed.

Lemma parse_recipe_file_without_class_witness :
  exists meta hits,
    parse_recipe_file
      (builtins_parsing [ClassDef "Helper" [Name "object"]
                           [Assign [Name "title"] (Constant (CStr "ignored"))]])
      "see http://ex.com/a" = Ok (meta, hits, None)
    /\ class_name meta = None /\ title meta = None
    /\ map url hits = ["http://ex.com/a"].
Proof.
  assert (Hrun : exists meta hits,
             parse_recipe_file
               (builtins_parsing [ClassDef "Helper" [Name "object"]
                                    [Assign [Name "title"] (Constant (CStr "ignored"))]])
               "see http://ex.com/a" = Ok (meta, hits, None)
             /\ class_name meta = None /\ map url hits = ["http://ex.com/a"])
    by (do 2 eexists; repeat split; reflexivity).
  destruct Hrun as (meta & hits & Hrun & Hclass & Hurls).
  exists meta, hits. repeat split; trivial.
  destruct (parse_recipe_file_without_class _ _ _ _ _ Hrun) as (more & _ & Hnull).
  now destruct (Hnull Hclass) as (_ & Htitle & _).
Defined.

(** ** db.py: upserts *)

Section UpsertFacts.
Context {row : Type} (same_key : row -> bool) (update : row -> row) (fresh : row).

(** An upsert either rewrites the first row holding the key and leaves
    every other row alone, or appends the fresh row. *)
Lemma upsert_row_cases (table : list row) :
  (exists before old after,
      table = (before ++ old :: after)%list
      /\ same_key old = true
      /\ Forall (fun r => same_key r = false) before
      /\ upsert_row same_key update fresh table = (before ++ update old :: after)%list)
  \/ (Forall (fun r => same_key r = false) table
      /\ upsert_row same_key update fresh table = (table ++ [fresh])%list).
Proof.
  induction table as [|r table IH]; simpl.
  - right. split; [constructor | reflexivity].
  - destruct (same_key r) eqn:Hr.
    + left. exists [], r, table. repeat split; trivial.
    + destruct IH as [(before & old & after & -> & Hold & Hb & ->) | (Hall & ->)].
      * left. exists (r :: before), old, after. repeat split; trivial. now constructor.
      * right. split; [now constructor | reflexivity].
Qed.

Lemma find_skip (before : list row) r after :
  Forall (fun x => same_key x = false) before -> same_key r = true ->
  find same_key (before ++ r :: after) = Some r.
Proof.
  induction 1 as [|x before Hx _ IH]; intros Hr; simpl; [now rewrite Hr|].
  rewrite Hx. now apply IH.
Qed.

End UpsertFacts.

Lemma fresh_id_above (ids : list Z) : forall i, In i ids -> (i < fresh_id ids)%Z.
Proof.
  unfold fresh_id. induction ids as [|j ids IH]; simpl; [contradiction|].
  intros i [-> | Hin]; [lia | specialize (IH i Hin); lia].
Qed.

Lemma insert_or_touch_cases (table : list link_row) (new : link_row) :
  (exists before old after,
      table = (before ++ old :: after)%list
      /\ link_conflict new old = true
      /\ Forall (fun r => link_conflict new r = false) before
      /\ insert_or_touch table new
         = (before ++ set_last_seen (l_last_seen new) old :: after)%list)
  \/ (Forall (fun r => link_conflict new r = false) table
      /\ insert_or_touch table new = (table ++ [new])%list).
Proof.
  induction table as [|r table IH]; simpl.
  - right. split; [constructor | reflexivity].
  - destruct (link_conflict new r) eqn:Hr.
    + left. exists [], r, table. repeat split; trivial.
    + destruct IH as [(before & old & after & -> & Hold & Hb & ->) | (Hall & ->)].
      * left. exists (r :: before), old, after. repeat split; trivial. now constructor.
      * right. split; [now constructor | reflexivity].
Qed.

(** X15. [link_recipe_endpoint] never removes a row and never changes
    anything but [last_seen]: either the first stored row that collides
    with the new key gets the new [last_seen] and every other row stays as
    it is, or nothing collides and the new row is appended. *)
Theorem link_recipe_endpoint_frame (ts : string) (conn : list link_row)
    (recipe_id endpoint_id : Z) (src : string) (ctx ft raw : option string)
    (conf : PrimFloat.float) :
  let new := {| l_recipe_id := recipe_id; l_endpoint_id := endpoint_id;
                l_context := ctx; l_feed_title := ft; l_source := src;
                l_confidence := conf; l_raw_url := raw;
                l_first_seen := ts; l_last_seen := ts |} in
  let conn' := link_recipe_endpoint ts conn recipe_id endpoint_id src ctx ft raw conf in
  (exists before old after,
      conn = (before ++ old :: after)%list
      /\ link_conflict new old = true
      /\ Forall (fun r => link_conflict new r = false) before
      /\ conn' = (before ++ set_last_seen ts old :: after)%list
      /\ l_first_seen (set_last_seen ts old) = l_first_seen old
      /\ l_confidence (set_last_seen ts old) = l_confidence old
      /\ l_raw_url (set_last_seen ts old) = l_raw_url old)
  \/ (Forall (fun r => link_conflict new r = false) conn
      /\ conn' = (conn ++ [new])%list).
Proof.
  intros new conn'.
  destruct (insert_or_touch_cases conn new)
    as [(before & old & after & Hc & Hold & Hb & Hr) | (Hall & Hr)].
  - left. exists before, old, after. repeat split; trivial.
  - right. split; trivial.
Qed.

(** X16. For a key without nulls that the table does not hold yet, linking
    twice leaves one row for it: the second link finds the row of the first
    and only moves its [last_seen]; [first_seen], [confidence] and
    [raw_url] stay those of the first link, whatever the second passes. *)
Theorem link_twice_keeps_first (conn : list link_row) (ts1 ts2 : string)
    (recipe_id endpoint_id : Z) (src ctx ft : string)
    (raw1 raw2 : option string) (conf1 conf2 : PrimFloat.float) :
  existsb (has_key recipe_id endpoint_id (Some ctx) (Some ft) src) conn = false ->
  let twice :=
    link_recipe_endpoint ts2
      (link_recipe_endpoint ts1 conn recipe_id endpoint_id src (Some ctx) (Some ft)
         raw1 conf1)
      recipe_id endpoint_id src (Some ctx) (Some ft) raw2 conf2 in
  twice = (conn ++ [{| l_recipe_id := recipe_id; l_endpoint_id := endpoint_id;
                       l_context := Some ctx; l_feed_title := Some ft; l_source := src;
                       l_confidence := conf1; l_raw_url := raw1;
                       l_first_seen := ts1; l_last_seen := ts2 |}])%list
  /\ List.length twice = S (List.length conn).
Proof.
  intros Hfresh twice. subst twice.
  rewrite (link_twice_full_key conn ts1 ts2 recipe_id endpoint_id src ctx ft
             raw1 raw2 conf1 conf2 Hfresh).
  split; [reflexivity|]. rewrite length_app. simpl. lia.
Qed.

Lemma link_twice_keeps_first_witness :
  existsb (has_key 1 7 (Some "feed_url") (Some "Tech") "attr") [] = false
  /\ link_recipe_endpoint "t2"
       (link_recipe_endpoint "t1" [] 1 7 "attr" (Some "feed_url") (Some "Tech")
          (Some "http://ex.com/a") 0.8%float)
       1 7 "attr" (Some "feed_url") (Some "Tech") (Some "http://ex.com/b") 0.6%float
     = [{| l_recipe_id := 1; l_endpoint_id := 7; l_context := Some "feed_url";
           l_feed_title := Some "Tech"; l_source := "attr"; l_confidence := 0.8%float;
           l_raw_url := Some "http://ex.com/a"; l_first_seen := "t1";
           l_last_seen := "t2" |}].
Proof.
  split; [reflexivity|].
  apply (proj1 (link_twice_keeps_first [] "t1" "t2" 1 7 "attr" "feed_url" "Tech"
                  (Some "http://ex.com/a") (Some "http://ex.com/b")
                  0.8%float 0.6%float eq_refl)).
Defined.

(** What one upsert does to the endpoints table, in the form the store loop
    and the facts below use. *)
Lemma upsert_endpoint_effect (urlsplit : string -> option url_parts)
    (conn : list endpoint_row) (u ty : string) (parts : url_parts) :
  urlsplit u = Some parts ->
  let conn' := fst (upsert_endpoint urlsplit conn u ty) in
  (exists r, snd (upsert_endpoint urlsplit conn u ty) = Ok (ep_id r)
             /\ In r conn' /\ ep_url r = u /\ ep_url_type r = ty)
  /\ (exists added, map ep_id conn' = (map ep_id conn ++ added)%list)
  /\ (NoDup (map ep_id conn) -> NoDup (map ep_id conn'))
  /\ (NoDup (map ep_url conn) -> NoDup (map ep_url conn')).
Proof.
  intros Hsplit.
  unfold upsert_endpoint. rewrite Hsplit. cbv zeta. simpl fst. simpl snd.
  unfold select_id.
  set (has_url := fun r => String.eqb (ep_url r) u).
  set (fresh := {| ep_id := fresh_id (map ep_id conn); ep_url := u; ep_url_type := ty;
                   ep_scheme := scheme parts; ep_domain := netloc parts;
                   ep_path := path parts; ep_query := query parts |}).
  destruct (upsert_row_cases has_url (set_url_type ty) fresh conn)
    as [(before & old & after & Hc & Hold & Hb & ->) | (Hall & ->)].
  - assert (Hu : ep_url old = u) by now apply String.eqb_eq.
    rewrite (find_skip has_url before (set_url_type ty old) after Hb)
      by (unfold has_url; simpl; now rewrite Hu, String.eqb_refl).
    repeat split.
    + exists (set_url_type ty old). repeat split; trivial.
      apply in_or_app. right. now left.
    + exists []. rewrite Hc, !map_app, app_nil_r. reflexivity.
    + rewrite Hc, !map_app. trivial.
    + rewrite Hc, !map_app. trivial.
  - rewrite (find_skip has_url conn fresh [] Hall)
      by (unfold has_url; simpl; apply String.eqb_refl).
    repeat split.
    + exists fresh. repeat split; trivial. apply in_or_app. right. now left.
    + exists [ep_id fresh]. now rewrite map_app.
    + intros Hnd. rewrite map_app. simpl.
      apply NoDup_app; [exact Hnd | repeat constructor; intros [] |].
      intros i Hi [<- | []]. apply fresh_id_above in Hi. lia.
    + intros Hnd. rewrite map_app. simpl.
      apply NoDup_app; [exact Hnd | repeat constructor; intros [] |].
      intros x Hx [<- | []]. apply in_map_iff in Hx as (r & Hr & Hin).
      rewrite Forall_forall in Hall. specialize (Hall r Hin).
      unfold has_url in Hall. rewrite Hr, String.eqb_refl in Hall. discriminate.
Qed.


Lemma upsert_row_hit {row : Type} (same_key : row -> bool) (update : row -> row)
    (fresh : row) (before : list row) r after :
  Forall (fun x => same_key x = false) before -> same_key r = true ->
  upsert_row same_key update fresh (before ++ r :: after)
  = (before ++ update r :: after)%list.
Proof.
  induction 1 as [|x before Hx _ IH]; intros Hr; simpl; [now rewrite Hr|].
  rewrite Hx. now rewrite IH.
Qed.

(** After an upsert the table holds the key: the row is at a definite
    place, with no row of the same key before it. *)
Lemma upsert_row_holds {row : Type} (same_key : row -> bool) (update : row -> row)
    (fresh : row) (table : list row) :
  same_key fresh = true -> (forall r, same_key r = true -> same_key (update r) = true) ->
  exists before r after,
    upsert_row same_key update fresh table = (before ++ r :: after)%list
    /\ same_key r = true
    /\ Forall (fun x => same_key x = false) before.
Proof.
  intros Hfresh Hupd.
  destruct (upsert_row_cases same_key update fresh table)
    as [(before & old & after & _ & Hold & Hb & ->) | (Hall & ->)].
  - exists before, (update old), after. auto.
  - exists table, fresh, []. auto.
Qed.





(** ** extract_sources.py: storing hits *)

Lemma link_recipe_endpoint_ids (ts : string) (conn : list link_row)
    (recipe_id endpoint_id : Z) (src : string) (ctx ft raw : option string)
    (conf : PrimFloat.float) l :
  In l (link_recipe_endpoint ts conn recipe_id endpoint_id src ctx ft raw conf) ->
  l_endpoint_id l = endpoint_id
  \/ exists l0, In l0 conn /\ l_endpoint_id l = l_endpoint_id l0.
Proof.
  unfold link_recipe_endpoint.
  match goal with |- In l (insert_or_touch conn ?n) -> _ => set (new := n) end.
  destruct (insert_or_touch_cases conn new)
    as [(before & old & after & -> & _ & _ & ->) | (_ & ->)].
  - rewrite !in_app_iff. simpl. intros [H | [<- | H]].
    + right. exists l. rewrite in_app_iff. auto.
    + right. exists old. rewrite in_app_iff. simpl. auto.
    + right. exists l. rewrite in_app_iff. simpl. auto.
  - rewrite in_app_iff. simpl. intros [H | [<- | []]]; [right; eauto | now left].
Qed.

Section StoreHitsFacts.
Variable urlsplit : string -> option url_parts.
Variable now : nat -> string.
Variable recipe_id : Z.

Lemma store_hit_resolves (db : sources_db) (tick : nat) (hit : EndpointHit) :
  links_resolve db -> url_accepted urlsplit hit = true ->
  exists db' tick',
    store_hit urlsplit now recipe_id (db, tick) hit = Ok (db', tick')
    /\ links_resolve db'
    /\ (forall u, truthy (normalize_url (url hit)) = Some u ->
                  exists e, In e (db_endpoints db') /\ ep_url e = u).
Proof.
  intros Hres Hacc. unfold store_hit. unfold url_accepted in Hacc.
  destruct (truthy (normalize_url (url hit))) as [u|];
    [|exists db, tick; repeat split; trivial; intros ? E; discriminate E].
  - set (ty := if is_empty (url_type hit)
               then classify_url u (Some (source hit)) None else url_type hit).
    destruct (urlsplit u) as [parts|] eqn:Hsplit; [|discriminate].
    destruct (upsert_endpoint_effect urlsplit (db_endpoints db) u ty parts Hsplit)
      as ((r & Hid & Hin & Hurl & _) & (added & Hids) & _).
    destruct (upsert_endpoint urlsplit (db_endpoints db) u ty) as [eps rid] eqn:Hup.
    simpl in Hid, Hin, Hids. rewrite Hid. simpl.
    do 2 eexists. split; [reflexivity|]. split.
    + intros l Hl. simpl in *.
      apply link_recipe_endpoint_ids in Hl as [-> | (l0 & Hl0 & ->)]; [eauto|].
      destruct (Hres l0 Hl0) as (e & He & Heid).
      assert (Hi : In (ep_id e) (map ep_id eps))
        by (rewrite Hids, in_app_iff; left; now apply in_map).
      apply in_map_iff in Hi as (e' & He' & Hin'). exists e'. split; congruence.
    + intros u' E. inversion E; subst. simpl. eauto.
Qed.

Lemma store_hit_rejected (st : sources_db * nat) (hit : EndpointHit) :
  url_accepted urlsplit hit = false ->
  store_hit urlsplit now recipe_id st hit = Raise ValueError.
Proof.
  unfold url_accepted, store_hit. destruct st as [db tick].
  destruct (truthy (normalize_url (url hit))) as [u|]; [|discriminate].
  unfold upsert_endpoint. destruct (urlsplit u); [discriminate|]. reflexivity.
Qed.


End StoreHitsFacts.


(** ** fetch_news.py: the recipe filter *)

Lemma split_on_blank (v piece : string) :
  all_chars (fun c => isspace c || Ascii.eqb c ",") v = true ->
  all_chars isspace piece = true ->
  Forall (fun x => all_chars isspace x = true) (split_on "," v piece).
Proof.
  revert piece. induction v as [|c v IH]; intros piece Hv Hp; simpl.
  - now repeat constructor.
  - simpl in Hv. apply andb_true_iff in Hv as (Hc & Hv).
    destruct (Ascii.eqb c ",") eqn:Hcomma.
    + constructor; [exact Hp | now apply IH].
    + apply IH; trivial. rewrite all_chars_append, Hp. simpl.
      rewrite orb_false_r in Hc. now rewrite Hc.
Qed.

Lemma split_on_no_sep sep (s piece : string) :
  all_chars (fun c => negb (Ascii.eqb c sep)) piece = true ->
  Forall (fun x => all_chars (fun c => negb (Ascii.eqb c sep)) x = true)
         (split_on sep s piece).
Proof.
  revert piece. induction s as [|c s IH]; intros piece Hp; simpl.
  - now repeat constructor.
  - destruct (Ascii.eqb c sep) eqn:Hc.
    + constructor; [exact Hp | now apply IH].
    + apply IH. rewrite all_chars_append, Hp. simpl. now rewrite Hc.
Qed.

Lemma strip_by_chars p q (s : string) :
  all_chars q s = true -> all_chars q (strip_by p s) = true.
Proof.
  intros H. destruct (strip_by_split p s) as (pre & suf & Hs & _).
  rewrite Hs, !all_chars_append, !andb_true_iff in H. tauto.
Qed.

Lemma lstrip_by_all p (s : string) : all_chars p s = true -> lstrip_by p s = EmptyString.
Proof.
  induction s as [|c s IH]; simpl; trivial.
  rewrite andb_true_iff. intros (-> & Hs). now apply IH.
Qed.

Lemma no_char_no_occurrence (c : ascii) (s : string) :
  all_chars (fun x => negb (Ascii.eqb x c)) s = true -> ~ Occurs (String c EmptyString) s.
Proof.
  intros H (pre & post & ->). rewrite !all_chars_append in H. simpl in H.
  rewrite Ascii.eqb_refl in H. simpl in H. now rewrite andb_false_r in H.
Qed.

(** X21. Every name in the set [_parse_recipe_filter] returns is a piece of
    the option value between commas, stripped: it is not empty, has no
    whitespace at either end and contains no comma; and no name occurs
    twice. *)
Theorem parse_recipe_filter_members (value : option string) (names : list string) :
  _parse_recipe_filter value = Some names ->
  NoDup names
  /\ Forall (fun n => n <> EmptyString /\ head_outside isspace n
                      /\ last_outside isspace n /\ ~ Occurs "," n) names.
Proof.
  unfold _parse_recipe_filter. destruct value as [v|]; [|discriminate].
  destruct (is_empty v); [discriminate|]. intros E. inversion E; subst; clear E.
  split; [apply NoDup_nodup|].
  apply Forall_forall. intros n Hn. apply nodup_In in Hn.
  apply filter_In in Hn as (Hn & Hne). apply in_map_iff in Hn as (piece & <- & Hpiece).
  pose proof (split_on_no_sep "," v EmptyString eq_refl) as Hsplit.
  rewrite Forall_forall in Hsplit. specialize (Hsplit piece Hpiece).
  destruct (strip_by_split isspace piece) as (_ & _ & _ & _ & _ & Hh & Hl).
  repeat split; trivial.
  - intros E. unfold strip in E |- *. unfold strip in Hne. rewrite E in Hne. discriminate.
  - apply no_char_no_occurrence. now apply strip_by_chars.
Qed.

Lemma parse_recipe_filter_members_witness :
  _parse_recipe_filter (Some " a , b,,a ") = Some ["b"; "a"]
  /\ NoDup ["b"; "a"].
Proof.
  split; [reflexivity|].
  apply (parse_recipe_filter_members (Some " a , b,,a ") ["b"; "a"] eq_refl).
Defined.

(** X22. The test of the fetch loops skips a recipe exactly when the filter
    is a set that is not empty and does not hold the recipe's uid.  An
    option value made of commas and whitespace only gives the empty set,
    which is treated like no filter: no recipe is skipped. *)
Theorem blank_filter_skips_nothing (recipe_uid : string) :
  (forall names, skipped (Some names) recipe_uid = true
                 <-> names <> [] /\ ~ In recipe_uid names)
  /\ skipped None recipe_uid = false
  /\ forall v, all_chars (fun c => isspace c || Ascii.eqb c ",") v = true ->
               skipped (_parse_recipe_filter (Some v)) recipe_uid = false.
Proof.
  split; [|split; [reflexivity|]].
  - intros names. destruct names as [|first others]; simpl.
    + split; [discriminate | intros (H & _); now contradiction H].
    + rewrite negb_true_iff, orb_false_iff. split.
      * intros (Hfirst & Hothers). split; [discriminate|].
        intros [<- | Hin]; [now rewrite String.eqb_refl in Hfirst|].
        assert (existsb (String.eqb recipe_uid) others = true)
          by (apply existsb_exists; exists recipe_uid; split;
              [exact Hin | apply String.eqb_refl]).
        congruence.
      * intros (_ & Hnot). split.
        -- destruct (String.eqb recipe_uid first) eqn:E; trivial.
           apply String.eqb_eq in E. subst. contradiction Hnot. now left.
        -- destruct (existsb (String.eqb recipe_uid) others) eqn:E; trivial.
           apply existsb_exists in E as (x & Hx & Hxe). apply String.eqb_eq in Hxe.
           subst. contradiction Hnot. now right.
  - intros v Hv. unfold _parse_recipe_filter. destruct (is_empty v); trivial.
    assert (Hempty : filter (fun x => negb (is_empty x))
                       (map strip (split_on "," v EmptyString)) = []).
    { pose proof (split_on_blank v EmptyString Hv eq_refl) as Hpieces.
      induction Hpieces as [|x xs Hx _ IH]; simpl; trivial.
      unfold strip, strip_by. rewrite (lstrip_by_all _ _ Hx). simpl. exact IH. }
    now rewrite Hempty.
Qed.

Lemma blank_filter_skips_nothing_witness :
  all_chars (fun c => isspace c || Ascii.eqb c ",") " , ," = true
  /\ skipped (_parse_recipe_filter (Some " , ,")) "builtin:example" = false
  /\ skipped (_parse_recipe_filter (Some "builtin:example")) "builtin:example" = false
  /\ skipped (_parse_recipe_filter (Some "builtin:other")) "builtin:example" <> false.
Proof.
  split; [reflexivity|]. split.
  - apply (proj2 (proj2 (blank_filter_skips_nothing "builtin:example")) " , ,").
    reflexivity.
  - split; [reflexivity|].
    assert (H : skipped (Some ["builtin:other"]) "builtin:example" = true).
    { apply (proj1 (blank_filter_skips_nothing "builtin:example")). split.
      - discriminate.
      - intros [E | []]. discriminate E. }
    change (_parse_recipe_filter (Some "builtin:other")) with (Some ["builtin:other"]).
    rewrite H. discriminate.
Defined.

(** ** fetch_news.py: the RSS mode *)

Lemma insert_article_present (conn : list article_row) (p : article_payload) :
  In (p_fingerprint p) (map fingerprint_of conn) -> _insert_article conn p = conn.
Proof.
  intros H. unfold _insert_article. apply has_fingerprint_in in H. now rewrite H.
Qed.

Lemma insert_article_grows (conn : list article_row) (p : article_payload) f :
  In f (map fingerprint_of conn) -> In f (map fingerprint_of (_insert_article conn p)).
Proof.
  unfold _insert_article. destruct (existsb _ conn); trivial.
  rewrite map_app, in_app_iff. auto.
Qed.

Lemma insert_article_holds (conn : list article_row) (p : article_payload) :
  In (p_fingerprint p) (map fingerprint_of (_insert_article conn p)).
Proof.
  unfold _insert_article.
  destruct (existsb (has_fingerprint (p_fingerprint p)) conn) eqn:E.
  - now apply has_fingerprint_in.
  - rewrite map_app, in_app_iff. right. now left.
Qed.

Lemma insert_article_length (conn : list article_row) (p : article_payload) :
  List.length conn <= List.length (_insert_article conn p) <= S (List.length conn).
Proof.
  unfold _insert_article. destruct (existsb _ conn); [lia|].
  rewrite length_app. simpl. lia.
Qed.

(** X23. The fingerprint joins its parts with a bar that it does not
    escape: an entry whose link ends in a bar and some text collides with
    the entry that has that text, with the bar, at the start of its title,
    and the second of the two is dropped on insert. *)
Theorem fingerprint_separator_collision (sha256_hex get_text : string -> string)
    (conn : list article_row) (recipe_uid link middle title : string)
    (feed : feed_row) (feed_title : option string) (e1 e2 : feed_entry) (t1 t2 : string) :
  e_link e1 = Some (link ++ "|" ++ middle) -> e_title e1 = Some title ->
  e_link e2 = Some link -> e_title e2 = Some (middle ++ "|" ++ title) ->
  e_published e2 = e_published e1 ->
  let a1 := rss_article sha256_hex get_text recipe_uid feed feed_title e1 t1 in
  let a2 := rss_article sha256_hex get_text recipe_uid feed feed_title e2 t2 in
  p_fingerprint a2 = p_fingerprint a1
  /\ _insert_article (_insert_article conn a1) a2 = _insert_article conn a1.
Proof.
  intros Hl1 Ht1 Hl2 Ht2 Hp a1 a2.
  assert (Hfp : p_fingerprint a2 = p_fingerprint a1).
  { unfold a1, a2, rss_article, _fingerprint. simpl p_fingerprint.
    rewrite Hl1, Ht1, Hl2, Ht2, Hp. f_equal. simpl.
    rewrite !append_assoc. reflexivity. }
  split; trivial. apply insert_article_present. rewrite Hfp. apply insert_article_holds.
Qed.

Section RssFacts.
Variable sha256_hex : string -> string.
Variable get_text : string -> string.
Variable html_error : string -> option string.
Variable fetch : string -> fetch_outcome.
Variable now : nat -> string.
Variable max_articles : Z.

Lemma insert_article_appends (conn : list article_row) (p : article_payload) :
  exists added,
    _insert_article conn p = (conn ++ added)%list /\ List.length added <= 1.
Proof.
  unfold _insert_article. destruct (existsb _ conn).
  - exists []. rewrite app_nil_r. auto.
  - eexists. split; [reflexivity | simpl; lia].
Qed.

(** The loop over the entries of a feed: how many it handles and whether
    it is left by an exception depend on the entries alone; the articles
    table is only appended to. *)
Lemma store_entries_counts uid feed ft idx entries :
  exists n failure,
    n <= Nat.min (List.length entries) (Z.to_nat max_articles - idx)
    /\ Forall (fun entry => entry_error html_error entry = None) (firstn n entries)
    /\ match failure with
       | None => n = Nat.min (List.length entries) (Z.to_nat max_articles - idx)
       | Some text =>
           exists entry, nth_error entries n = Some entry
                         /\ n < Z.to_nat max_articles - idx
                         /\ entry_error html_error entry = Some text
       end
    /\ forall articles tick count,
       exists added,
         store_entries sha256_hex get_text html_error now max_articles uid feed ft idx
           entries (articles, tick, count)
         = ((articles ++ added)%list, tick + n, (count + Z.of_nat n)%Z, failure)
         /\ List.length added <= n
         /\ (NoDup (map fingerprint_of articles) ->
             NoDup (map fingerprint_of (articles ++ added)%list)).
Proof.
  revert idx. induction entries as [|entry entries IH]; intros idx; cbn [store_entries].
  - exists 0, None. repeat split; auto.
    intros articles tick count. exists [].
    rewrite app_nil_r, Nat.add_0_r, Z.add_0_r. auto.
  - destruct (Z.leb_spec max_articles (Z.of_nat idx)) as [Hmax|Hmax].
    + exists 0, None. split; [lia|]. split; [constructor|]. split; [simpl List.length; lia|].
      intros articles tick count. exists [].
      rewrite app_nil_r, Nat.add_0_r, Z.add_0_r. auto.
    + destruct (entry_error html_error entry) as [text|] eqn:Herr.
      * exists 0, (Some text). split; [lia|]. split; [constructor|].
        split; [exists entry; repeat split; trivial; lia|].
        intros articles tick count. exists [].
        rewrite app_nil_r, Nat.add_0_r, Z.add_0_r. auto.
      * destruct (IH (S idx)) as (n & failure & Hn & Hclean & Hfail & Hrun).
        exists (S n), failure. split; [simpl List.length; lia|].
        split; [cbn [firstn]; now constructor|]. split.
        { destruct failure as [text|].
          - destruct Hfail as (e & He & Hlt & Herr'). exists e. repeat split; trivial. lia.
          - simpl List.length. lia. }
        intros articles tick count.
        destruct (insert_article_appends articles
                    (rss_article sha256_hex get_text uid feed ft entry (now tick)))
          as (first & Hins & Hone).
        destruct (Hrun (_insert_article articles
                          (rss_article sha256_hex get_text uid feed ft entry (now tick)))
                    (S tick) (count + 1)%Z) as (more & Hgo & Hlen & Hnd).
        exists (first ++ more)%list. rewrite Hgo. rewrite Hins in *.
        rewrite <- app_assoc in *. split.
        { f_equal. f_equal; [f_equal; lia | lia]. }
        split; [rewrite length_app; lia|].
        intros Huniq. apply Hnd. rewrite <- Hins.
        now apply insert_article_keeps_unique.
Qed.

(** X24. The loop over the entries of a feed handles the entries in order
    and stops at the bound [max_articles] (at once when the bound is not
    positive), at the end of the list, or at the first entry whose markup
    makes [html_to_text] raise, in which case the feed ends with that
    exception.  [article_count] and the clock grow by the number of
    entries handled, also for entries that were already stored; the
    articles table is only appended to, by at most that many rows, and
    keeps its fingerprints unique. *)
Theorem store_entries_bounds uid feed ft entries articles tick count :
  let '(articles', tick', count', failure) :=
    store_entries sha256_hex get_text html_error now max_articles uid feed ft 0 entries
      (articles, tick, count) in
  exists n,
    n <= Nat.min (List.length entries) (Z.to_nat max_articles)
    /\ Forall (fun entry => entry_error html_error entry = None) (firstn n entries)
    /\ match failure with
       | None => n = Nat.min (List.length entries) (Z.to_nat max_articles)
       | Some text =>
           exists entry, nth_error entries n = Some entry
                         /\ n < Z.to_nat max_articles
                         /\ entry_error html_error entry = Some text
       end
    /\ count' = (count + Z.of_nat n)%Z
    /\ tick' = tick + n
    /\ (exists added, articles' = (articles ++ added)%list /\ List.length added <= n)
    /\ (NoDup (map fingerprint_of articles) -> NoDup (map fingerprint_of articles')).
Proof.
  destruct (store_entries_counts uid feed ft 0 entries)
    as (n & failure & Hn & Hclean & Hfail & Hrun).
  destruct (Hrun articles tick count) as (added & -> & Hlen & Hnd).
  rewrite Nat.sub_0_r in *. exists n. repeat split; trivial; eauto.
Qed.

(** Storing entries again, into a table that already has every
    fingerprint an earlier pass over them left, changes no row. *)
Lemma store_entries_again uid feed ft idx entries st1 articles tick count :
  (forall f, In f (map fingerprint_of
                     (table_of (fst (store_entries sha256_hex get_text html_error now
                                       max_articles uid feed ft idx entries st1)))) ->
             In f (map fingerprint_of articles)) ->
  table_of (fst (store_entries sha256_hex get_text html_error now max_articles uid feed ft
                   idx entries (articles, tick, count))) = articles.
Proof.
  revert idx st1 tick count.
  induction entries as [|entry entries IH]; intros idx [[a1 k1] c1] tick count;
    cbn [store_entries]; trivial.
  destruct (max_articles <=? Z.of_nat idx)%Z; trivial.
  destruct (entry_error html_error entry); trivial.
  intros Hsub.
  destruct (store_entries_counts uid feed ft (S idx) entries)
    as (n & failure & _ & _ & _ & Hrun).
  destruct (Hrun (_insert_article a1
                    (rss_article sha256_hex get_text uid feed ft entry (now k1)))
              (S k1) (c1 + 1)%Z) as (more & Hfinal & _).
  rewrite insert_article_present.
  - eapply IH. exact Hsub.
  - apply Hsub. rewrite Hfinal. unfold table_of. simpl. rewrite map_app, in_app_iff.
    left.
    apply (insert_article_holds a1 (rss_article sha256_hex get_text uid feed ft entry (now k1))).
Qed.

(** Whether the entry loop is left by an exception, read off the entries
    it may visit. *)
Lemma store_entries_failure uid feed ft idx entries st :
  match snd (store_entries sha256_hex get_text html_error now max_articles uid feed ft idx
               entries st) with
  | Some _ =>
      existsb (fun entry => match entry_error html_error entry with
                            | Some _ => true
                            | None => false
                            end)
        (firstn (Z.to_nat max_articles - idx) entries) = true
  | None =>
      existsb (fun entry => match entry_error html_error entry with
                            | Some _ => true
                            | None => false
                            end)
        (firstn (Z.to_nat max_articles - idx) entries) = false
  end.
Proof.
  revert idx st. induction entries as [|entry entries IH]; intros idx st;
    cbn [store_entries].
  - simpl. now rewrite firstn_nil.
  - destruct (Z.leb_spec max_articles (Z.of_nat idx)) as [Hmax|Hmax].
    + simpl. replace (Z.to_nat max_articles - idx) with 0 by lia. reflexivity.
    + replace (Z.to_nat max_articles - idx) with (S (Z.to_nat max_articles - S idx)) by lia.
      cbn [firstn existsb].
      destruct (entry_error html_error entry); [reflexivity|].
      destruct st as [[articles tick] count]. cbn [orb]. apply IH.
Qed.

End RssFacts.

Section RssPassFacts.
Variable sha256_hex : string -> string.
Variable get_text : string -> string.
Variable html_error : string -> option string.
Variable fetch : string -> fetch_outcome.
Variable now : nat -> string.
Variable max_articles : Z.

Lemma fetch_feed_cases uid feed :
  (feed_fails fetch feed = false
   /\ exists ft root, fetch (fr_url feed) = Fetched (XmlRoot root) /\ forall st,
        fetch_feed sha256_hex get_text html_error fetch now max_articles uid feed st
        = store_entries sha256_hex get_text html_error now max_articles uid feed ft 0
            (snd (feed_of_root root)) st)
  \/ (feed_fails fetch feed = true
      /\ feed_breaks html_error fetch max_articles feed = false
      /\ exists text, forall st,
           fetch_feed sha256_hex get_text html_error fetch now max_articles uid feed st
           = (st, Some text)).
Proof.
  unfold feed_fails, feed_breaks, fetch_feed.
  destruct (fetch (fr_url feed)) as [[root|msg]|ty msg].
  - left. split; trivial. simpl.
    destruct (feed_of_root root) as [title entries] eqn:Hroot.
    eexists _, root. split; [reflexivity|]. intros st. rewrite Hroot. reflexivity.
  - right. simpl. eauto.
  - right. eauto.
Qed.

(** The feed ends with an exception exactly when it cannot be fetched or
    parsed, or its entry loop is left by one. *)
Lemma fetch_feed_failure uid feed st :
  match snd (fetch_feed sha256_hex get_text html_error fetch now max_articles uid feed st)
  with
  | Some _ => feed_fails fetch feed || feed_breaks html_error fetch max_articles feed = true
  | None => feed_fails fetch feed || feed_breaks html_error fetch max_articles feed = false
  end.
Proof.
  destruct (fetch_feed_cases uid feed)
    as [(Hok & ft & root & Hroot & Hrun) | (Hbad & _ & text & Hrun)]; rewrite Hrun.
  - rewrite Hok. cbn [orb]. unfold feed_breaks. rewrite Hroot.
    pose proof (store_entries_failure sha256_hex get_text html_error now max_articles
                  uid feed ft 0 (snd (feed_of_root root)) st) as H.
    now rewrite Nat.sub_0_r in H.
  - now rewrite Hbad.
Qed.

Lemma fetch_feed_appends uid feed articles tick count :
  exists added,
    table_of (fst (fetch_feed sha256_hex get_text html_error fetch now max_articles uid
                     feed (articles, tick, count))) = (articles ++ added)%list.
Proof.
  destruct (fetch_feed_cases uid feed)
    as [(_ & ft & root & _ & Hrun) | (_ & _ & text & Hrun)]; rewrite Hrun.
  - destruct (store_entries_counts sha256_hex get_text html_error now max_articles uid
                feed ft 0 (snd (feed_of_root root))) as (n & failure & _ & _ & _ & Hgo).
    destruct (Hgo articles tick count) as (added & -> & _). now exists added.
  - exists []. now rewrite app_nil_r.
Qed.

Lemma fetch_feeds_grows uid feeds st status error f :
  In f (map fingerprint_of (table_of st)) ->
  In f (map fingerprint_of
          (table_of (fst (fst (fetch_feeds sha256_hex get_text html_error fetch now
                                 max_articles uid feeds st status error))))).
Proof.
  revert st status error. induction feeds as [|feed feeds IH]; intros st status error Hf;
    cbn [fetch_feeds]; trivial.
  destruct st as [[articles tick] count].
  destruct (fetch_feed_appends uid feed articles tick count) as (added & Hadd).
  destruct (fetch_feed _ _ _ _ _ _ uid feed (articles, tick, count)) as [st' [text|]];
    apply IH; simpl in Hadd; rewrite Hadd, map_app, in_app_iff; now left.
Qed.

Lemma fetch_feeds_state uid feeds st status error status2 error2 :
  fst (fst (fetch_feeds sha256_hex get_text html_error fetch now max_articles uid feeds st
              status error))
  = fst (fst (fetch_feeds sha256_hex get_text html_error fetch now max_articles uid
                (filter (fun feed => negb (feed_fails fetch feed)) feeds) st
                status2 error2)).
Proof.
  revert st status error status2 error2.
  induction feeds as [|feed feeds IH]; intros st status error status2 error2;
    cbn [fetch_feeds filter]; trivial.
  destruct (fetch_feed_cases uid feed)
    as [(Hok & ft & root & _ & Hrun) | (Hbad & _ & text & Hrun)].
  - rewrite Hok. cbn [negb fetch_feeds].
    destruct (fetch_feed _ _ _ _ _ _ uid feed st) as [st' [text|]]; apply IH.
  - rewrite Hbad, Hrun. cbn [negb]. apply IH.
Qed.

Lemma fetch_feeds_all_good uid feeds st status error :
  existsb (fun feed => feed_fails fetch feed
                       || feed_breaks html_error fetch max_articles feed) feeds = false ->
  snd (fst (fetch_feeds sha256_hex get_text html_error fetch now max_articles uid feeds st
              status error)) = status
  /\ snd (fetch_feeds sha256_hex get_text html_error fetch now max_articles uid feeds st
            status error) = error.
Proof.
  revert st. induction feeds as [|feed feeds IH]; intros st; cbn [fetch_feeds existsb];
    [auto|].
  rewrite orb_false_iff. intros (Hok & Hrest).
  pose proof (fetch_feed_failure uid feed st) as Hf.
  destruct (fetch_feed _ _ _ _ _ _ uid feed st) as [st' [text|]]; simpl in Hf;
    [congruence | now apply IH].
Qed.

Lemma fetch_feeds_some_bad uid feeds st status error :
  existsb (fun feed => feed_fails fetch feed
                       || feed_breaks html_error fetch max_articles feed) feeds = true ->
  snd (fst (fetch_feeds sha256_hex get_text html_error fetch now max_articles uid feeds st
              status error)) = "error"
  /\ exists text,
      snd (fetch_feeds sha256_hex get_text html_error fetch now max_articles uid feeds st
             status error) = Some text.
Proof.
  revert st status error.
  induction feeds as [|feed feeds IH]; intros st status error; cbn [fetch_feeds existsb];
    [discriminate|].
  pose proof (fetch_feed_failure uid feed st) as Hf.
  destruct (fetch_feed _ _ _ _ _ _ uid feed st) as [st' [text|]]; simpl in Hf.
  - intros _.
    destruct (existsb (fun feed => feed_fails fetch feed
                         || feed_breaks html_error fetch max_articles feed) feeds) eqn:Hrest.
    + now apply IH.
    + destruct (fetch_feeds_all_good uid feeds st' "error" (Some text) Hrest) as (-> & ->).
      eauto.
  - rewrite Hf. cbn [orb]. apply IH.
Qed.

(** X25. A feed that cannot be fetched or parsed is skipped and the loop
    goes on: the articles, the clock and [article_count] end as after a
    pass over the other feeds alone.  The status ends as error, with a
    message, exactly when some feed could not be fetched or parsed or had
    its entry loop left by an exception; otherwise status and error stay as
    they were. *)
Theorem fetch_feeds_skips_failures uid feeds st status error :
  let good := filter (fun feed => negb (feed_fails fetch feed)) feeds in
  let failed := existsb (fun feed => feed_fails fetch feed
                           || feed_breaks html_error fetch max_articles feed) feeds in
  let '(st', status', error') :=
    fetch_feeds sha256_hex get_text html_error fetch now max_articles uid feeds st
      status error in
  fst (fst (fetch_feeds sha256_hex get_text html_error fetch now max_articles uid good st
              status error)) = st'
  /\ (failed = false -> status' = status /\ error' = error)
  /\ (failed = true -> status' = "error" /\ exists text, error' = Some text).
Proof.
  cbv zeta.
  pose proof (fetch_feeds_state uid feeds st status error status error) as Hstate.
  pose proof (fetch_feeds_all_good uid feeds st status error) as Hgood.
  pose proof (fetch_feeds_some_bad uid feeds st status error) as Hbad.
  destruct (fetch_feeds sha256_hex get_text html_error fetch now max_articles uid feeds st
              status error) as [[st' status'] error'].
  simpl in *. split; [now rewrite <- Hstate|]. split; [exact Hgood | exact Hbad].
Qed.

(** A pass over feeds changes status, error, clock and count in a way
    that does not depend on the articles already stored. *)
Lemma fetch_feeds_outcome uid feeds status error :
  exists n status' error',
    forall articles tick count,
    exists articles',
      fetch_feeds sha256_hex get_text html_error fetch now max_articles uid feeds
        (articles, tick, count) status error
      = ((articles', tick + n, (count + Z.of_nat n)%Z), status', error').
Proof.
  revert status error. induction feeds as [|feed feeds IH]; intros status error;
    cbn [fetch_feeds].
  - exists 0, status, error. intros articles tick count. exists articles.
    now rewrite Nat.add_0_r, Z.add_0_r.
  - destruct (fetch_feed_cases uid feed)
      as [(_ & ft & root & _ & Hrun) | (_ & _ & text & Hrun)].
    + destruct (store_entries_counts sha256_hex get_text html_error now max_articles uid
                  feed ft 0 (snd (feed_of_root root)))
        as (m & failure & _ & _ & _ & Hgo).
      assert (Hrest : exists n s' e', forall articles tick count, exists articles',
                 match failure with
                 | None => fetch_feeds sha256_hex get_text html_error fetch now
                             max_articles uid feeds (articles, tick, count) status error
                 | Some text => fetch_feeds sha256_hex get_text html_error fetch now
                                  max_articles uid feeds (articles, tick, count)
                                  "error" (Some text)
                 end = ((articles', tick + n, (count + Z.of_nat n)%Z), s', e'))
        by (destruct failure; apply IH).
      destruct Hrest as (n & s' & e' & Hrest).
      exists (m + n), s', e'. intros articles tick count.
      rewrite Hrun. destruct (Hgo articles tick count) as (added & -> & _).
      destruct (Hrest (articles ++ added)%list (tick + m) (count + Z.of_nat m)%Z)
        as (a2 & Ha2).
      exists a2.
      replace (tick + (m + n)) with (tick + m + n) by lia.
      replace (count + Z.of_nat (m + n))%Z with (count + Z.of_nat m + Z.of_nat n)%Z by lia.
      destruct failure; exact Ha2.
    + destruct (IH "error" (Some text)) as (n & s' & e' & Hrest).
      exists n, s', e'. intros articles tick count. rewrite Hrun. apply Hrest.
Qed.

Lemma fetch_feeds_again uid feeds st1 status1 error1 articles tick count status error :
  (forall f,
      In f (map fingerprint_of
              (table_of (fst (fst (fetch_feeds sha256_hex get_text html_error fetch now
                                     max_articles uid feeds st1 status1 error1))))) ->
      In f (map fingerprint_of articles)) ->
  table_of (fst (fst (fetch_feeds sha256_hex get_text html_error fetch now max_articles
                        uid feeds (articles, tick, count) status error))) = articles.
Proof.
  revert st1 status1 error1 tick count status error.
  induction feeds as [|feed feeds IH];
    intros st1 status1 error1 tick count status error; cbn [fetch_feeds]; trivial.
  destruct (fetch_feed_cases uid feed)
    as [(_ & ft & root & _ & Hrun) | (_ & _ & text & Hrun)];
    rewrite !Hrun; intros Hsub.
  - assert (Hsame : table_of (fst (store_entries sha256_hex get_text html_error now
                                     max_articles uid feed ft 0 (snd (feed_of_root root))
                                     (articles, tick, count))) = articles).
    { eapply (store_entries_again sha256_hex get_text html_error now max_articles uid feed
                ft 0 (snd (feed_of_root root)) st1).
      intros f Hf. apply Hsub.
      destruct (store_entries _ _ _ _ _ uid feed ft 0 (snd (feed_of_root root)) st1)
        as [st1' [text|]]; now apply fetch_feeds_grows. }
    destruct (store_entries _ _ _ _ _ uid feed ft 0 (snd (feed_of_root root)) st1)
      as [st1' failure1].
    destruct (store_entries _ _ _ _ _ uid feed ft 0 (snd (feed_of_root root))
                (articles, tick, count)) as [[[a2 t2] c2] failure2].
    unfold table_of in Hsame. simpl in Hsame. subst a2.
    destruct failure1, failure2; eapply IH; exact Hsub.
  - eapply IH. exact Hsub.
Qed.

(** X26. Fetching a recipe again right after a pass, with the feeds
    answering as before, stores no new article and changes none: every
    entry handled is found by its fingerprint and ignored.  A second run
    is recorded all the same, with the status, error and [article_count]
    of the first: the count is of entries handled, not of articles
    added. *)
Theorem run_rss_recipe_again (db : news_db) (uid : string) (feeds : list feed_row) :
  let db1 := run_rss_recipe sha256_hex get_text html_error fetch now max_articles db uid
               feeds in
  let db2 := run_rss_recipe sha256_hex get_text html_error fetch now max_articles db1 uid
               feeds in
  news_articles db2 = news_articles db1
  /\ exists r1 r2,
      news_runs db1 = (news_runs db ++ [r1])%list
      /\ news_runs db2 = (news_runs db1 ++ [r2])%list
      /\ run_recipe_uid r1 = uid /\ run_recipe_uid r2 = uid
      /\ run_status r2 = run_status r1
      /\ run_error r2 = run_error r1
      /\ run_article_count r2 = run_article_count r1.
Proof.
  cbv zeta.
  destruct (fetch_feeds_outcome uid feeds "ok" None) as (n & s' & e' & Hout).
  destruct (Hout (news_articles db) (S (news_tick db)) 0%Z) as (a1 & H1).
  pose proof (fetch_feeds_again uid feeds (news_articles db, S (news_tick db), 0%Z)
                "ok" None a1) as Hagain.
  rewrite H1 in Hagain.
  assert (Hdb1 : run_rss_recipe sha256_hex get_text html_error fetch now max_articles db
                   uid feeds
                 = {| news_articles := a1;
                      news_runs := record_run (news_runs db) uid s' (now (news_tick db))
                                     (now (S (news_tick db) + n)) e' (0 + Z.of_nat n)%Z;
                      news_tick := S (S (news_tick db) + n) |})
    by (unfold run_rss_recipe; now rewrite H1).
  rewrite Hdb1. unfold run_rss_recipe. cbn [news_articles news_runs news_tick].
  destruct (Hout a1 (S (S (S (news_tick db) + n))) 0%Z) as (a2 & H2).
  specialize (Hagain (S (S (S (news_tick db) + n))) 0%Z "ok" None (fun f Hf => Hf)).
  rewrite H2 in Hagain |- *. unfold table_of in Hagain. simpl in Hagain. subst a2.
  cbn [news_articles news_runs]. split; trivial.
  unfold record_run. do 2 eexists. repeat split.
Qed.

(** [_run_rss_mode] records one run for every recipe it does not
    skip, in the order of the feed map, and none for the others; no stored
    article is lost. *)
Theorem run_rss_mode_runs (db : news_db) (feed_map : list (string * list feed_row))
    (recipe_filter : option (list string)) :
  let db' := _run_rss_mode sha256_hex get_text html_error fetch now max_articles db
               feed_map recipe_filter in
  map run_recipe_uid (news_runs db')
  = (map run_recipe_uid (news_runs db)
     ++ filter (fun uid => negb (skipped recipe_filter uid)) (map fst feed_map))%list
  /\ forall f, In f (map fingerprint_of (news_articles db)) ->
               In f (map fingerprint_of (news_articles db')).
Proof.
  cbv zeta. revert db.
  induction feed_map as [|[uid feeds] feed_map IH]; intros db; cbn [_run_rss_mode map filter fst].
  - rewrite app_nil_r. auto.
  - destruct (skipped recipe_filter uid); cbn [negb]; [apply IH|].
    destruct (IH (run_rss_recipe sha256_hex get_text html_error fetch now max_articles db
                    uid feeds))
      as (Hruns & Hkeep).
    split.
    + rewrite Hruns. unfold run_rss_recipe.
      destruct (fetch_feeds _ _ _ _ _ _ _ _ _ _ _) as [[[[a t] c] s] e].
      cbn [news_runs]. unfold record_run. rewrite map_app. simpl.
      now rewrite <- app_assoc.
    + intros f Hf. apply Hkeep. unfold run_rss_recipe.
      pose proof (fetch_feeds_grows uid feeds (news_articles db, S (news_tick db), 0%Z)
                    "ok" None f Hf) as Hg.
      destruct (fetch_feeds _ _ _ _ _ _ _ _ _ _ _) as [[[[a t] c] s] e].
      exact Hg.
Qed.

End RssPassFacts.

Lemma fingerprint_separator_collision_witness :
  e_link colliding_entry_1 = Some ("http://ex.com/a" ++ "|" ++ "b")
  /\ e_title colliding_entry_2 = Some ("b" ++ "|" ++ "news")
  /\ e_published colliding_entry_2 = e_published colliding_entry_1
  /\ List.length
       (_insert_article
          (_insert_article []
             (rss_article (fun s => s) (fun s => s) "builtin:example"
                {| fr_recipe_title := None; fr_url := "http://ex.com/rss";
                   fr_feed_title := None |} None colliding_entry_1 "t1"))
          (rss_article (fun s => s) (fun s => s) "builtin:example"
             {| fr_recipe_title := None; fr_url := "http://ex.com/rss";
                fr_feed_title := None |} None colliding_entry_2 "t2")) = 1.
Proof.
  split; [reflexivity|]. split; [reflexivity|]. split; [reflexivity|].
  rewrite (proj2 (fingerprint_separator_collision (fun s => s) (fun s => s) []
                    "builtin:example" "http://ex.com/a" "b" "news"
                    {| fr_recipe_title := None; fr_url := "http://ex.com/rss";
                       fr_feed_title := None |} None
                    colliding_entry_1 colliding_entry_2 "t1" "t2"
                    eq_refl eq_refl eq_refl eq_refl eq_refl)).
  reflexivity.
Defined.

(** ** utils.py and recipe_parser.py: every match is a literal hit *)

Lemma rstrip_by_keeps_head p (c : ascii) (rest : string) :
  p c = false -> exists kept, rstrip_by p (String c rest) = String c kept.
Proof.
  intros Hc. cbn [rstrip_by]. destruct (rstrip_by p rest); rewrite ?Hc; eauto.
Qed.

(** A string whose first character is neither whitespace, nor a quote, nor
    a trailing character is never cleaned away. *)
Lemma normalize_url_keeps_head (c : ascii) (rest : string) :
  isspace c = false -> char_in quote_chars c = false ->
  char_in trailing_chars c = false ->
  exists u, truthy (normalize_url (String c rest)) = Some u.
Proof.
  intros Hs Hq Ht.
  unfold normalize_url, strip, strip_chars, rstrip_chars, strip_by.
  cbn [lstrip_by]. rewrite Hs.
  destruct (rstrip_by_keeps_head isspace c rest Hs) as (k1 & ->).
  cbn [lstrip_by]. rewrite Hq.
  destruct (rstrip_by_keeps_head (char_in quote_chars) c k1 Hq) as (k2 & ->).
  cbn [is_empty].
  destruct (rstrip_by_keeps_head (char_in trailing_chars) c k2 Ht) as (k3 & ->).
  destruct (startswith "feed://" (String c k3)); simpl; eauto.
Qed.

Lemma collect_hits_all {A} (f : A -> option EndpointHit) (l : list A) :
  (forall x, In x l -> exists h, f x = Some h) ->
  List.length (collect_hits f l) = List.length l.
Proof.
  unfold collect_hits. induction l as [|x l IH]; intros H; simpl; trivial.
  rewrite length_app. destruct (H x (or_introl eq_refl)) as (h & ->). simpl.
  rewrite IH; trivial. intros y Hy. apply H. now right.
Qed.

Lemma match_yields_hit (text m : string) :
  In m (find_urls_in_text text) ->
  exists h, literal_hit m = Some h /\ raw_url h = Some (VStr m)
            /\ url h <> EmptyString.
Proof.
  intros Hin. apply find_urls_in_text_sound in Hin as (_ & scheme & body & Hsch & -> & _).
  assert (H : exists u, truthy (normalize_url (scheme ++ body)) = Some u).
  { simpl in Hsch. destruct Hsch as [<- | [<- | [<- | []]]];
      apply normalize_url_keeps_head; reflexivity. }
  destruct H as (u & Hu). unfold literal_hit. rewrite Hu.
  eexists. split; [reflexivity|]. split; [reflexivity|]. simpl.
  apply truthy_some in Hu as (_ & Hne). exact Hne.
Qed.

(** X3. Every string the scanner returns occurs in the text and consists of
    one of the three schemes followed by one or more characters that are
    neither whitespace, quotes nor angle brackets; and each of them gives a
    literal hit that records it as raw_url, so the literal hits are as many
    as the matches. *)
Theorem find_urls_in_text_matches (text : string) :
  (forall m, In m (find_urls_in_text text) ->
     Occurs m text
     /\ (exists scheme body,
           In scheme ["https://"; "http://"; "feed://"] /\ m = scheme ++ body
           /\ body <> EmptyString /\ all_chars url_char body = true)
     /\ exists h, literal_hit m = Some h /\ raw_url h = Some (VStr m)
                  /\ url h <> EmptyString)
  /\ List.length (collect_hits literal_hit (find_urls_in_text text))
     = List.length (find_urls_in_text text).
Proof.
  split.
  - intros m Hin. destruct (find_urls_in_text_sound text m Hin) as (Hocc & Hshape).
    split; [exact Hocc|]. split; [exact Hshape|]. now apply (match_yields_hit text).
  - apply collect_hits_all. intros m Hin.
    destruct (match_yields_hit text m Hin) as (h & Hh & _). eauto.
Qed.

Lemma find_urls_in_text_matches_witness :
  In "https://ex.org/b" (find_urls_in_text "see https://ex.org/b now")
  /\ Occurs "https://ex.org/b" "see https://ex.org/b now".
Proof.
  split; [simpl; auto|].
  apply (proj1 (find_urls_in_text_matches "see https://ex.org/b now") "https://ex.org/b").
  simpl. auto.
Defined.

(** ** rss_fallback.py *)

Lemma after_brace_none (s : string) : all_chars not_brace s = true -> after_brace s = None.
Proof.
  induction s as [|c s IH]; simpl; trivial.
  rewrite andb_true_iff. unfold not_brace at 1. rewrite negb_true_iff.
  intros (-> & Hs). now apply IH.
Qed.

Lemma after_brace_first (uri local : string) :
  all_chars not_brace uri = true -> after_brace (uri ++ String "}" local) = Some local.
Proof.
  induction uri as [|c uri IH]; simpl; trivial.
  rewrite andb_true_iff. unfold not_brace at 1. rewrite negb_true_iff.
  intros (-> & Hs). now apply IH.
Qed.

(** X27. [_strip_ns] removes a namespace written in braces before a name
    and leaves a name without braces as it is, so stripping twice is
    stripping once. *)
Theorem strip_ns_qualified (uri local : string) :
  all_chars not_brace uri = true -> all_chars not_brace local = true ->
  _strip_ns (String "{" (uri ++ String "}" local)) = local
  /\ _strip_ns local = local.
Proof.
  intros Huri Hlocal. unfold _strip_ns. split.
  - change (after_brace (String "{" (uri ++ String "}" local)))
      with (after_brace (uri ++ String "}" local)).
    now rewrite after_brace_first.
  - now rewrite after_brace_none.
Qed.

Lemma strip_ns_qualified_witness :
  all_chars not_brace "http://www.w3.org/2005/Atom" = true
  /\ all_chars not_brace "feed" = true
  /\ _strip_ns "{http://www.w3.org/2005/Atom}feed" = "feed".
Proof.
  split; [reflexivity|]. split; [reflexivity|].
  apply (strip_ns_qualified "http://www.w3.org/2005/Atom" "feed"); reflexivity.
Defined.

(** X28. The link of an Atom entry is the [href] of its first alternate
    link (one whose [rel] is alternate or missing), whatever links come
    before it, and even when that link has no [href]. *)
Theorem atom_link_prefers_alternate (before : list Element) (alt : Element)
    (after : list Element) (found : option string) :
  Forall (fun l => is_alternate l = false) before -> is_alternate alt = true ->
  atom_link (before ++ alt :: after) found = attr_get (attrib_of alt) "href".
Proof.
  intros Hb Halt. revert found.
  induction Hb as [|l before Hl _ IH]; intros found; simpl.
  - unfold is_alternate in Halt. now rewrite Halt.
  - unfold is_alternate in Hl. rewrite Hl. apply IH.
Qed.

Lemma atom_link_prefers_alternate_witness :
  Forall (fun l => is_alternate l = false)
    [Elem "link" [("rel", "self"); ("href", "http://ex.com/feed")] None []]
  /\ is_alternate (Elem "link" [("href", "http://ex.com/post")] None []) = true
  /\ atom_link
       [Elem "link" [("rel", "self"); ("href", "http://ex.com/feed")] None [];
        Elem "link" [("href", "http://ex.com/post")] None []] None
     = Some "http://ex.com/post".
Proof.
  assert (H : Forall (fun l => is_alternate l = false)
                [Elem "link" [("rel", "self"); ("href", "http://ex.com/feed")] None []])
    by (repeat constructor).
  split; [exact H|]. split; [reflexivity|].
  apply (atom_link_prefers_alternate
           [Elem "link" [("rel", "self"); ("href", "http://ex.com/feed")] None []]
           (Elem "link" [("href", "http://ex.com/post")] None []) [] None H eq_refl).
Defined.

(** X29. The text [_find_child_text] returns is the text of a child with
    that local name and a non-empty text, with the whitespace stripped
    from both ends; children with that name and no text are passed over. *)
Theorem find_child_text_stripped (node : Element) (name s : string) :
  _find_child_text node name = Some s ->
  head_outside isspace s /\ last_outside isspace s
  /\ exists before child after t,
      children_of node = (before ++ child :: after)%list
      /\ _strip_ns (tag_of child) = name
      /\ text_of child = Some t /\ t <> EmptyString /\ s = strip t
      /\ Forall (fun c => _strip_ns (tag_of c) = name -> nonempty (text_of c) = false)
                before.
Proof.
  unfold _find_child_text. generalize (children_of node) as children.
  induction children as [|child children IH]; simpl; [discriminate|].
  destruct (String.eqb_spec (_strip_ns (tag_of child)) name) as [Hname|Hname]; simpl.
  - destruct (nonempty (text_of child)) eqn:Htext.
    + destruct (text_of child) as [t|] eqn:Ht; [|discriminate]. simpl.
      intros E. inversion E; subst s; clear E.
      destruct (strip_by_split isspace t) as (_ & _ & _ & _ & _ & Hh & Hl).
      repeat split; trivial.
      exists [], child, children, t. repeat split; trivial.
      intros ->. discriminate.
    + intros H. destruct (IH H) as (Hh & Hl & before & c & after & t & -> & Hc).
      repeat split; trivial.
      exists (child :: before), c, after, t.
      destruct Hc as (? & ? & ? & ? & Hb). repeat split; trivial.
      constructor; trivial.
  - intros H. destruct (IH H) as (Hh & Hl & before & c & after & t & -> & Hc).
    repeat split; trivial.
    exists (child :: before), c, after, t.
    destruct Hc as (? & ? & ? & ? & Hb). repeat split; trivial.
    constructor; trivial. intros E. now elim Hname.
Qed.

Lemma find_child_text_stripped_witness :
  _find_child_text
    (Elem "item" [] None [Elem "title" [] None []; Elem "title" [] (Some " Hello ") []])
    "title" = Some "Hello"
  /\ head_outside isspace "Hello".
Proof.
  split; [reflexivity|].
  apply (find_child_text_stripped
           (Elem "item" [] None
              [Elem "title" [] None []; Elem "title" [] (Some " Hello ") []])
           "title" "Hello" eq_refl).
Defined.

Lemma findall_qualified (node : Element) (name : string) :
  is_qualified name = false ->
  Forall (fun c => is_qualified (tag_of c) = true) (children_of node) ->
  findall node name = [].
Proof.
  intros Hname. unfold findall. induction 1 as [|c cs Hc _ IH]; simpl; trivial.
  destruct (String.eqb_spec (tag_of c) name) as [E|_]; [congruence | exact IH].
Qed.

(** X30. Entries are looked up by their full tag, titles by their local
    name: in an Atom document whose elements all carry a namespace, as
    the Atom format prescribes, [parse_feed] finds the title and returns
    no entry. *)
Theorem parse_feed_qualified_atom (root : Element) :
  _strip_ns (tag_of root) = "feed" ->
  Forall (fun c => is_qualified (tag_of c) = true) (children_of root) ->
  parse_feed (XmlRoot root) = Ok (_find_child_text root "title", []).
Proof.
  intros Htag Hq. simpl. unfold feed_of_root. rewrite Htag. simpl.
  now rewrite findall_qualified.
Qed.

Lemma parse_feed_qualified_atom_witness :
  parse_feed
    (XmlRoot
       (Elem "{http://www.w3.org/2005/Atom}feed" [] None
          [Elem "{http://www.w3.org/2005/Atom}title" [] (Some "Example") [];
           Elem "{http://www.w3.org/2005/Atom}entry" [] None
             [Elem "{http://www.w3.org/2005/Atom}title" [] (Some "Post") []]]))
  = Ok (Some "Example", []).
Proof.
  rewrite (parse_feed_qualified_atom
             (Elem "{http://www.w3.org/2005/Atom}feed" [] None
                [Elem "{http://www.w3.org/2005/Atom}title" [] (Some "Example") [];
                 Elem "{http://www.w3.org/2005/Atom}entry" [] None
                   [Elem "{http://www.w3.org/2005/Atom}title" [] (Some "Post") []]])
             eq_refl).
  - reflexivity.
  - repeat constructor.
Defined.
